(** * The recited mushaf: title parsing, feed extraction and search

    A shallow embedding of [getPodcastEpisodes] (the server action that turns
    the podcast RSS feed into episode records) and of the search helpers of
    the [PodcastPlayer] component ([normalizeArabic], [reciters],
    [filteredEpisodes]), with the properties of the written specification
    stated and proved over them.

    JavaScript strings are sequences of UTF-16 code units; they are modelled
    as lists of integers.  Every regular expression of the source is written
    without the [u] flag, so it also works on code units. *)

From Stdlib Require Import ZArith List Bool Lia String Ascii Permutation Sorted.
Import ListNotations.

Local Open Scope Z_scope.

(** ** JavaScript strings *)

Definition jsstring := list Z.

Definition eqb_str (a b : jsstring) : bool :=
  if list_eq_dec Z.eq_dec a b then true else false.

(** [!s] on a string: only the empty string is falsy. *)
Definition isEmpty (s : jsstring) : bool :=
  match s with [] => true | _ :: _ => false end.

(** String literals of the source are written as they appear there; the
    file is UTF-8, so a literal is decoded to its UTF-16 code units (all
    literals of the source are in the Basic Multilingual Plane). *)
Fixpoint bytes_of (s : string) : list Z :=
  match s with
  | EmptyString => []
  | String a s' => Z.of_N (N_of_ascii a) :: bytes_of s'
  end.

Fixpoint utf16_of_utf8 (bs : list Z) : jsstring :=
  match bs with
  | [] => []
  | b0 :: r0 =>
      if b0 <? 128 then b0 :: utf16_of_utf8 r0
      else if b0 <? 224 then
        match r0 with
        | b1 :: r1 => ((b0 mod 32) * 64 + b1 mod 64) :: utf16_of_utf8 r1
        | [] => []
        end
      else
        match r0 with
        | b1 :: b2 :: r2 =>
            ((b0 mod 16) * 4096 + (b1 mod 64) * 64 + b2 mod 64)
              :: utf16_of_utf8 r2
        | _ => []
        end
  end.

Definition js (s : string) : jsstring := utf16_of_utf8 (bytes_of s).

(** Two occurrences of a literal are compared as they are written; the
    decoding is unfolded only when a computation needs the code units. *)
Strategy 100 [js].

(** *** Character classes of ECMAScript *)

Definition inRange (lo hi c : Z) : bool := (lo <=? c) && (c <=? hi).

(** LineTerminator: LF, CR, LS, PS. *)
Definition isLineTerminator (c : Z) : bool :=
  (c =? 10) || (c =? 13) || (c =? 8232) || (c =? 8233).

(** WhiteSpace: TAB, VT, FF, SP, NBSP, ZWNBSP and the Zs category. *)
Definition isWhiteSpace (c : Z) : bool :=
  (c =? 9) || (c =? 11) || (c =? 12) || (c =? 32) || (c =? 160)
  || (c =? 65279) || (c =? 5760) || inRange 8192 8202 c
  || (c =? 8239) || (c =? 8287) || (c =? 12288).

(** What [String.prototype.trim] strips and what [\s] matches. *)
Definition isTrimmable (c : Z) : bool := isWhiteSpace c || isLineTerminator c.

(** *** String methods *)

Fixpoint trimStart (s : jsstring) : jsstring :=
  match s with
  | [] => []
  | c :: s' => if isTrimmable c then trimStart s' else s
  end.

Definition trimEnd (s : jsstring) : jsstring := rev (trimStart (rev s)).

(** [s.trim()] *)
Definition trim (s : jsstring) : jsstring := trimEnd (trimStart s).

Fixpoint startsWith (p s : jsstring) : bool :=
  match p, s with
  | [], _ => true
  | _ :: _, [] => false
  | a :: p', b :: s' => (a =? b) && startsWith p' s'
  end.

(** [s.includes(p)] *)
Fixpoint includes (p s : jsstring) : bool :=
  startsWith p s ||
  match s with
  | [] => false
  | _ :: s' => includes p s'
  end.

(** [s.split(sep)] for a separator of one code unit (the source splits on
    "|" and on " "); the result always has at least one segment. *)
Fixpoint split (sep : Z) (s : jsstring) : list jsstring :=
  match s with
  | [] => [[]]
  | c :: s' =>
      if c =? sep then [] :: split sep s'
      else match split sep s' with
           | seg :: segs => (c :: seg) :: segs
           | [] => [[c]]
           end
  end.

(** [parts.join(sep)] *)
Fixpoint join (sep : jsstring) (parts : list jsstring) : jsstring :=
  match parts with
  | [] => []
  | [p] => p
  | p :: rest => p ++ sep ++ join sep rest
  end.

(** [s.replace(/pat/g, rep)] for a pattern that is a non-empty literal:
    matches are taken left to right and do not overlap.  [skip] counts the
    code units of the current match that are still to be consumed. *)
Fixpoint replaceLiteral (pat rep s : jsstring) (skip : nat) : jsstring :=
  match s with
  | [] => []
  | c :: s' =>
      match skip with
      | S k => replaceLiteral pat rep s' k
      | O =>
          if startsWith pat s
          then rep ++ replaceLiteral pat rep s' (Nat.pred (List.length pat))
          else c :: replaceLiteral pat rep s' O
      end
  end.

(** [s.replace(/[class]/g, rep)]: every code unit of the class is a match
    of its own. *)
Definition replaceClass (cls : Z -> bool) (rep s : jsstring) : jsstring :=
  flat_map (fun c => if cls c then rep else [c]) s.

(** *** UTF-16

    The case conversions of ECMAScript work on code points.  A high
    surrogate followed by a low surrogate stands for one code point above
    U+FFFF; any other code unit, a lone surrogate too, stands for itself. *)

Definition isHighSurrogate (c : Z) : bool := inRange 0xD800 0xDBFF c.
Definition isLowSurrogate (c : Z) : bool := inRange 0xDC00 0xDFFF c.
Definition isSupplementary (cp : Z) : bool := inRange 0x10000 0x10FFFF cp.

(** StringToCodePoints *)
Fixpoint codePoints (s : jsstring) : list Z :=
  match s with
  | [] => []
  | h :: s' =>
      match s' with
      | l :: s'' =>
          if isHighSurrogate h && isLowSurrogate l
          then (0x10000 + (h - 0xD800) * 0x400 + (l - 0xDC00)) :: codePoints s''
          else h :: codePoints s'
      | [] => [h]
      end
  end.

(** UTF16EncodeCodePoint *)
Definition codeUnits (cp : Z) : jsstring :=
  if isSupplementary cp
  then [0xD800 + (cp - 0x10000) / 0x400; 0xDC00 + (cp - 0x10000) mod 0x400]
  else [cp].

(** CodePointsToString *)
Definition fromCodePoints (cps : list Z) : jsstring := flat_map codeUnits cps.

(** *** Case tables *)

(** The simple lowercase mappings of UnicodeData.txt (Unicode 14.0): an
    entry [(lo, hi, stride, delta)] maps the code points [lo], [lo + stride],
    ... up to [hi] to themselves plus [delta]. *)
Definition lowerTable : list (Z * Z * Z * Z) :=
  [(0x41, 0x5A, 1, 32); (0xC0, 0xD6, 1, 32); (0xD8, 0xDE, 1, 32);
   (0x100, 0x12E, 2, 1); (0x130, 0x130, 1, (-199)); (0x132, 0x136, 2, 1);
   (0x139, 0x147, 2, 1); (0x14A, 0x176, 2, 1); (0x178, 0x178, 1, (-121));
   (0x179, 0x17D, 2, 1); (0x181, 0x181, 1, 210); (0x182, 0x184, 2, 1);
   (0x186, 0x186, 1, 206); (0x187, 0x187, 1, 1); (0x189, 0x18A, 1, 205);
   (0x18B, 0x18B, 1, 1); (0x18E, 0x18E, 1, 79); (0x18F, 0x18F, 1, 202);
   (0x190, 0x190, 1, 203); (0x191, 0x191, 1, 1); (0x193, 0x193, 1, 205);
   (0x194, 0x194, 1, 207); (0x196, 0x196, 1, 211); (0x197, 0x197, 1, 209);
   (0x198, 0x198, 1, 1); (0x19C, 0x19C, 1, 211); (0x19D, 0x19D, 1, 213);
   (0x19F, 0x19F, 1, 214); (0x1A0, 0x1A4, 2, 1); (0x1A6, 0x1A6, 1, 218);
   (0x1A7, 0x1A7, 1, 1); (0x1A9, 0x1A9, 1, 218); (0x1AC, 0x1AC, 1, 1);
   (0x1AE, 0x1AE, 1, 218); (0x1AF, 0x1AF, 1, 1); (0x1B1, 0x1B2, 1, 217);
   (0x1B3, 0x1B5, 2, 1); (0x1B7, 0x1B7, 1, 219); (0x1B8, 0x1B8, 1, 1);
   (0x1BC, 0x1BC, 1, 1); (0x1C4, 0x1C4, 1, 2); (0x1C5, 0x1C5, 1, 1);
   (0x1C7, 0x1C7, 1, 2); (0x1C8, 0x1C8, 1, 1); (0x1CA, 0x1CA, 1, 2);
   (0x1CB, 0x1DB, 2, 1); (0x1DE, 0x1EE, 2, 1); (0x1F1, 0x1F1, 1, 2);
   (0x1F2, 0x1F4, 2, 1); (0x1F6, 0x1F6, 1, (-97)); (0x1F7, 0x1F7, 1, (-56));
   (0x1F8, 0x21E, 2, 1); (0x220, 0x220, 1, (-130)); (0x222, 0x232, 2, 1);
   (0x23A, 0x23A, 1, 10795); (0x23B, 0x23B, 1, 1); (0x23D, 0x23D, 1, (-163));
   (0x23E, 0x23E, 1, 10792); (0x241, 0x241, 1, 1); (0x243, 0x243, 1, (-195));
   (0x244, 0x244, 1, 69); (0x245, 0x245, 1, 71); (0x246, 0x24E, 2, 1);
   (0x370, 0x372, 2, 1); (0x376, 0x376, 1, 1); (0x37F, 0x37F, 1, 116);
   (0x386, 0x386, 1, 38); (0x388, 0x38A, 1, 37); (0x38C, 0x38C, 1, 64);
   (0x38E, 0x38F, 1, 63); (0x391, 0x3A1, 1, 32); (0x3A3, 0x3AB, 1, 32);
   (0x3CF, 0x3CF, 1, 8); (0x3D8, 0x3EE, 2, 1); (0x3F4, 0x3F4, 1, (-60));
   (0x3F7, 0x3F7, 1, 1); (0x3F9, 0x3F9, 1, (-7)); (0x3FA, 0x3FA, 1, 1);
   (0x3FD, 0x3FF, 1, (-130)); (0x400, 0x40F, 1, 80); (0x410, 0x42F, 1, 32);
   (0x460, 0x480, 2, 1); (0x48A, 0x4BE, 2, 1); (0x4C0, 0x4C0, 1, 15);
   (0x4C1, 0x4CD, 2, 1); (0x4D0, 0x52E, 2, 1); (0x531, 0x556, 1, 48);
   (0x10A0, 0x10C5, 1, 7264); (0x10C7, 0x10C7, 1, 7264);
   (0x10CD, 0x10CD, 1, 7264); (0x13A0, 0x13EF, 1, 38864);
   (0x13F0, 0x13F5, 1, 8); (0x1C90, 0x1CBA, 1, (-3008));
   (0x1CBD, 0x1CBF, 1, (-3008)); (0x1E00, 0x1E94, 2, 1);
   (0x1E9E, 0x1E9E, 1, (-7615)); (0x1EA0, 0x1EFE, 2, 1);
   (0x1F08, 0x1F0F, 1, (-8)); (0x1F18, 0x1F1D, 1, (-8));
   (0x1F28, 0x1F2F, 1, (-8)); (0x1F38, 0x1F3F, 1, (-8));
   (0x1F48, 0x1F4D, 1, (-8)); (0x1F59, 0x1F5F, 2, (-8));
   (0x1F68, 0x1F6F, 1, (-8)); (0x1F88, 0x1F8F, 1, (-8));
   (0x1F98, 0x1F9F, 1, (-8)); (0x1FA8, 0x1FAF, 1, (-8));
   (0x1FB8, 0x1FB9, 1, (-8)); (0x1FBA, 0x1FBB, 1, (-74));
   (0x1FBC, 0x1FBC, 1, (-9)); (0x1FC8, 0x1FCB, 1, (-86));
   (0x1FCC, 0x1FCC, 1, (-9)); (0x1FD8, 0x1FD9, 1, (-8));
   (0x1FDA, 0x1FDB, 1, (-100)); (0x1FE8, 0x1FE9, 1, (-8));
   (0x1FEA, 0x1FEB, 1, (-112)); (0x1FEC, 0x1FEC, 1, (-7));
   (0x1FF8, 0x1FF9, 1, (-128)); (0x1FFA, 0x1FFB, 1, (-126));
   (0x1FFC, 0x1FFC, 1, (-9)); (0x2126, 0x2126, 1, (-7517));
   (0x212A, 0x212A, 1, (-8383)); (0x212B, 0x212B, 1, (-8262));
   (0x2132, 0x2132, 1, 28); (0x2160, 0x216F, 1, 16); (0x2183, 0x2183, 1, 1);
   (0x24B6, 0x24CF, 1, 26); (0x2C00, 0x2C2F, 1, 48); (0x2C60, 0x2C60, 1, 1);
   (0x2C62, 0x2C62, 1, (-10743)); (0x2C63, 0x2C63, 1, (-3814));
   (0x2C64, 0x2C64, 1, (-10727)); (0x2C67, 0x2C6B, 2, 1);
   (0x2C6D, 0x2C6D, 1, (-10780)); (0x2C6E, 0x2C6E, 1, (-10749));
   (0x2C6F, 0x2C6F, 1, (-10783)); (0x2C70, 0x2C70, 1, (-10782));
   (0x2C72, 0x2C72, 1, 1); (0x2C75, 0x2C75, 1, 1);
   (0x2C7E, 0x2C7F, 1, (-10815)); (0x2C80, 0x2CE2, 2, 1);
   (0x2CEB, 0x2CED, 2, 1); (0x2CF2, 0x2CF2, 1, 1); (0xA640, 0xA66C, 2, 1);
   (0xA680, 0xA69A, 2, 1); (0xA722, 0xA72E, 2, 1); (0xA732, 0xA76E, 2, 1);
   (0xA779, 0xA77B, 2, 1); (0xA77D, 0xA77D, 1, (-35332));
   (0xA77E, 0xA786, 2, 1); (0xA78B, 0xA78B, 1, 1);
   (0xA78D, 0xA78D, 1, (-42280)); (0xA790, 0xA792, 2, 1);
   (0xA796, 0xA7A8, 2, 1); (0xA7AA, 0xA7AA, 1, (-42308));
   (0xA7AB, 0xA7AB, 1, (-42319)); (0xA7AC, 0xA7AC, 1, (-42315));
   (0xA7AD, 0xA7AD, 1, (-42305)); (0xA7AE, 0xA7AE, 1, (-42308));
   (0xA7B0, 0xA7B0, 1, (-42258)); (0xA7B1, 0xA7B1, 1, (-42282));
   (0xA7B2, 0xA7B2, 1, (-42261)); (0xA7B3, 0xA7B3, 1, 928);
   (0xA7B4, 0xA7C2, 2, 1); (0xA7C4, 0xA7C4, 1, (-48));
   (0xA7C5, 0xA7C5, 1, (-42307)); (0xA7C6, 0xA7C6, 1, (-35384));
   (0xA7C7, 0xA7C9, 2, 1); (0xA7D0, 0xA7D0, 1, 1); (0xA7D6, 0xA7D8, 2, 1);
   (0xA7F5, 0xA7F5, 1, 1); (0xFF21, 0xFF3A, 1, 32);
   (0x10400, 0x10427, 1, 40); (0x104B0, 0x104D3, 1, 40);
   (0x10570, 0x1057A, 1, 39); (0x1057C, 0x1058A, 1, 39);
   (0x1058C, 0x10592, 1, 39); (0x10594, 0x10595, 1, 39);
   (0x10C80, 0x10CB2, 1, 64); (0x118A0, 0x118BF, 1, 32);
   (0x16E40, 0x16E5F, 1, 32); (0x1E900, 0x1E921, 1, 34)].

(** The code points with the property Cased (DerivedCoreProperties.txt), as
    ranges. *)
Definition casedTable : list (Z * Z) :=
  [(0x41, 0x5A); (0x61, 0x7A); (0xAA, 0xAA); (0xB5, 0xB5); (0xBA, 0xBA);
   (0xC0, 0xD6); (0xD8, 0xF6); (0xF8, 0x1BA); (0x1BC, 0x1BF); (0x1C4, 0x293);
   (0x295, 0x2B8); (0x2C0, 0x2C1); (0x2E0, 0x2E4); (0x345, 0x345);
   (0x370, 0x373); (0x376, 0x377); (0x37A, 0x37D); (0x37F, 0x37F);
   (0x386, 0x386); (0x388, 0x38A); (0x38C, 0x38C); (0x38E, 0x3A1);
   (0x3A3, 0x3F5); (0x3F7, 0x481); (0x48A, 0x52F); (0x531, 0x556);
   (0x560, 0x588); (0x10A0, 0x10C5); (0x10C7, 0x10C7); (0x10CD, 0x10CD);
   (0x10D0, 0x10FA); (0x10FD, 0x10FF); (0x13A0, 0x13F5); (0x13F8, 0x13FD);
   (0x1C80, 0x1C88); (0x1C90, 0x1CBA); (0x1CBD, 0x1CBF); (0x1D00, 0x1DBF);
   (0x1E00, 0x1F15); (0x1F18, 0x1F1D); (0x1F20, 0x1F45); (0x1F48, 0x1F4D);
   (0x1F50, 0x1F57); (0x1F59, 0x1F59); (0x1F5B, 0x1F5B); (0x1F5D, 0x1F5D);
   (0x1F5F, 0x1F7D); (0x1F80, 0x1FB4); (0x1FB6, 0x1FBC); (0x1FBE, 0x1FBE);
   (0x1FC2, 0x1FC4); (0x1FC6, 0x1FCC); (0x1FD0, 0x1FD3); (0x1FD6, 0x1FDB);
   (0x1FE0, 0x1FEC); (0x1FF2, 0x1FF4); (0x1FF6, 0x1FFC); (0x2071, 0x2071);
   (0x207F, 0x207F); (0x2090, 0x209C); (0x2102, 0x2102); (0x2107, 0x2107);
   (0x210A, 0x2113); (0x2115, 0x2115); (0x2119, 0x211D); (0x2124, 0x2124);
   (0x2126, 0x2126); (0x2128, 0x2128); (0x212A, 0x212D); (0x212F, 0x2134);
   (0x2139, 0x2139); (0x213C, 0x213F); (0x2145, 0x2149); (0x214E, 0x214E);
   (0x2160, 0x217F); (0x2183, 0x2184); (0x24B6, 0x24E9); (0x2C00, 0x2CE4);
   (0x2CEB, 0x2CEE); (0x2CF2, 0x2CF3); (0x2D00, 0x2D25); (0x2D27, 0x2D27);
   (0x2D2D, 0x2D2D); (0xA640, 0xA66D); (0xA680, 0xA69D); (0xA722, 0xA787);
   (0xA78B, 0xA78E); (0xA790, 0xA7CA); (0xA7D0, 0xA7D1); (0xA7D3, 0xA7D3);
   (0xA7D5, 0xA7D9); (0xA7F5, 0xA7F6); (0xA7F8, 0xA7FA); (0xAB30, 0xAB5A);
   (0xAB5C, 0xAB68); (0xAB70, 0xABBF); (0xFB00, 0xFB06); (0xFB13, 0xFB17);
   (0xFF21, 0xFF3A); (0xFF41, 0xFF5A); (0x10400, 0x1044F);
   (0x104B0, 0x104D3); (0x104D8, 0x104FB); (0x10570, 0x1057A);
   (0x1057C, 0x1058A); (0x1058C, 0x10592); (0x10594, 0x10595);
   (0x10597, 0x105A1); (0x105A3, 0x105B1); (0x105B3, 0x105B9);
   (0x105BB, 0x105BC); (0x10780, 0x10780); (0x10783, 0x10785);
   (0x10787, 0x107B0); (0x107B2, 0x107BA); (0x10C80, 0x10CB2);
   (0x10CC0, 0x10CF2); (0x118A0, 0x118DF); (0x16E40, 0x16E7F);
   (0x1D400, 0x1D454); (0x1D456, 0x1D49C); (0x1D49E, 0x1D49F);
   (0x1D4A2, 0x1D4A2); (0x1D4A5, 0x1D4A6); (0x1D4A9, 0x1D4AC);
   (0x1D4AE, 0x1D4B9); (0x1D4BB, 0x1D4BB); (0x1D4BD, 0x1D4C3);
   (0x1D4C5, 0x1D505); (0x1D507, 0x1D50A); (0x1D50D, 0x1D514);
   (0x1D516, 0x1D51C); (0x1D51E, 0x1D539); (0x1D53B, 0x1D53E);
   (0x1D540, 0x1D544); (0x1D546, 0x1D546); (0x1D54A, 0x1D550);
   (0x1D552, 0x1D6A5); (0x1D6A8, 0x1D6C0); (0x1D6C2, 0x1D6DA);
   (0x1D6DC, 0x1D6FA); (0x1D6FC, 0x1D714); (0x1D716, 0x1D734);
   (0x1D736, 0x1D74E); (0x1D750, 0x1D76E); (0x1D770, 0x1D788);
   (0x1D78A, 0x1D7A8); (0x1D7AA, 0x1D7C2); (0x1D7C4, 0x1D7CB);
   (0x1DF00, 0x1DF09); (0x1DF0B, 0x1DF1E); (0x1E900, 0x1E943);
   (0x1F130, 0x1F149); (0x1F150, 0x1F169); (0x1F170, 0x1F189)].

(** The code points with the property Case_Ignorable, as ranges. *)
Definition caseIgnorableTable : list (Z * Z) :=
  [(0x27, 0x27); (0x2E, 0x2E); (0x3A, 0x3A); (0x5E, 0x5E); (0x60, 0x60);
   (0xA8, 0xA8); (0xAD, 0xAD); (0xAF, 0xAF); (0xB4, 0xB4); (0xB7, 0xB8);
   (0x2B0, 0x36F); (0x374, 0x375); (0x37A, 0x37A); (0x384, 0x385);
   (0x387, 0x387); (0x483, 0x489); (0x559, 0x559); (0x55F, 0x55F);
   (0x591, 0x5BD); (0x5BF, 0x5BF); (0x5C1, 0x5C2); (0x5C4, 0x5C5);
   (0x5C7, 0x5C7); (0x5F4, 0x5F4); (0x600, 0x605); (0x610, 0x61A);
   (0x61C, 0x61C); (0x640, 0x640); (0x64B, 0x65F); (0x670, 0x670);
   (0x6D6, 0x6DD); (0x6DF, 0x6E8); (0x6EA, 0x6ED); (0x70F, 0x70F);
   (0x711, 0x711); (0x730, 0x74A); (0x7A6, 0x7B0); (0x7EB, 0x7F5);
   (0x7FA, 0x7FA); (0x7FD, 0x7FD); (0x816, 0x82D); (0x859, 0x85B);
   (0x888, 0x888); (0x890, 0x891); (0x898, 0x89F); (0x8C9, 0x902);
   (0x93A, 0x93A); (0x93C, 0x93C); (0x941, 0x948); (0x94D, 0x94D);
   (0x951, 0x957); (0x962, 0x963); (0x971, 0x971); (0x981, 0x981);
   (0x9BC, 0x9BC); (0x9C1, 0x9C4); (0x9CD, 0x9CD); (0x9E2, 0x9E3);
   (0x9FE, 0x9FE); (0xA01, 0xA02); (0xA3C, 0xA3C); (0xA41, 0xA42);
   (0xA47, 0xA48); (0xA4B, 0xA4D); (0xA51, 0xA51); (0xA70, 0xA71);
   (0xA75, 0xA75); (0xA81, 0xA82); (0xABC, 0xABC); (0xAC1, 0xAC5);
   (0xAC7, 0xAC8); (0xACD, 0xACD); (0xAE2, 0xAE3); (0xAFA, 0xAFF);
   (0xB01, 0xB01); (0xB3C, 0xB3C); (0xB3F, 0xB3F); (0xB41, 0xB44);
   (0xB4D, 0xB4D); (0xB55, 0xB56); (0xB62, 0xB63); (0xB82, 0xB82);
   (0xBC0, 0xBC0); (0xBCD, 0xBCD); (0xC00, 0xC00); (0xC04, 0xC04);
   (0xC3C, 0xC3C); (0xC3E, 0xC40); (0xC46, 0xC48); (0xC4A, 0xC4D);
   (0xC55, 0xC56); (0xC62, 0xC63); (0xC81, 0xC81); (0xCBC, 0xCBC);
   (0xCBF, 0xCBF); (0xCC6, 0xCC6); (0xCCC, 0xCCD); (0xCE2, 0xCE3);
   (0xD00, 0xD01); (0xD3B, 0xD3C); (0xD41, 0xD44); (0xD4D, 0xD4D);
   (0xD62, 0xD63); (0xD81, 0xD81); (0xDCA, 0xDCA); (0xDD2, 0xDD4);
   (0xDD6, 0xDD6); (0xE31, 0xE31); (0xE34, 0xE3A); (0xE46, 0xE4E);
   (0xEB1, 0xEB1); (0xEB4, 0xEBC); (0xEC6, 0xEC6); (0xEC8, 0xECD);
   (0xF18, 0xF19); (0xF35, 0xF35); (0xF37, 0xF37); (0xF39, 0xF39);
   (0xF71, 0xF7E); (0xF80, 0xF84); (0xF86, 0xF87); (0xF8D, 0xF97);
   (0xF99, 0xFBC); (0xFC6, 0xFC6); (0x102D, 0x1030); (0x1032, 0x1037);
   (0x1039, 0x103A); (0x103D, 0x103E); (0x1058, 0x1059); (0x105E, 0x1060);
   (0x1071, 0x1074); (0x1082, 0x1082); (0x1085, 0x1086); (0x108D, 0x108D);
   (0x109D, 0x109D); (0x10FC, 0x10FC); (0x135D, 0x135F); (0x1712, 0x1714);
   (0x1732, 0x1733); (0x1752, 0x1753); (0x1772, 0x1773); (0x17B4, 0x17B5);
   (0x17B7, 0x17BD); (0x17C6, 0x17C6); (0x17C9, 0x17D3); (0x17D7, 0x17D7);
   (0x17DD, 0x17DD); (0x180B, 0x180F); (0x1843, 0x1843); (0x1885, 0x1886);
   (0x18A9, 0x18A9); (0x1920, 0x1922); (0x1927, 0x1928); (0x1932, 0x1932);
   (0x1939, 0x193B); (0x1A17, 0x1A18); (0x1A1B, 0x1A1B); (0x1A56, 0x1A56);
   (0x1A58, 0x1A5E); (0x1A60, 0x1A60); (0x1A62, 0x1A62); (0x1A65, 0x1A6C);
   (0x1A73, 0x1A7C); (0x1A7F, 0x1A7F); (0x1AA7, 0x1AA7); (0x1AB0, 0x1ACE);
   (0x1B00, 0x1B03); (0x1B34, 0x1B34); (0x1B36, 0x1B3A); (0x1B3C, 0x1B3C);
   (0x1B42, 0x1B42); (0x1B6B, 0x1B73); (0x1B80, 0x1B81); (0x1BA2, 0x1BA5);
   (0x1BA8, 0x1BA9); (0x1BAB, 0x1BAD); (0x1BE6, 0x1BE6); (0x1BE8, 0x1BE9);
   (0x1BED, 0x1BED); (0x1BEF, 0x1BF1); (0x1C2C, 0x1C33); (0x1C36, 0x1C37);
   (0x1C78, 0x1C7D); (0x1CD0, 0x1CD2); (0x1CD4, 0x1CE0); (0x1CE2, 0x1CE8);
   (0x1CED, 0x1CED); (0x1CF4, 0x1CF4); (0x1CF8, 0x1CF9); (0x1D2C, 0x1D6A);
   (0x1D78, 0x1D78); (0x1D9B, 0x1DFF); (0x1FBD, 0x1FBD); (0x1FBF, 0x1FC1);
   (0x1FCD, 0x1FCF); (0x1FDD, 0x1FDF); (0x1FED, 0x1FEF); (0x1FFD, 0x1FFE);
   (0x200B, 0x200F); (0x2018, 0x2019); (0x2024, 0x2024); (0x2027, 0x2027);
   (0x202A, 0x202E); (0x2060, 0x2064); (0x2066, 0x206F); (0x2071, 0x2071);
   (0x207F, 0x207F); (0x2090, 0x209C); (0x20D0, 0x20F0); (0x2C7C, 0x2C7D);
   (0x2CEF, 0x2CF1); (0x2D6F, 0x2D6F); (0x2D7F, 0x2D7F); (0x2DE0, 0x2DFF);
   (0x2E2F, 0x2E2F); (0x3005, 0x3005); (0x302A, 0x302D); (0x3031, 0x3035);
   (0x303B, 0x303B); (0x3099, 0x309E); (0x30FC, 0x30FE); (0xA015, 0xA015);
   (0xA4F8, 0xA4FD); (0xA60C, 0xA60C); (0xA66F, 0xA672); (0xA674, 0xA67D);
   (0xA67F, 0xA67F); (0xA69C, 0xA69F); (0xA6F0, 0xA6F1); (0xA700, 0xA721);
   (0xA770, 0xA770); (0xA788, 0xA78A); (0xA7F2, 0xA7F4); (0xA7F8, 0xA7F9);
   (0xA802, 0xA802); (0xA806, 0xA806); (0xA80B, 0xA80B); (0xA825, 0xA826);
   (0xA82C, 0xA82C); (0xA8C4, 0xA8C5); (0xA8E0, 0xA8F1); (0xA8FF, 0xA8FF);
   (0xA926, 0xA92D); (0xA947, 0xA951); (0xA980, 0xA982); (0xA9B3, 0xA9B3);
   (0xA9B6, 0xA9B9); (0xA9BC, 0xA9BD); (0xA9CF, 0xA9CF); (0xA9E5, 0xA9E6);
   (0xAA29, 0xAA2E); (0xAA31, 0xAA32); (0xAA35, 0xAA36); (0xAA43, 0xAA43);
   (0xAA4C, 0xAA4C); (0xAA70, 0xAA70); (0xAA7C, 0xAA7C); (0xAAB0, 0xAAB0);
   (0xAAB2, 0xAAB4); (0xAAB7, 0xAAB8); (0xAABE, 0xAABF); (0xAAC1, 0xAAC1);
   (0xAADD, 0xAADD); (0xAAEC, 0xAAED); (0xAAF3, 0xAAF4); (0xAAF6, 0xAAF6);
   (0xAB5B, 0xAB5F); (0xAB69, 0xAB6B); (0xABE5, 0xABE5); (0xABE8, 0xABE8);
   (0xABED, 0xABED); (0xFB1E, 0xFB1E); (0xFBB2, 0xFBC2); (0xFE00, 0xFE0F);
   (0xFE13, 0xFE13); (0xFE20, 0xFE2F); (0xFE52, 0xFE52); (0xFE55, 0xFE55);
   (0xFEFF, 0xFEFF); (0xFF07, 0xFF07); (0xFF0E, 0xFF0E); (0xFF1A, 0xFF1A);
   (0xFF3E, 0xFF3E); (0xFF40, 0xFF40); (0xFF70, 0xFF70); (0xFF9E, 0xFF9F);
   (0xFFE3, 0xFFE3); (0xFFF9, 0xFFFB); (0x101FD, 0x101FD);
   (0x102E0, 0x102E0); (0x10376, 0x1037A); (0x10780, 0x10785);
   (0x10787, 0x107B0); (0x107B2, 0x107BA); (0x10A01, 0x10A03);
   (0x10A05, 0x10A06); (0x10A0C, 0x10A0F); (0x10A38, 0x10A3A);
   (0x10A3F, 0x10A3F); (0x10AE5, 0x10AE6); (0x10D24, 0x10D27);
   (0x10EAB, 0x10EAC); (0x10F46, 0x10F50); (0x10F82, 0x10F85);
   (0x11001, 0x11001); (0x11038, 0x11046); (0x11070, 0x11070);
   (0x11073, 0x11074); (0x1107F, 0x11081); (0x110B3, 0x110B6);
   (0x110B9, 0x110BA); (0x110BD, 0x110BD); (0x110C2, 0x110C2);
   (0x110CD, 0x110CD); (0x11100, 0x11102); (0x11127, 0x1112B);
   (0x1112D, 0x11134); (0x11173, 0x11173); (0x11180, 0x11181);
   (0x111B6, 0x111BE); (0x111C9, 0x111CC); (0x111CF, 0x111CF);
   (0x1122F, 0x11231); (0x11234, 0x11234); (0x11236, 0x11237);
   (0x1123E, 0x1123E); (0x112DF, 0x112DF); (0x112E3, 0x112EA);
   (0x11300, 0x11301); (0x1133B, 0x1133C); (0x11340, 0x11340);
   (0x11366, 0x1136C); (0x11370, 0x11374); (0x11438, 0x1143F);
   (0x11442, 0x11444); (0x11446, 0x11446); (0x1145E, 0x1145E);
   (0x114B3, 0x114B8); (0x114BA, 0x114BA); (0x114BF, 0x114C0);
   (0x114C2, 0x114C3); (0x115B2, 0x115B5); (0x115BC, 0x115BD);
   (0x115BF, 0x115C0); (0x115DC, 0x115DD); (0x11633, 0x1163A);
   (0x1163D, 0x1163D); (0x1163F, 0x11640); (0x116AB, 0x116AB);
   (0x116AD, 0x116AD); (0x116B0, 0x116B5); (0x116B7, 0x116B7);
   (0x1171D, 0x1171F); (0x11722, 0x11725); (0x11727, 0x1172B);
   (0x1182F, 0x11837); (0x11839, 0x1183A); (0x1193B, 0x1193C);
   (0x1193E, 0x1193E); (0x11943, 0x11943); (0x119D4, 0x119D7);
   (0x119DA, 0x119DB); (0x119E0, 0x119E0); (0x11A01, 0x11A0A);
   (0x11A33, 0x11A38); (0x11A3B, 0x11A3E); (0x11A47, 0x11A47);
   (0x11A51, 0x11A56); (0x11A59, 0x11A5B); (0x11A8A, 0x11A96);
   (0x11A98, 0x11A99); (0x11C30, 0x11C36); (0x11C38, 0x11C3D);
   (0x11C3F, 0x11C3F); (0x11C92, 0x11CA7); (0x11CAA, 0x11CB0);
   (0x11CB2, 0x11CB3); (0x11CB5, 0x11CB6); (0x11D31, 0x11D36);
   (0x11D3A, 0x11D3A); (0x11D3C, 0x11D3D); (0x11D3F, 0x11D45);
   (0x11D47, 0x11D47); (0x11D90, 0x11D91); (0x11D95, 0x11D95);
   (0x11D97, 0x11D97); (0x11EF3, 0x11EF4); (0x13430, 0x13438);
   (0x16AF0, 0x16AF4); (0x16B30, 0x16B36); (0x16B40, 0x16B43);
   (0x16F4F, 0x16F4F); (0x16F8F, 0x16F9F); (0x16FE0, 0x16FE1);
   (0x16FE3, 0x16FE4); (0x1AFF0, 0x1AFF3); (0x1AFF5, 0x1AFFB);
   (0x1AFFD, 0x1AFFE); (0x1BC9D, 0x1BC9E); (0x1BCA0, 0x1BCA3);
   (0x1CF00, 0x1CF2D); (0x1CF30, 0x1CF46); (0x1D167, 0x1D169);
   (0x1D173, 0x1D182); (0x1D185, 0x1D18B); (0x1D1AA, 0x1D1AD);
   (0x1D242, 0x1D244); (0x1DA00, 0x1DA36); (0x1DA3B, 0x1DA6C);
   (0x1DA75, 0x1DA75); (0x1DA84, 0x1DA84); (0x1DA9B, 0x1DA9F);
   (0x1DAA1, 0x1DAAF); (0x1E000, 0x1E006); (0x1E008, 0x1E018);
   (0x1E01B, 0x1E021); (0x1E023, 0x1E024); (0x1E026, 0x1E02A);
   (0x1E130, 0x1E13D); (0x1E2AE, 0x1E2AE); (0x1E2EC, 0x1E2EF);
   (0x1E8D0, 0x1E8D6); (0x1E944, 0x1E94B); (0x1F3FB, 0x1F3FF);
   (0xE0001, 0xE0001); (0xE0020, 0xE007F); (0xE0100, 0xE01EF)].

Definition inEntry (e : Z * Z * Z * Z) (c : Z) : bool :=
  let '(lo, hi, stride, _) := e in
  (lo <=? c) && (c <=? hi) && ((c - lo) mod stride =? 0).

Definition mapByTable (table : list (Z * Z * Z * Z)) (c : Z) : Z :=
  match find (fun e => inEntry e c) table with
  | Some (_, _, _, delta) => c + delta
  | None => c
  end.

Definition inRanges (table : list (Z * Z)) (c : Z) : bool :=
  existsb (fun r => inRange (fst r) (snd r) c) table.

(** The simple lowercase mapping of a code point. *)
Definition simpleLower (cp : Z) : Z := mapByTable lowerTable cp.

Definition isCased (cp : Z) : bool := inRanges casedTable cp.
Definition isCaseIgnorable (cp : Z) : bool := inRanges caseIgnorableTable cp.

(** Whether a cased letter comes first in [cps] once the case-ignorable
    code points in front of it are skipped. *)
Fixpoint casedLetterNext (cps : list Z) : bool :=
  match cps with
  | [] => false
  | c :: rest => if isCaseIgnorable c then casedLetterNext rest else isCased c
  end.

(** The condition Final_Sigma of SpecialCasing.txt: a cased letter before,
    none after.  [before] holds the code points in front, nearest first. *)
Definition finalSigma (before after : list Z) : bool :=
  casedLetterNext before && negb (casedLetterNext after).

(** The lowercase form of the code point [c] in its context: the two
    unconditional rules of SpecialCasing.txt (capital sigma, and capital I
    with dot above, which becomes two code points), else the simple
    mapping. *)
Definition lowerPoint (before : list Z) (c : Z) (after : list Z) : list Z :=
  if c =? 0x3A3 then [if finalSigma before after then 0x3C2 else 0x3C3]
  else if c =? 0x130 then [0x69; 0x307]
  else [simpleLower c].

Fixpoint lowerPoints (before cps : list Z) : list Z :=
  match cps with
  | [] => []
  | c :: rest => lowerPoint before c rest ++ lowerPoints (c :: before) rest
  end.

(** [s.toLowerCase()]: the default case conversion of Unicode (toLowercase),
    applied to the code points of the string. *)
Definition toLowerCase (s : jsstring) : jsstring :=
  fromCodePoints (lowerPoints [] (codePoints s)).

(** ** The text normalizer (PodcastPlayer.tsx, [normalizeArabic]) *)

Definition inClass (chars : jsstring) (c : Z) : bool := existsb (Z.eqb c) chars.

(** The class [\u064B-\u065F]. *)
Definition isDiacritic (c : Z) : bool := inRange 1611 1631 c.

Definition normalizeArabic (text : jsstring) : jsstring :=
  toLowerCase
    (replaceClass isDiacritic []
       (replaceClass (inClass (js "ى")) (js "ي")
          (replaceClass (inClass (js "ة")) (js "ه")
             (replaceClass (inClass (js "أإآ")) (js "ا") text)))).

(** ** Arrays *)

(** [parts.findIndex(pred)]: the first index whose element satisfies
    [pred], or [-1]. *)
Fixpoint findIndexFrom {A} (pred : A -> bool) (l : list A) (i : Z) : Z :=
  match l with
  | [] => -1
  | x :: l' => if pred x then i else findIndexFrom pred l' (i + 1)
  end.

Definition findIndex {A} (pred : A -> bool) (l : list A) : Z :=
  findIndexFrom pred l 0.

(** [parts.filter((_, i) => keep(i))] *)
Fixpoint filterIndexFrom {A} (keep : Z -> bool) (l : list A) (i : Z) : list A :=
  match l with
  | [] => []
  | x :: l' =>
      if keep i then x :: filterIndexFrom keep l' (i + 1)
      else filterIndexFrom keep l' (i + 1)
  end.

Definition filterIndex {A} (keep : Z -> bool) (l : list A) : list A :=
  filterIndexFrom keep l 0.

(** [parts[i]] on an array of strings.  An index out of range reads
    [undefined]; the source indexes only under an [!== -1] guard and at [0]
    under [parts.length > 0], so the default is never observed there. *)
Definition at_ (parts : list jsstring) (i : Z) : jsstring :=
  if i <? 0 then [] else nth (Z.to_nat i) parts [].

(** [parts.slice(1)] *)
Definition slice1 {A} (l : list A) : list A := tl l.

(** ** The title parser (getPodcastEpisodes, lines 38-72) *)

Definition ARABIC_MARKER : jsstring := js "سورة".
Definition ENGLISH_MARKER : jsstring := js "surah".
Definition UNKNOWN_ARABIC : jsstring := js "القارئ غير معروف".
Definition UNKNOWN_ENGLISH : jsstring := js "Unknown".
Definition SENTINEL : jsstring := js "تلاوات عامة".

(** [fullTitle.replace(/ - /g, " | ").split("|").map((s) => s.trim())] *)
Definition splitTitle (fullTitle : jsstring) : list jsstring :=
  map trim (split 124 (replaceLiteral (js " - ") (js " | ") fullTitle O)).

Definition hasArabicMarker (p : jsstring) : bool := includes ARABIC_MARKER p.

Definition hasEnglishMarker (p : jsstring) : bool :=
  includes ENGLISH_MARKER (toLowerCase p).

(** The two locals the parser assigns. *)
Record Labels := mkLabels { surah : jsstring; reciter : jsstring }.

(** Lines 45-63: marker search and the reciter join. *)
Definition markerLabels (parts : list jsstring) : Labels :=
  let surah0 : jsstring := [] in
  let arabicSurahIndex := findIndex hasArabicMarker parts in
  let surah1 :=
    if negb (arabicSurahIndex =? -1) then at_ parts arabicSurahIndex
    else surah0 in
  let englishSurahIndex := findIndex hasEnglishMarker parts in
  let surah2 :=
    if isEmpty surah1 && negb (englishSurahIndex =? -1)
    then at_ parts englishSurahIndex
    else surah1 in
  let reciterParts :=
    filterIndex
      (fun i => negb (i =? arabicSurahIndex) && negb (i =? englishSurahIndex))
      parts in
  mkLabels surah2 (trim (join (js " ") reciterParts)).

(** Lines 65-68: the fallback when no chapter label was found. *)
Definition fallbackLabels (parts : list jsstring) (l : Labels) : Labels :=
  if isEmpty (surah l) && (0 <? Z.of_nat (List.length parts))
  then mkLabels (at_ parts 0) (join (js " ") (slice1 parts))
  else l.

(** Lines 70-72: the sentinel for a missing or unknown reciter. *)
Definition sentinelReciter (r : jsstring) : jsstring :=
  if isEmpty r || eqb_str r UNKNOWN_ARABIC || eqb_str r UNKNOWN_ENGLISH
  then SENTINEL
  else r.

Definition sentinelLabels (l : Labels) : Labels :=
  mkLabels (surah l) (sentinelReciter (reciter l)).

(** The labels before the sentinel substitution, and the final ones. *)
Definition rawLabels (fullTitle : jsstring) : Labels :=
  let parts := splitTitle fullTitle in
  fallbackLabels parts (markerLabels parts).

Definition parseTitle (fullTitle : jsstring) : Labels :=
  sentinelLabels (rawLabels fullTitle).

(** ** Regular expressions

    The patterns of the source are sequences of literals and lazy stars
    over a character class, with at most one capturing group, which wraps a
    lazy star.  Matching backtracks as ECMAScript does: a lazy star first
    tries the rest of the pattern and takes one more code unit only when
    the rest fails. *)

Inductive atom :=
| Lit (s : jsstring)                     (* the characters of [s] *)
| LitI (s : jsstring)                    (* the same under the [i] flag *)
| Star (capture : bool) (cls : Z -> bool). (* [cls*?], or [(cls*?)] *)

Definition regex := list atom.

(** [.]: everything but a line terminator.  [[\s\S]]: everything. *)
Definition dot (c : Z) : bool := negb (isLineTerminator c).
Definition anyUnit (c : Z) : bool := true.

(** The BMP code units whose uppercase form is another single code unit,
    ASCII results for non-ASCII units left out: what Canonicalize of the [i]
    flag changes.  Entries as in [lowerTable]. *)
Definition canonicalizeTable : list (Z * Z * Z * Z) :=
  [(0x61, 0x7A, 1, (-32)); (0xB5, 0xB5, 1, 743); (0xE0, 0xF6, 1, (-32));
   (0xF8, 0xFE, 1, (-32)); (0xFF, 0xFF, 1, 121); (0x101, 0x12F, 2, (-1));
   (0x133, 0x137, 2, (-1)); (0x13A, 0x148, 2, (-1)); (0x14B, 0x177, 2, (-1));
   (0x17A, 0x17E, 2, (-1)); (0x180, 0x180, 1, 195); (0x183, 0x185, 2, (-1));
   (0x188, 0x188, 1, (-1)); (0x18C, 0x18C, 1, (-1)); (0x192, 0x192, 1, (-1));
   (0x195, 0x195, 1, 97); (0x199, 0x199, 1, (-1)); (0x19A, 0x19A, 1, 163);
   (0x19E, 0x19E, 1, 130); (0x1A1, 0x1A5, 2, (-1)); (0x1A8, 0x1A8, 1, (-1));
   (0x1AD, 0x1AD, 1, (-1)); (0x1B0, 0x1B0, 1, (-1)); (0x1B4, 0x1B6, 2, (-1));
   (0x1B9, 0x1B9, 1, (-1)); (0x1BD, 0x1BD, 1, (-1)); (0x1BF, 0x1BF, 1, 56);
   (0x1C5, 0x1C5, 1, (-1)); (0x1C6, 0x1C6, 1, (-2)); (0x1C8, 0x1C8, 1, (-1));
   (0x1C9, 0x1C9, 1, (-2)); (0x1CB, 0x1CB, 1, (-1)); (0x1CC, 0x1CC, 1, (-2));
   (0x1CE, 0x1DC, 2, (-1)); (0x1DD, 0x1DD, 1, (-79));
   (0x1DF, 0x1EF, 2, (-1)); (0x1F2, 0x1F2, 1, (-1)); (0x1F3, 0x1F3, 1, (-2));
   (0x1F5, 0x1F5, 1, (-1)); (0x1F9, 0x21F, 2, (-1)); (0x223, 0x233, 2, (-1));
   (0x23C, 0x23C, 1, (-1)); (0x23F, 0x240, 1, 10815);
   (0x242, 0x242, 1, (-1)); (0x247, 0x24F, 2, (-1));
   (0x250, 0x250, 1, 10783); (0x251, 0x251, 1, 10780);
   (0x252, 0x252, 1, 10782); (0x253, 0x253, 1, (-210));
   (0x254, 0x254, 1, (-206)); (0x256, 0x257, 1, (-205));
   (0x259, 0x259, 1, (-202)); (0x25B, 0x25B, 1, (-203));
   (0x25C, 0x25C, 1, 42319); (0x260, 0x260, 1, (-205));
   (0x261, 0x261, 1, 42315); (0x263, 0x263, 1, (-207));
   (0x265, 0x265, 1, 42280); (0x266, 0x266, 1, 42308);
   (0x268, 0x268, 1, (-209)); (0x269, 0x269, 1, (-211));
   (0x26A, 0x26A, 1, 42308); (0x26B, 0x26B, 1, 10743);
   (0x26C, 0x26C, 1, 42305); (0x26F, 0x26F, 1, (-211));
   (0x271, 0x271, 1, 10749); (0x272, 0x272, 1, (-213));
   (0x275, 0x275, 1, (-214)); (0x27D, 0x27D, 1, 10727);
   (0x280, 0x280, 1, (-218)); (0x282, 0x282, 1, 42307);
   (0x283, 0x283, 1, (-218)); (0x287, 0x287, 1, 42282);
   (0x288, 0x288, 1, (-218)); (0x289, 0x289, 1, (-69));
   (0x28A, 0x28B, 1, (-217)); (0x28C, 0x28C, 1, (-71));
   (0x292, 0x292, 1, (-219)); (0x29D, 0x29D, 1, 42261);
   (0x29E, 0x29E, 1, 42258); (0x345, 0x345, 1, 84); (0x371, 0x373, 2, (-1));
   (0x377, 0x377, 1, (-1)); (0x37B, 0x37D, 1, 130); (0x3AC, 0x3AC, 1, (-38));
   (0x3AD, 0x3AF, 1, (-37)); (0x3B1, 0x3C1, 1, (-32));
   (0x3C2, 0x3C2, 1, (-31)); (0x3C3, 0x3CB, 1, (-32));
   (0x3CC, 0x3CC, 1, (-64)); (0x3CD, 0x3CE, 1, (-63));
   (0x3D0, 0x3D0, 1, (-62)); (0x3D1, 0x3D1, 1, (-57));
   (0x3D5, 0x3D5, 1, (-47)); (0x3D6, 0x3D6, 1, (-54));
   (0x3D7, 0x3D7, 1, (-8)); (0x3D9, 0x3EF, 2, (-1));
   (0x3F0, 0x3F0, 1, (-86)); (0x3F1, 0x3F1, 1, (-80)); (0x3F2, 0x3F2, 1, 7);
   (0x3F3, 0x3F3, 1, (-116)); (0x3F5, 0x3F5, 1, (-96));
   (0x3F8, 0x3F8, 1, (-1)); (0x3FB, 0x3FB, 1, (-1));
   (0x430, 0x44F, 1, (-32)); (0x450, 0x45F, 1, (-80));
   (0x461, 0x481, 2, (-1)); (0x48B, 0x4BF, 2, (-1)); (0x4C2, 0x4CE, 2, (-1));
   (0x4CF, 0x4CF, 1, (-15)); (0x4D1, 0x52F, 2, (-1));
   (0x561, 0x586, 1, (-48)); (0x10D0, 0x10FA, 1, 3008);
   (0x10FD, 0x10FF, 1, 3008); (0x13F8, 0x13FD, 1, (-8));
   (0x1C80, 0x1C80, 1, (-6254)); (0x1C81, 0x1C81, 1, (-6253));
   (0x1C82, 0x1C82, 1, (-6244)); (0x1C83, 0x1C84, 1, (-6242));
   (0x1C85, 0x1C85, 1, (-6243)); (0x1C86, 0x1C86, 1, (-6236));
   (0x1C87, 0x1C87, 1, (-6181)); (0x1C88, 0x1C88, 1, 35266);
   (0x1D79, 0x1D79, 1, 35332); (0x1D7D, 0x1D7D, 1, 3814);
   (0x1D8E, 0x1D8E, 1, 35384); (0x1E01, 0x1E95, 2, (-1));
   (0x1E9B, 0x1E9B, 1, (-59)); (0x1EA1, 0x1EFF, 2, (-1));
   (0x1F00, 0x1F07, 1, 8); (0x1F10, 0x1F15, 1, 8); (0x1F20, 0x1F27, 1, 8);
   (0x1F30, 0x1F37, 1, 8); (0x1F40, 0x1F45, 1, 8); (0x1F51, 0x1F57, 2, 8);
   (0x1F60, 0x1F67, 1, 8); (0x1F70, 0x1F71, 1, 74); (0x1F72, 0x1F75, 1, 86);
   (0x1F76, 0x1F77, 1, 100); (0x1F78, 0x1F79, 1, 128);
   (0x1F7A, 0x1F7B, 1, 112); (0x1F7C, 0x1F7D, 1, 126);
   (0x1FB0, 0x1FB1, 1, 8); (0x1FBE, 0x1FBE, 1, (-7205));
   (0x1FD0, 0x1FD1, 1, 8); (0x1FE0, 0x1FE1, 1, 8); (0x1FE5, 0x1FE5, 1, 7);
   (0x214E, 0x214E, 1, (-28)); (0x2170, 0x217F, 1, (-16));
   (0x2184, 0x2184, 1, (-1)); (0x24D0, 0x24E9, 1, (-26));
   (0x2C30, 0x2C5F, 1, (-48)); (0x2C61, 0x2C61, 1, (-1));
   (0x2C65, 0x2C65, 1, (-10795)); (0x2C66, 0x2C66, 1, (-10792));
   (0x2C68, 0x2C6C, 2, (-1)); (0x2C73, 0x2C73, 1, (-1));
   (0x2C76, 0x2C76, 1, (-1)); (0x2C81, 0x2CE3, 2, (-1));
   (0x2CEC, 0x2CEE, 2, (-1)); (0x2CF3, 0x2CF3, 1, (-1));
   (0x2D00, 0x2D25, 1, (-7264)); (0x2D27, 0x2D27, 1, (-7264));
   (0x2D2D, 0x2D2D, 1, (-7264)); (0xA641, 0xA66D, 2, (-1));
   (0xA681, 0xA69B, 2, (-1)); (0xA723, 0xA72F, 2, (-1));
   (0xA733, 0xA76F, 2, (-1)); (0xA77A, 0xA77C, 2, (-1));
   (0xA77F, 0xA787, 2, (-1)); (0xA78C, 0xA78C, 1, (-1));
   (0xA791, 0xA793, 2, (-1)); (0xA794, 0xA794, 1, 48);
   (0xA797, 0xA7A9, 2, (-1)); (0xA7B5, 0xA7C3, 2, (-1));
   (0xA7C8, 0xA7CA, 2, (-1)); (0xA7D1, 0xA7D1, 1, (-1));
   (0xA7D7, 0xA7D9, 2, (-1)); (0xA7F6, 0xA7F6, 1, (-1));
   (0xAB53, 0xAB53, 1, (-928)); (0xAB70, 0xABBF, 1, (-38864));
   (0xFF41, 0xFF5A, 1, (-32))].

(** Canonicalize of the [i] flag (not Unicode mode): the uppercase form of
    the code unit when that is one code unit, and never from non-ASCII into
    ASCII. *)
Definition canonicalize (c : Z) : Z := mapByTable canonicalizeTable c.

Fixpoint startsWithI (p s : jsstring) : bool :=
  match p, s with
  | [], _ => true
  | _ :: _, [] => false
  | a :: p', b :: s' => (canonicalize a =? canonicalize b) && startsWithI p' s'
  end.

(** Match [r] at the start of [s]: the capture and the text that follows
    the match.  [cap] is the capture recorded so far. *)
Fixpoint matchAt (r : regex) (cap s : jsstring) : option (jsstring * jsstring) :=
  match r with
  | [] => Some (cap, s)
  | Lit l :: r' =>
      if startsWith l s then matchAt r' cap (skipn (List.length l) s) else None
  | LitI l :: r' =>
      if startsWithI l s then matchAt r' cap (skipn (List.length l) s) else None
  | Star capture cls :: r' =>
      (fix star (taken s : jsstring) {struct s} :=
         match matchAt r' (if capture then rev taken else cap) s with
         | Some m => Some m
         | None =>
             match s with
             | c :: s' => if cls c then star (c :: taken) s' else None
             | [] => None
             end
         end) [] s
  end.

(** The leftmost match, as [s.match(r)], [r.test(s)] and [r.exec(s)] find
    it. *)
Fixpoint search (r : regex) (s : jsstring) : option (jsstring * jsstring) :=
  match matchAt r [] s with
  | Some m => Some m
  | None =>
      match s with
      | [] => None
      | _ :: s' => search r s'
      end
  end.

(** [s.match(r)], reduced to group 1 of the match ([null] is [None]). *)
Definition group1 (r : regex) (s : jsstring) : option jsstring :=
  option_map fst (search r s).

(** [r.test(s)] *)
Definition test (r : regex) (s : jsstring) : bool :=
  match search r s with Some _ => true | None => false end.

(** The successive group-1 values of [while ((match = r.exec(s)) !== null)]
    for a [g] regex whose matches are never empty: each search starts where
    the previous match ended.  [skip] counts the code units of the last
    match still to be passed. *)
Fixpoint execAll (r : regex) (s : jsstring) (skip : nat) : list jsstring :=
  match s with
  | [] => []
  | _ :: s' =>
      match skip with
      | S k => execAll r s' k
      | O =>
          match matchAt r [] s with
          | Some (cap, rest) =>
              cap :: execAll r s' (List.length s' - List.length rest)%nat
          | None => execAll r s' O
          end
      end
  end.

(** ** Completions: values and thrown exceptions *)

Inductive completion (A : Type) :=
| Normal (a : A)
| Throw (message : jsstring).
Arguments Normal {A} a.
Arguments Throw {A} message.

Definition bind {A B} (c : completion A) (k : A -> completion B) : completion B :=
  match c with
  | Normal a => k a
  | Throw e => Throw e
  end.

(** [try { body } catch (error) { handler }] *)
Definition tryCatch {A} (body : completion A) (handler : jsstring -> completion A)
  : completion A :=
  match body with
  | Normal a => Normal a
  | Throw e => handler e
  end.

Notation "x <- c ;; k" := (bind c (fun x => k))
  (at level 61, c at next level, right associativity).

(** ** The feed extractor (getPodcastEpisodes) *)

Module Episode.
Record t := mk {
  id : jsstring;
  title : jsstring;
  reciter : jsstring;
  surah : jsstring;
  url : jsstring;
  image : jsstring;
  duration : jsstring
}.
End Episode.

(** What [fetch] resolves to: [res.ok] and the outcome of [res.text()]. *)
Record Response := mkResponse {
  ok : bool;
  text : completion jsstring
}.

Definition quote : jsstring := [34].

Definition RSS_URL : jsstring := js "https://anchor.fm/s/c665db20/podcast/rss".

Definition itemRegex : regex :=
  [Lit (js "<item>"); Star true anyUnit; Lit (js "</item>")].
Definition imageRegex : regex :=
  [Lit (js "<itunes:image href=" ++ quote); Star true dot; Lit quote].
Definition cdataTitleRegex : regex :=
  [Lit (js "<title><![CDATA["); Star true dot; Lit (js "]]></title>")].
Definition plainTitleRegex : regex :=
  [Lit (js "<title>"); Star true dot; Lit (js "</title>")].
Definition enclosureRegex : regex :=
  [Lit (js "<enclosure url=" ++ quote); Star true dot; Lit quote].
Definition guidRegex : regex :=
  [Lit (js "<guid"); Star false dot; Lit (js ">"); Star true dot;
   Lit (js "</guid>")].
Definition durationRegex : regex :=
  [Lit (js "<itunes:duration>"); Star true dot; Lit (js "</itunes:duration>")].

(** [m ? m[1] : dflt] *)
Definition orDefault (m : option jsstring) (dflt : jsstring) : jsstring :=
  match m with Some g => g | None => dflt end.

(** [a || b] on two match results: a match is truthy, [null] is not. *)
Definition orElse (a b : option jsstring) : option jsstring :=
  match a with Some _ => a | None => b end.

(** Lines 32-36. *)
Definition fullTitleOf (content : jsstring) : jsstring :=
  orDefault (orElse (group1 cdataTitleRegex content)
                    (group1 plainTitleRegex content))
            (js "Unknown Title").

(** Lines 74-75. *)
Definition enclosureUrl (content : jsstring) : jsstring :=
  orDefault (group1 enclosureRegex content) [].

Section Extractor.

(** [Math.random().toString()]: the string the [k]-th call yields. *)
Variable randomId : nat -> jsstring.

(** The state of the loop: the array [items] and the number of calls of
    [Math.random] made so far. *)
Definition loopState := (list Episode.t * nat)%type.

(** One turn of the [while] loop (lines 30-101) on [content = match[1]]. *)
Definition loopBody (channelImage : jsstring) (st : loopState)
    (content : jsstring) : loopState :=
  let '(items, calls) := st in
  let fullTitle := fullTitleOf content in
  let labels := parseTitle fullTitle in
  let url := enclosureUrl content in
  let guidMatch := group1 guidRegex content in
  let id := orDefault guidMatch (randomId calls) in
  let calls' := match guidMatch with Some _ => calls | None => S calls end in
  let image := orDefault (group1 imageRegex content) channelImage in
  let duration := orDefault (group1 durationRegex content) (js "00:00") in
  if negb (isEmpty url)
  then (items ++ [Episode.mk id fullTitle (reciter labels) (surah labels)
                             url image duration], calls')
  else (items, calls').

(** Lines 21-104: what the [try] block does with the text of the feed. *)
Definition extractEpisodes (xmlText : jsstring) : list Episode.t :=
  let channelImage := orDefault (group1 imageRegex xmlText) [] in
  fst (fold_left (loopBody channelImage) (execAll itemRegex xmlText O)
                 ([], O)).

(** [fetch] either rejects or resolves to a response. *)
Variable fetch : jsstring -> completion Response.

Definition getPodcastEpisodes : completion (list Episode.t) :=
  tryCatch
    (res <- fetch RSS_URL ;;
     _ <- (if negb (ok res) then Throw (js "Failed to fetch RSS")
           else Normal tt) ;;
     xmlText <- text res ;;
     Normal (extractEpisodes xmlText))
    (fun error => (* console.error(error) *) Normal []).

End Extractor.

(** ** The search and filter engine (PodcastPlayer.tsx) *)

(** Arrays of episodes are objects: a variable holds a reference, and the
    store maps references to the current contents. *)
Definition ref := nat.
Definition store := list (list Episode.t).

Definition deref (h : store) (r : ref) : list Episode.t := nth r h [].

Fixpoint assign (h : store) (r : ref) (a : list Episode.t) : store :=
  match h, r with
  | [], _ => []
  | _ :: h', O => a :: h'
  | b :: h', S r' => b :: assign h' r' a
  end.

(** A new array. *)
Definition alloc (h : store) (a : list Episode.t) : store * ref :=
  (h ++ [a], List.length h).

(** [arr.filter(pred)]: a new array, [arr] untouched. *)
Definition arrayFilter (h : store) (arr : ref) (pred : Episode.t -> bool)
  : store * ref :=
  alloc h (filter pred (deref h arr)).

(** [arr.sort(compareFn)] sorts [arr] in place, stably, and returns [arr]
    itself.  [x] goes before the first [y] with [compareFn(x, y) <= 0]. *)
Fixpoint insertSorted {A} (compareFn : A -> A -> Z) (x : A) (l : list A) : list A :=
  match l with
  | [] => [x]
  | y :: l' =>
      if compareFn x y <=? 0 then x :: l
      else y :: insertSorted compareFn x l'
  end.

Definition stableSort {A} (compareFn : A -> A -> Z) (l : list A) : list A :=
  fold_right (insertSorted compareFn) [] l.

Definition arraySort (h : store) (arr : ref)
    (compareFn : Episode.t -> Episode.t -> Z) : store * ref :=
  (assign h arr (stableSort compareFn (deref h arr)), arr).

(** The class [[.*+?^${}()|[\]\\]] of line 80, and the replacement of each
    of its matches by a backslash and the match. *)
Definition escapeClass (c : Z) : bool :=
  inClass (js ".*+?^${}()|[]\") c.

Definition escapeRegExp (s : jsstring) : jsstring :=
  flat_map (fun c => if escapeClass c then [92; c] else [c]) s.

(** [SyntaxCharacter] of the pattern grammar of ECMAScript:
    [^ $ \ . * + ? ( ) [ ] { } |]. *)
Definition isSyntaxCharacter (c : Z) : bool :=
  existsb (Z.eqb c) [94; 36; 92; 46; 42; 43; 63; 40; 41; 91; 93; 123; 125; 124].

(** The parse of a pattern made of pattern characters (any code unit that is
    no syntax character) and identity escapes (a backslash and a syntax
    character): the code units the pattern matches, in order.  A syntax
    character that is not escaped, a backslash before another code unit or
    at the end of the pattern are outside this fragment of the grammar:
    the parse is [None]. *)
Fixpoint literalPattern (pattern : jsstring) : option jsstring :=
  match pattern with
  | [] => Some []
  | c :: rest =>
      if c =? 92
      then match rest with
           | d :: rest' =>
               if isSyntaxCharacter d
               then option_map (cons d) (literalPattern rest')
               else None
           | [] => None
           end
      else if isSyntaxCharacter c then None
      else option_map (cons c) (literalPattern rest)
  end.

(** [new RegExp(pattern, "i")] for the patterns of the fragment above: the
    parsed code units matched in order, case ignored.  No other pattern is
    given a meaning: the empty regex stands for it. *)
Definition RegExpI (pattern : jsstring) : regex :=
  match literalPattern pattern with
  | Some units => [LitI units]
  | None => []
  end.

(** [createSearchRegex], lines 77 to 83. *)
Definition createSearchRegex (query : jsstring) : regex :=
  let normalized := normalizeArabic query in
  let escaped := escapeRegExp normalized in
  RegExpI escaped.

(** The insertion-ordered [Map] from reciter to image. *)
Definition jsMap := list (jsstring * jsstring).

Definition mapHas (m : jsMap) (k : jsstring) : bool :=
  existsb (fun kv => eqb_str (fst kv) k) m.

Fixpoint mapSet (m : jsMap) (k v : jsstring) : jsMap :=
  match m with
  | [] => [(k, v)]
  | (k', v') :: m' =>
      if eqb_str k' k then (k', v) :: m' else (k', v') :: mapSet m' k v
  end.

Record Reciter := mkReciter { name : jsstring; image : jsstring }.

(** [reciters]: reads the array [episodes] and builds arrays of its own. *)
Definition reciters (episodes : list Episode.t) (reciterSearch : jsstring)
  : list Reciter :=
  let map_ :=
    fold_left
      (fun m ep =>
         if negb (mapHas m (Episode.reciter ep))
         then mapSet m (Episode.reciter ep) (Episode.image ep)
         else m)
      episodes [] in
  let allReciters := map (fun kv => mkReciter (fst kv) (snd kv)) map_ in
  if negb (isEmpty reciterSearch)
  then
    let regex_ := createSearchRegex reciterSearch in
    filter
      (fun r =>
         test regex_ (normalizeArabic (name r))
         || includes (toLowerCase reciterSearch) (toLowerCase (name r)))
      allReciters
  else allReciters.

Definition ALL : jsstring := js "All".

(** [queryTerms] of line 214. *)
Definition queryTermsOf (surahSearch : jsstring) : list jsstring :=
  let normalizedQuery := normalizeArabic surahSearch in
  filter (fun t => 0 <? Z.of_nat (List.length t)) (split 32 normalizedQuery).

(** The callback of line 216. *)
Definition matchesQuery (queryTerms : list jsstring) (e : Episode.t) : bool :=
  let normalizedSurah := normalizeArabic (Episode.surah e) in
  let normalizedReciter := normalizeArabic (Episode.reciter e) in
  let combined := normalizedSurah ++ js " " ++ normalizedReciter in
  forallb (fun term => includes term combined) queryTerms.

Section FilteredEpisodes.

(** [getSurahOrder] of utils/surahOrder: the canonical rank of a chapter
    name.  The ranking is a parameter of the development. *)
Variable getSurahOrder : jsstring -> Z.

Definition bySurahOrder (a b : Episode.t) : Z :=
  let orderA := getSurahOrder (Episode.surah a) in
  let orderB := getSurahOrder (Episode.surah b) in
  orderA - orderB.

(** [filteredEpisodes], lines 203-232.  [episodes] is the reference held
    by the component state; the result is the reference returned. *)
Definition filteredEpisodes (h : store) (episodes : ref)
    (selectedReciter surahSearch : jsstring) : store * ref :=
  let result := episodes in
  let '(h1, result1) :=
    if negb (eqb_str selectedReciter ALL)
    then arrayFilter h result
           (fun e => eqb_str (Episode.reciter e) selectedReciter)
    else (h, result) in
  let '(h2, result2) :=
    if negb (isEmpty surahSearch)
    then arrayFilter h1 result1 (matchesQuery (queryTermsOf surahSearch))
    else (h1, result1) in
  arraySort h2 result2 bySurahOrder.

End FilteredEpisodes.


(** ** Pagination (PodcastPlayer.tsx, lines 58-59, 235, 270-278, 637-642) *)

Definition ITEMS_PER_PAGE : Z := 10.

(** [arr.slice(0, end)]: a negative [end] counts from the end of the
    array, and the bounds are clamped to it. *)
Definition slice0 {A} (arr : list A) (end_ : Z) : list A :=
  let len := Z.of_nat (List.length arr) in
  let k := if end_ <? 0 then Z.max (len + end_) 0 else Z.min end_ len in
  firstn (Z.to_nat k) arr.

Definition visibleEpisodes (filtered : list Episode.t) (visibleCount : Z)
  : list Episode.t :=
  slice0 filtered visibleCount.

(** [handleLoadMore]: the updater given to [setVisibleCount]. *)
Definition handleLoadMore (visibleCount : Z) : Z := visibleCount + ITEMS_PER_PAGE.

(** Line 637: whether the "load more" button is rendered, and line 642:
    the count it shows. *)
Definition showsLoadMore (filtered : list Episode.t) (visibleCount : Z) : bool :=
  visibleCount <? Z.of_nat (List.length filtered).

Definition remainingCount (filtered : list Episode.t) (visibleCount : Z) : Z :=
  Z.of_nat (List.length filtered) - visibleCount.

(** ** Restoring the selected reciter (PodcastPlayer.tsx, lines 123-143) *)

(** [if (s)] on [string | null]: [null] and the empty string are falsy. *)
Definition truthy (s : option jsstring) : bool :=
  match s with
  | Some v => negb (isEmpty v)
  | None => false
  end.

(** [episodes.some((e) => e.reciter === r)] *)
Definition reciterExists (episodes : list Episode.t) (r : jsstring) : bool :=
  existsb (fun e => eqb_str (Episode.reciter e) r) episodes.

(** Lines 136-143: the fallback to the reciter saved in [localStorage];
    [savedReciter] is [localStorage.getItem("selectedReciter")]. *)
Definition restoreFromStorage (episodes : list Episode.t)
    (savedReciter : option jsstring) (selectedReciter : jsstring) : jsstring :=
  if truthy savedReciter
  then match savedReciter with
       | Some r => if reciterExists episodes r then r else selectedReciter
       | None => selectedReciter
       end
  else selectedReciter.

(** The selection after the effect has run; [urlReciter] is
    [params.get("reciter")].  A reciter found in the URL ends the effect
    ([return]); otherwise the storage is consulted. *)
Definition restoreSelectedReciter (episodes : list Episode.t)
    (urlReciter savedReciter : option jsstring) (selectedReciter : jsstring)
  : jsstring :=
  if truthy urlReciter
  then match urlReciter with
       | Some r =>
           if reciterExists episodes r then r
           else restoreFromStorage episodes savedReciter selectedReciter
       | None => restoreFromStorage episodes savedReciter selectedReciter
       end
  else restoreFromStorage episodes savedReciter selectedReciter.

(** ** Playback handlers (PodcastPlayer.tsx, lines 238-268) *)

(** [arr[i]]: [undefined] outside the array. *)
Definition elemAt {A} (arr : list A) (i : Z) : option A :=
  if i <? 0 then None else nth_error arr (Z.to_nat i).

Section Player.

(** The times of the audio element are floating-point numbers; the
    handlers only ever store the constant [0], so the type of numbers is
    left open. *)
Variable number : Type.
Variable zero : number.

(** The part of the component state the handlers touch. *)
Record Player := mkPlayer {
  currentId : option jsstring;
  isPlaying : bool;
  isLoadingAudio : bool;
  currentTime : number;
  shouldSeek : option number
}.

(** [currentId === id] *)
Definition isCurrent (p : Player) (id : jsstring) : bool :=
  match currentId p with
  | Some c => eqb_str c id
  | None => false
  end.

(** [episodes.find((e) => e.id === currentId)] *)
Definition currentEpisode (episodes : list Episode.t) (p : Player)
  : option Episode.t :=
  find (fun e => isCurrent p (Episode.id e)) episodes.

Definition handlePlayPause (p : Player) (id : jsstring) : Player :=
  if isCurrent p id
  then mkPlayer (currentId p) (negb (isPlaying p)) (isLoadingAudio p)
                (currentTime p) (shouldSeek p)
  else mkPlayer (Some id) true true zero None.

(** Reading [.id] of [undefined] throws a TypeError. *)
Definition idOf (e : option Episode.t) : completion jsstring :=
  match e with
  | Some ep => Normal (Episode.id ep)
  | None => Throw (js "TypeError")
  end.

Definition handleNext (filtered : list Episode.t) (p : Player)
  : completion Player :=
  if negb (truthy (currentId p)) then Normal p
  else
    let currentIndex := findIndex (fun e => isCurrent p (Episode.id e)) filtered in
    if currentIndex <? Z.of_nat (List.length filtered) - 1
    then id <- idOf (elemAt filtered (currentIndex + 1)) ;;
         Normal (handlePlayPause p id)
    else Normal p.

Definition handlePrev (filtered : list Episode.t) (p : Player)
  : completion Player :=
  if negb (truthy (currentId p)) then Normal p
  else
    let currentIndex := findIndex (fun e => isCurrent p (Episode.id e)) filtered in
    if 0 <? currentIndex
    then id <- idOf (elemAt filtered (currentIndex - 1)) ;;
         Normal (handlePlayPause p id)
    else Normal p.

End Player.

Arguments currentId {number} _.
Arguments isPlaying {number} _.
Arguments isLoadingAudio {number} _.
Arguments currentTime {number} _.
Arguments shouldSeek {number} _.
Arguments isCurrent {number} _ _.
Arguments currentEpisode {number} _ _.
Arguments handlePlayPause {number} _ _ _.
Arguments handleNext {number} _ _ _.
Arguments handlePrev {number} _ _ _.
(** * The specification's wording, as definitions

    Where a property compares the code with a description given in other
    words, the description is written down here, from the specification,
    and compared with the definitions above further down. *)

(** ** The five steps of the normalizer *)

(** Map the hamza-bearing alef variants (U+0623, U+0625, U+0622) to bare
    alef (U+0627). *)
Definition spec_unifyAlef (s : jsstring) : jsstring :=
  map (fun c => if (c =? 0x623) || (c =? 0x625) || (c =? 0x622)
                then 0x627 else c) s.

(** Map taa marbuta (U+0629) to haa (U+0647). *)
Definition spec_taaMarbuta (s : jsstring) : jsstring :=
  map (fun c => if c =? 0x629 then 0x647 else c) s.

(** Map alef maksura (U+0649) to yaa (U+064A). *)
Definition spec_alefMaksura (s : jsstring) : jsstring :=
  map (fun c => if c =? 0x649 then 0x64A else c) s.

(** Strip the combining marks of the Arabic diacritics block, U+064B to
    U+065F. *)
Definition spec_stripDiacritics (s : jsstring) : jsstring :=
  filter (fun c => negb ((0x64B <=? c) && (c <=? 0x65F))) s.

(** The four Arabic steps, in order. *)
Definition spec_arabicSteps (s : jsstring) : jsstring :=
  spec_stripDiacritics (spec_alefMaksura (spec_taaMarbuta (spec_unifyAlef s))).

(** A code unit none of the four Arabic steps touches. *)
Definition folded (c : Z) : bool :=
  negb ((c =? 0x623) || (c =? 0x625) || (c =? 0x622))
  && negb (c =? 0x629) && negb (c =? 0x649)
  && negb ((0x64B <=? c) && (c <=? 0x65F)).

(** ** Case conversion: what the proofs check on the tables *)

(** The code points an entry of a mapping table maps, and those a whole
    table maps. *)
Definition expandEntry (e : Z * Z * Z * Z) : list Z :=
  let '(lo, hi, stride, _) := e in
  map (fun k => lo + stride * Z.of_nat k)
      (seq 0 (Z.to_nat ((hi - lo) / stride + 1))).

(** The stride of an entry. *)
Definition strideOf (e : Z * Z * Z * Z) : Z := snd (fst e).

Definition sourcesOf (table : list (Z * Z * Z * Z)) : list Z :=
  flat_map expandEntry table.

Definition isSurrogate (c : Z) : bool := inRange 0xD800 0xDFFF c.

(** A code point the lowercasing leaves as it is, in any context. *)
Definition settled (q : Z) : bool :=
  negb (q =? 0x3A3) && negb (q =? 0x130) && (simpleLower q =? q).

(** What is checked of every code point [c] that has a lowercase mapping:
    its image is settled, is none of the code units the Arabic steps
    rewrite, is no surrogate (nor is [c]), and lies in the plane of [c]. *)
Definition lowerOk (c : Z) : bool :=
  let t := simpleLower c in
  settled t && folded t && negb (isSurrogate t) && negb (isSurrogate c)
  && Bool.eqb (isSupplementary t) (isSupplementary c).

(** No lone high surrogate stands right before a lone low surrogate. *)
Fixpoint wellPaired (cps : list Z) : bool :=
  match cps with
  | [] => true
  | h :: rest =>
      match rest with
      | l :: _ => negb (isHighSurrogate h && isLowSurrogate l)
      | [] => true
      end && wellPaired rest
  end.

(** A code unit that is its own code point and has no special casing. *)
Definition plainUnit (c : Z) : bool :=
  negb (isHighSurrogate c) && negb (isSupplementary c)
  && negb (c =? 0x3A3) && negb (c =? 0x130).

(** A code unit that is a code point of its own: no half of a surrogate
    pair. *)
Definition scalarUnit (c : Z) : bool :=
  negb (isSurrogate c) && negb (isSupplementary c).

(** A code point without case that the context of a sigma does not skip. *)
Definition caseless (c : Z) : bool :=
  negb (isCaseIgnorable c) && negb (isCased c).

(** ** The title parser *)

(** Every occurrence of " - " replaced by " | ", the occurrences taken from
    the left, none overlapping another. *)
Fixpoint spec_barsForDashes (s : jsstring) : jsstring :=
  match s with
  | [] => []
  | c :: rest =>
      match rest with
      | d :: e :: rest' =>
          if (c =? 32) && (d =? 45) && (e =? 32)
          then [32; 124; 32] ++ spec_barsForDashes rest'
          else c :: spec_barsForDashes rest
      | _ => c :: spec_barsForDashes rest
      end
  end.

(** [t] is [s] without the white space and the line terminators at its two
    ends. *)
Definition spec_trimmed (s t : jsstring) : Prop :=
  (exists l r, s = l ++ t ++ r
               /\ forallb isTrimmable l = true
               /\ forallb isTrimmable r = true)
  /\ (forall c rest, t = c :: rest -> isTrimmable c = false)
  /\ (forall front c, t = front ++ [c] -> isTrimmable c = false).

(** The index of the first element that satisfies [P], when there is one. *)
Fixpoint indexOfFirst {A} (P : A -> bool) (l : list A) : option nat :=
  match l with
  | [] => None
  | x :: l' => if P x then Some O else option_map S (indexOfFirst P l')
  end.

Definition isIndex (o : option nat) (i : nat) : bool :=
  match o with Some k => Nat.eqb k i | None => false end.

(** The segments whose index is neither [a] nor [e], in original order. *)
Definition segmentsOutside (a e : option nat) (parts : list jsstring)
  : list jsstring :=
  map snd
    (filter (fun ip => negb (isIndex a (fst ip)) && negb (isIndex e (fst ip)))
            (combine (seq 0 (List.length parts)) parts)).

(** The value [findIndex] returns for such an index. *)
Definition indexZ (o : option nat) : Z :=
  match o with Some k => Z.of_nat k | None => -1 end.

(** The chapter label the marker search leaves: the first Arabic segment,
    else the first English one, else nothing. *)
Definition markedSegment (parts : list jsstring) : option jsstring :=
  match find hasArabicMarker parts with
  | Some p => Some p
  | None => find hasEnglishMarker parts
  end.

(** ** The feed extractor *)

(** The admission test: the audio URL is not empty. *)
Definition hasUrl (e : Episode.t) : bool := negb (isEmpty (Episode.url e)).

Section Candidates.

Variable randomId : nat -> jsstring.

(** The record an item block yields, whether it is then kept or not,
    when [calls] identifiers have been drawn before it. *)
Definition candidateOf (channelImage : jsstring) (calls : nat)
    (content : jsstring) : Episode.t :=
  let labels := parseTitle (fullTitleOf content) in
  Episode.mk (orDefault (group1 guidRegex content) (randomId calls))
             (fullTitleOf content)
             (reciter labels) (surah labels)
             (enclosureUrl content)
             (orDefault (group1 imageRegex content) channelImage)
             (orDefault (group1 durationRegex content) (js "00:00")).

(** The records of all item blocks, in feed order. *)
Fixpoint candidatesFrom (channelImage : jsstring) (calls : nat)
    (contents : list jsstring) : list Episode.t :=
  match contents with
  | [] => []
  | content :: rest =>
      candidateOf channelImage calls content
        :: candidatesFrom channelImage
             (match group1 guidRegex content with
              | Some _ => calls
              | None => S calls
              end) rest
  end.

Definition candidateEpisodes (xmlText : jsstring) : list Episode.t :=
  candidatesFrom (orDefault (group1 imageRegex xmlText) []) O
                 (execAll itemRegex xmlText O).

End Candidates.

(** ** The episode filter *)

(** Split on whitespace, dropping empty terms.  [acc] is the term being
    read, reversed. *)
Fixpoint wordsFrom (s acc : jsstring) : list jsstring :=
  match s with
  | [] => match acc with [] => [] | _ => [rev acc] end
  | c :: s' =>
      if isTrimmable c
      then match acc with
           | [] => wordsFrom s' []
           | _ => rev acc :: wordsFrom s' []
           end
      else wordsFrom s' (c :: acc)
  end.

Definition spec_whitespaceTerms (query : jsstring) : list jsstring :=
  wordsFrom (normalizeArabic query) [].

(** Split on the space character U+0020, dropping empty terms. *)
Definition spec_spaceTerms (query : jsstring) : list jsstring :=
  filter (fun t => negb (isEmpty t)) (split 32 (normalizeArabic query)).

(** Every term occurs in the normalization of surah, a space, reciter. *)
Definition spec_everyTermOccurs (terms : list jsstring) (e : Episode.t) : bool :=
  forallb
    (fun term =>
       includes term
         (normalizeArabic (Episode.surah e ++ js " " ++ Episode.reciter e)))
    terms.

(** The reciter selection: "All", or the reciter of the episode. *)
Definition spec_reciterSelected (selectedReciter : jsstring) (e : Episode.t)
  : bool :=
  eqb_str selectedReciter ALL || eqb_str (Episode.reciter e) selectedReciter.

(** What the filter keeps: the selected reciter, and every space-separated
    term of the query. *)
Definition keptBy (selectedReciter surahSearch : jsstring) (e : Episode.t)
  : bool :=
  spec_reciterSelected selectedReciter e
  && spec_everyTermOccurs (spec_spaceTerms surahSearch) e.

(** Sample data: episodes, and a chapter ranking in the canonical order
    (Al-Fatiha first, Al-Baqarah second, the unranked last). *)
Definition baqarah : Episode.t :=
  Episode.mk (js "guid-2") (js "سورة البقرة | الشيخ محمد")
             (js "الشيخ محمد") (js "سورة البقرة")
             (js "https://example.org/2.mp3") [] (js "02:05:00").

Definition fatiha : Episode.t :=
  Episode.mk (js "guid-1") (js "سورة الفاتحة | الشيخ أحمد")
             (js "الشيخ أحمد") (js "سورة الفاتحة")
             (js "https://example.org/1.mp3") [] (js "01:10").

Definition yasin : Episode.t :=
  Episode.mk (js "guid-36") (js "Surah Yasin - Sheikh Ahmad")
             (js "Sheikh Ahmad") (js "Surah Yasin")
             (js "https://example.org/36.mp3") [] (js "20:00").

Definition imran : Episode.t :=
  Episode.mk (js "guid-3") (js "Sūrat Āl ʿImrān - Āmir al-Muhalhal")
             (js "Āmir al-Muhalhal") (js "Sūrat Āl ʿImrān")
             (js "https://example.org/3.mp3") [] (js "01:30:00").

Definition sampleOrder (surahName : jsstring) : Z :=
  if eqb_str surahName (js "سورة الفاتحة") then 1
  else if eqb_str surahName (js "سورة البقرة") then 2
  else 999.

(** What [filteredEpisodes] keeps for any query: the selected reciter, and,
    when a query is typed, every space-separated term of it. *)
Definition selectedBy (selectedReciter surahSearch : jsstring) (e : Episode.t)
  : bool :=
  spec_reciterSelected selectedReciter e
  && (isEmpty surahSearch
      || spec_everyTermOccurs (spec_spaceTerms surahSearch) e).

(** The canonical rank of an episode. *)
Definition rankOf (getSurahOrder : jsstring -> Z) (e : Episode.t) : Z :=
  getSurahOrder (Episode.surah e).

(** The distinct strings of a list in the order of their first
    occurrence; [seen] holds those met so far. *)
Fixpoint firstSeen (seen l : list jsstring) : list jsstring :=
  match l with
  | [] => []
  | x :: l' =>
      if existsb (fun s => eqb_str s x) seen then firstSeen seen l'
      else x :: firstSeen (seen ++ [x]) l'
  end.

(** [p] occurs in [s] when case is ignored. *)
Fixpoint spec_includesI (p s : jsstring) : bool :=
  startsWithI p s ||
  match s with
  | [] => false
  | _ :: s' => spec_includesI p s'
  end.

(** The [Map] of [reciters] once [forEach] has gone through [episodes],
    starting from the map [m0]. *)
Definition seenReciters (episodes : list Episode.t) (m0 : jsMap) : jsMap :=
  fold_left
    (fun m ep =>
       if negb (mapHas m (Episode.reciter ep))
       then mapSet m (Episode.reciter ep) (Episode.image ep)
       else m)
    episodes m0.

(** The test a reciter passes to be listed under a search. *)
Definition spec_reciterListed (reciterSearch : jsstring) (r : Reciter) : bool :=
  isEmpty reciterSearch
  || spec_includesI (normalizeArabic reciterSearch) (normalizeArabic (name r))
  || includes (toLowerCase reciterSearch) (toLowerCase (name r)).

(** The lazy star of [a(cls*?)b] once [a] is passed: the shortest run of
    [cls] code units after which [b] follows.  [taken] is the run read so
    far, reversed. *)
Fixpoint lazyUntil (cls : Z -> bool) (b taken t : jsstring)
  : option (jsstring * jsstring) :=
  if startsWith b t then Some (rev taken, skipn (List.length b) t)
  else match t with
       | c :: t' => if cls c then lazyUntil cls b (c :: taken) t' else None
       | [] => None
       end.

(** A segment carries a chapter marker, Arabic or English. *)
Definition hasMarker (p : jsstring) : bool :=
  hasArabicMarker p || hasEnglishMarker p.

(** A feed of three item blocks, each with a guid; the second has no
    enclosure. *)
Definition sampleFeed : jsstring :=
  js "<rss><channel><itunes:image href=" ++ quote ++ js "https://example.org/c.png"
  ++ quote ++ js "/><item><title><![CDATA[سورة البقرة | الشيخ محمد]]></title>"
  ++ js "<enclosure url=" ++ quote ++ js "https://example.org/2.mp3" ++ quote
  ++ js "/><guid>guid-2</guid></item>"
  ++ js "<item><title>Surah Yasin - Unknown</title><guid>guid-36</guid></item>"
  ++ js "<item><title>Surah Yasin - Sheikh Ahmad</title><guid>guid-37</guid>"
  ++ js "<enclosure url=" ++ quote ++ js "https://example.org/36.mp3" ++ quote
  ++ js "/><itunes:duration>20:00</itunes:duration></item></channel></rss>".

(** * Properties *)

(** ** Strings *)

Lemma eqb_str_spec (a b : jsstring) : eqb_str a b = true <-> a = b.
Proof.
  unfold eqb_str. destruct (list_eq_dec Z.eq_dec a b); split; congruence.
Qed.

Lemma eqb_str_false (a b : jsstring) : eqb_str a b = false <-> a <> b.
Proof.
  unfold eqb_str. destruct (list_eq_dec Z.eq_dec a b); split; congruence.
Qed.

Example js_arabic_marker : js "سورة" = [1587; 1608; 1585; 1577].
Proof. reflexivity. Qed.

Example js_hamza_class : js "أإآ" = [1571; 1573; 1570].
Proof. reflexivity. Qed.

Example normalize_ahmad :
  normalizeArabic (js "أَحْمَد Ali") = js "احمد ali".
Proof. reflexivity. Qed.

Example parse_arabic :
  parseTitle (js "سورة البقرة | الشيخ محمد")
  = mkLabels (js "سورة البقرة") (js "الشيخ محمد").
Proof. reflexivity. Qed.

Example parse_english :
  parseTitle (js "Surah Al-Baqarah - Sheikh Ahmad")
  = mkLabels (js "Surah Al-Baqarah") (js "Sheikh Ahmad").
Proof. reflexivity. Qed.

Example parse_both_markers :
  parseTitle (js "سورة الفاتحة | Surah Al-Fatiha | Mishary")
  = mkLabels (js "سورة الفاتحة") (js "Mishary").
Proof. reflexivity. Qed.

Example parse_no_marker :
  parseTitle (js "abc | def") = mkLabels (js "abc") (js "def").
Proof. reflexivity. Qed.

Example split_dashes :
  replaceLiteral (js " - ") (js " | ") (js "a - - b - c") O = js "a | - b | c".
Proof. reflexivity. Qed.

Lemma isEmpty_spec (s : jsstring) : isEmpty s = true <-> s = [].
Proof. destruct s; simpl; split; congruence. Qed.

Lemma split_nonempty (sep : Z) (s : jsstring) : split sep s <> [].
Proof.
  induction s as [|c s IH]; [discriminate|].
  cbn [split]. destruct (c =? sep); [discriminate|].
  destruct (split sep s); [congruence | discriminate].
Qed.

Lemma trimStart_head (s : jsstring) (c : Z) (r : jsstring) :
  trimStart s = c :: r -> isTrimmable c = false.
Proof.
  induction s as [|x s IH]; [discriminate|].
  cbn [trimStart]. destruct (isTrimmable x) eqn:E; [exact IH|].
  intros [= <- _]. exact E.
Qed.

Lemma trimStart_suffix (s : jsstring) :
  exists ws, s = ws ++ trimStart s.
Proof.
  induction s as [|x s [ws IH]]; [now exists []|].
  cbn [trimStart]. destruct (isTrimmable x).
  - exists (x :: ws). cbn [app]. now rewrite <- IH.
  - now exists [].
Qed.

Lemma trim_last (s pre : jsstring) (c : Z) :
  trim s = pre ++ [c] -> isTrimmable c = false.
Proof.
  unfold trim, trimEnd. intros H.
  apply (f_equal (@rev Z)) in H. rewrite rev_involutive, rev_app_distr in H.
  cbn [rev app] in H. exact (trimStart_head _ _ _ H).
Qed.

Lemma trim_head (s : jsstring) (c : Z) (r : jsstring) :
  trim s = c :: r -> isTrimmable c = false.
Proof.
  unfold trim, trimEnd. intros H.
  destruct (trimStart_suffix (rev (trimStart s))) as [ws Hws].
  apply (f_equal (@rev Z)) in Hws.
  rewrite rev_involutive, rev_app_distr, H in Hws.
  cbn [app] in Hws. exact (trimStart_head _ _ _ Hws).
Qed.

Lemma trimStart_prefix (s : jsstring) :
  exists ws, s = ws ++ trimStart s /\ forallb isTrimmable ws = true.
Proof.
  induction s as [|x s (ws & IH & Hws)]; [now exists []|].
  cbn [trimStart]. destruct (isTrimmable x) eqn:E.
  - exists (x :: ws). cbn [app forallb]. rewrite E, Hws. now rewrite <- IH.
  - now exists [].
Qed.

Lemma forallb_rev {A} (f : A -> bool) (l : list A) :
  forallb f l = true -> forallb f (rev l) = true.
Proof.
  rewrite !forallb_forall. intros H x Hx. apply H. now apply in_rev.
Qed.

Lemma trimEnd_suffix (s : jsstring) :
  exists ws, s = trimEnd s ++ ws /\ forallb isTrimmable ws = true.
Proof.
  unfold trimEnd. destruct (trimStart_prefix (rev s)) as (ws & H & Hws).
  exists (rev ws). split; [|now apply forallb_rev].
  apply (f_equal (@rev Z)) in H.
  now rewrite rev_involutive, rev_app_distr in H.
Qed.

(** [trim] takes white space and line terminators off the two ends of a
    string, and all of them. *)
Lemma trim_trimmed (s : jsstring) : spec_trimmed s (trim s).
Proof.
  unfold spec_trimmed. split; [|split].
  - destruct (trimStart_prefix s) as (l & Hl & Hlt).
    destruct (trimEnd_suffix (trimStart s)) as (r & Hr & Hrt).
    exists l, r. fold (trim s) in Hr. rewrite <- Hr. auto.
  - intros c rest. apply trim_head.
  - intros front c. apply trim_last.
Qed.

Lemma split_join (sep : Z) (s : jsstring) : join [sep] (split sep s) = s.
Proof.
  induction s as [|c s IH]; [reflexivity|].
  cbn [split]. pose proof (split_nonempty sep s) as Hne.
  destruct (Z.eqb_spec c sep) as [->|Hc].
  - destruct (split sep s) as [|seg segs]; [congruence|].
    cbn [join app] in *. now rewrite IH.
  - destruct (split sep s) as [|seg segs]; [congruence|].
    destruct segs as [|seg' segs]; cbn [join app] in *; now rewrite IH.
Qed.

Lemma split_free (sep : Z) (s : jsstring) :
  Forall (fun piece => ~ In sep piece) (split sep s).
Proof.
  induction s as [|c s IH]; [repeat constructor; intros []|].
  cbn [split]. destruct (Z.eqb_spec c sep) as [->|Hc].
  - constructor; [intros [] | exact IH].
  - destruct (split sep s) as [|seg segs]; [repeat constructor; intros [H|[]]; congruence|].
    inversion IH as [|? ? Hseg Hsegs]; subst.
    constructor; [|exact Hsegs]. intros [H | H]; [congruence | contradiction].
Qed.

(** The replacement of the source, which consumes a match through a
    counter, is the replacement of every " - " from the left. *)
Lemma replaceLiteral_bars_upto (n : nat) (s : jsstring) :
  (List.length s <= n)%nat ->
  replaceLiteral (js " - ") (js " | ") s O = spec_barsForDashes s.
Proof.
  change (js " - ") with [32; 45; 32]. change (js " | ") with [32; 124; 32].
  revert s. induction n as [|n IH]; intros s Hn.
  - destruct s; [reflexivity | cbn [List.length] in Hn; lia].
  - destruct s as [|c [|d [|e rest]]].
    + reflexivity.
    + cbn [replaceLiteral spec_barsForDashes startsWith].
      now rewrite andb_false_r.
    + cbn [replaceLiteral spec_barsForDashes startsWith].
      now rewrite !andb_false_r.
    + cbn [List.length] in Hn.
      change (replaceLiteral [32; 45; 32] [32; 124; 32] (c :: d :: e :: rest) O)
        with (if (32 =? c) && ((45 =? d) && ((32 =? e) && true))
              then [32; 124; 32]
                   ++ replaceLiteral [32; 45; 32] [32; 124; 32] rest O
              else c :: replaceLiteral [32; 45; 32] [32; 124; 32]
                          (d :: e :: rest) O).
      change (spec_barsForDashes (c :: d :: e :: rest))
        with (if (c =? 32) && (d =? 45) && (e =? 32)
              then [32; 124; 32] ++ spec_barsForDashes rest
              else c :: spec_barsForDashes (d :: e :: rest)).
      rewrite andb_true_r, (Z.eqb_sym 32 c), (Z.eqb_sym 45 d), (Z.eqb_sym 32 e),
        andb_assoc.
      rewrite (IH rest) by lia.
      rewrite (IH (d :: e :: rest)) by (cbn [List.length]; lia).
      reflexivity.
Qed.

Lemma replaceLiteral_bars (s : jsstring) :
  replaceLiteral (js " - ") (js " | ") s O = spec_barsForDashes s.
Proof. now apply (replaceLiteral_bars_upto (List.length s)). Qed.

(** ** The text normalizer *)

Lemma alef_class (c : Z) :
  inClass (js "أإآ") c = (c =? 0x623) || (c =? 0x625) || (c =? 0x622).
Proof.
  unfold inClass. change (js "أإآ") with [0x623; 0x625; 0x622].
  simpl. now rewrite orb_false_r, orb_assoc.
Qed.

Lemma taa_class (c : Z) : inClass (js "ة") c = (c =? 0x629).
Proof.
  unfold inClass. change (js "ة") with [0x629]. simpl. apply orb_false_r.
Qed.

Lemma maksura_class (c : Z) : inClass (js "ى") c = (c =? 0x649).
Proof.
  unfold inClass. change (js "ى") with [0x649]. simpl. apply orb_false_r.
Qed.

Lemma replaceClass_one (cls : Z -> bool) (r : Z) (s : jsstring) :
  replaceClass cls [r] s = map (fun c => if cls c then r else c) s.
Proof.
  unfold replaceClass. induction s as [|c s IH]; simpl; [reflexivity|].
  rewrite IH. now destruct (cls c).
Qed.

Lemma replaceClass_none (cls : Z -> bool) (s : jsstring) :
  replaceClass cls [] s = filter (fun c => negb (cls c)) s.
Proof.
  unfold replaceClass. induction s as [|c s IH]; simpl; [reflexivity|].
  rewrite IH. now destruct (cls c).
Qed.

Lemma replace_alef (s : jsstring) :
  replaceClass (inClass (js "أإآ")) (js "ا") s = spec_unifyAlef s.
Proof.
  change (js "ا") with [0x627]. rewrite replaceClass_one.
  apply map_ext. intros c. now rewrite alef_class.
Qed.

Lemma replace_taa (s : jsstring) :
  replaceClass (inClass (js "ة")) (js "ه") s = spec_taaMarbuta s.
Proof.
  change (js "ه") with [0x647]. rewrite replaceClass_one.
  apply map_ext. intros c. now rewrite taa_class.
Qed.

Lemma replace_maksura (s : jsstring) :
  replaceClass (inClass (js "ى")) (js "ي") s = spec_alefMaksura s.
Proof.
  change (js "ي") with [0x64A]. rewrite replaceClass_one.
  apply map_ext. intros c. now rewrite maksura_class.
Qed.

Lemma replace_diacritics (s : jsstring) :
  replaceClass isDiacritic [] s = spec_stripDiacritics s.
Proof. apply replaceClass_none. Qed.

Lemma normalizeArabic_unfold (text : jsstring) :
  normalizeArabic text = toLowerCase (spec_arabicSteps text).
Proof.
  unfold normalizeArabic, spec_arabicSteps.
  now rewrite replace_alef, replace_taa, replace_maksura, replace_diacritics.
Qed.

(** ** UTF-16 *)

Lemma codePoints_ind (P : jsstring -> Prop) :
  P [] ->
  (forall h, P [h]) ->
  (forall h l s, isHighSurrogate h && isLowSurrogate l = true ->
                 P s -> P (h :: l :: s)) ->
  (forall h l s, isHighSurrogate h && isLowSurrogate l = false ->
                 P (l :: s) -> P (h :: l :: s)) ->
  forall s, P s.
Proof.
  intros Hnil Hone Hpair Hlone s.
  assert (H : forall n s, (List.length s <= n)%nat -> P s).
  { induction n as [|n IH]; intros [|h [|l t]] Hlen; simpl in Hlen;
      try exact Hnil; try apply Hone; try lia.
    destruct (isHighSurrogate h && isLowSurrogate l) eqn:E.
    - apply Hpair; [exact E|]. apply IH. lia.
    - apply Hlone; [exact E|]. apply IH. simpl. lia. }
  apply (H (List.length s)). lia.
Qed.

Lemma codePoints_lone (h : Z) (s : jsstring) :
  match s with
  | l :: _ => isHighSurrogate h && isLowSurrogate l = false
  | [] => True
  end ->
  codePoints (h :: s) = h :: codePoints s.
Proof.
  destruct s as [|l s]; [reflexivity|]. intros E.
  cbn [codePoints]. now rewrite E.
Qed.

Lemma highSurrogate_range (c : Z) :
  isHighSurrogate c = true <-> 0xD800 <= c <= 0xDBFF.
Proof. unfold isHighSurrogate, inRange. rewrite andb_true_iff. lia. Qed.

Lemma lowSurrogate_range (c : Z) :
  isLowSurrogate c = true <-> 0xDC00 <= c <= 0xDFFF.
Proof. unfold isLowSurrogate, inRange. rewrite andb_true_iff. lia. Qed.

Lemma supplementary_range (c : Z) :
  isSupplementary c = true <-> 0x10000 <= c <= 0x10FFFF.
Proof. unfold isSupplementary, inRange. rewrite andb_true_iff. lia. Qed.

Lemma surrogate_range (c : Z) :
  isSurrogate c = true <-> 0xD800 <= c <= 0xDFFF.
Proof. unfold isSurrogate, inRange. rewrite andb_true_iff. lia. Qed.

Lemma pair_supplementary (h l : Z) :
  isHighSurrogate h && isLowSurrogate l = true ->
  0x10000 <= 0x10000 + (h - 0xD800) * 0x400 + (l - 0xDC00) <= 0x10FFFF.
Proof.
  rewrite andb_true_iff, highSurrogate_range, lowSurrogate_range. lia.
Qed.

Lemma wellPaired_codePoints (s : jsstring) : wellPaired (codePoints s) = true.
Proof.
  induction s as [| h | h l s E IH | h l s E IH] using codePoints_ind;
    try reflexivity.
  - cbn [codePoints]. rewrite E. cbn [wellPaired]. rewrite IH, andb_true_r.
    pose proof (pair_supplementary h l E) as Hr.
    destruct (codePoints s) as [|x t]; [reflexivity|].
    apply negb_true_iff, andb_false_iff. left.
    apply not_true_iff_false. rewrite highSurrogate_range. lia.
  - rewrite codePoints_lone by exact E. cbn [wellPaired]. rewrite IH, andb_true_r.
    destruct s as [|l' s'].
    + cbn [codePoints]. now rewrite E.
    + cbn [codePoints]. destruct (isHighSurrogate l && isLowSurrogate l') eqn:E'.
      * apply negb_true_iff, andb_false_iff. right.
        pose proof (pair_supplementary l l' E') as Hr.
        apply not_true_iff_false. rewrite lowSurrogate_range. lia.
      * now rewrite E.
Qed.

Lemma codeUnits_supplementary (cp : Z) :
  isSupplementary cp = true ->
  exists h l,
    codeUnits cp = [h; l]
    /\ isHighSurrogate h && isLowSurrogate l = true
    /\ 0x10000 + (h - 0xD800) * 0x400 + (l - 0xDC00) = cp.
Proof.
  intros H. unfold codeUnits. rewrite H.
  apply supplementary_range in H.
  eexists _, _. split; [reflexivity|].
  rewrite andb_true_iff, highSurrogate_range, lowSurrogate_range.
  Z.div_mod_to_equations. lia.
Qed.

Lemma codePoints_fromCodePoints (cps : list Z) :
  wellPaired cps = true -> codePoints (fromCodePoints cps) = cps.
Proof.
  unfold fromCodePoints.
  induction cps as [|q cps IH]; [reflexivity|].
  cbn [wellPaired flat_map]. rewrite andb_true_iff. intros [Hq Hw].
  specialize (IH Hw).
  destruct (isSupplementary q) eqn:Es.
  - destruct (codeUnits_supplementary q Es) as (h & l & -> & Ep & Hc).
    cbn [app codePoints]. now rewrite Ep, IH, Hc.
  - unfold codeUnits at 1. rewrite Es. cbn [app].
    rewrite codePoints_lone; [now rewrite IH|].
    destruct cps as [|q' cps']; [exact I|]. cbn [flat_map].
    destruct (isSupplementary q') eqn:Es'.
    + destruct (codeUnits_supplementary q' Es') as (h & l & -> & Ep & _).
      cbn [app]. apply andb_false_iff. right.
      apply andb_true_iff in Ep as [Eh _].
      apply highSurrogate_range in Eh.
      apply not_true_iff_false. rewrite lowSurrogate_range. lia.
    + unfold codeUnits. rewrite Es'. cbn [app].
      now apply negb_true_iff in Hq.
Qed.

(** A code unit that is no surrogate keeps the code points on its two
    sides apart. *)
Lemma codePoints_app (a b : jsstring) (x : Z) :
  isSurrogate x = false ->
  codePoints (a ++ x :: b) = codePoints a ++ x :: codePoints b.
Proof.
  intros Hx.
  assert (Hhi : isHighSurrogate x = false).
  { apply not_true_iff_false. rewrite highSurrogate_range.
    apply not_true_iff_false in Hx. rewrite surrogate_range in Hx. lia. }
  assert (Hlo : isLowSurrogate x = false).
  { apply not_true_iff_false. rewrite lowSurrogate_range.
    apply not_true_iff_false in Hx. rewrite surrogate_range in Hx. lia. }
  assert (Hnil : codePoints (x :: b) = x :: codePoints b).
  { apply codePoints_lone. destruct b; [exact I | now rewrite Hhi]. }
  induction a as [| h | h l s E IH | h l s E IH] using codePoints_ind.
  - exact Hnil.
  - cbn [app]. rewrite codePoints_lone; [now rewrite Hnil|].
    rewrite Hlo. apply andb_false_r.
  - cbn [app codePoints]. now rewrite E, IH.
  - change ((h :: l :: s) ++ x :: b) with (h :: ((l :: s) ++ x :: b)).
    rewrite codePoints_lone by exact E. rewrite IH.
    now rewrite (codePoints_lone h (l :: s)) by exact E.
Qed.

Lemma codePoints_plain (s : jsstring) :
  forallb (fun c => negb (isHighSurrogate c)) s = true -> codePoints s = s.
Proof.
  induction s as [|h s IH]; [reflexivity|].
  cbn [forallb]. rewrite andb_true_iff. intros [Hh Hs].
  rewrite codePoints_lone; [now rewrite IH|].
  apply negb_true_iff in Hh. destruct s; [exact I | now rewrite Hh].
Qed.

(** ** Mapping tables *)

Lemma inEntry_expand (e : Z * Z * Z * Z) (c : Z) :
  0 < strideOf e -> inEntry e c = true -> In c (expandEntry e).
Proof.
  destruct e as [[[lo hi] stride] delta]. unfold inEntry, expandEntry, strideOf.
  cbn [fst snd]. intros Hs.
  rewrite !andb_true_iff, !Z.leb_le, Z.eqb_eq. intros [[Hlo Hhi] Hmod].
  apply in_map_iff. exists (Z.to_nat ((c - lo) / stride)).
  assert (Hq : 0 <= (c - lo) / stride) by (apply Z.div_pos; lia).
  assert (Hle : (c - lo) / stride <= (hi - lo) / stride)
    by (apply Z.div_le_mono; lia).
  split.
  - rewrite Z2Nat.id by lia.
    pose proof (Z.div_mod (c - lo) stride ltac:(lia)) as Hd. lia.
  - apply in_seq. split; [lia|]. cbn [Nat.add]. apply Nat2Z.inj_lt.
    rewrite !Z2Nat.id by lia. lia.
Qed.

Lemma mapByTable_cases (table : list (Z * Z * Z * Z)) (c : Z) :
  forallb (fun e => 0 <? strideOf e) table = true ->
  In c (sourcesOf table) \/ mapByTable table c = c.
Proof.
  intros Hs. unfold mapByTable.
  destruct (find (fun e => inEntry e c) table) as [e|] eqn:E; [left | now right].
  apply find_some in E as [He Hin]. unfold sourcesOf.
  apply in_flat_map. exists e. split; [exact He|].
  apply inEntry_expand; [|exact Hin].
  rewrite forallb_forall in Hs. apply Z.ltb_lt. now apply Hs.
Qed.

Lemma forall_range (P : Z -> bool) (lo : Z) (n : nat) :
  forallb P (map (fun k => lo + Z.of_nat k) (seq 0 n)) = true ->
  forall c, lo <= c < lo + Z.of_nat n -> P c = true.
Proof.
  intros H c Hc. rewrite forallb_forall in H. apply H.
  apply in_map_iff. exists (Z.to_nat (c - lo)).
  split; [rewrite Z2Nat.id; lia|]. apply in_seq. lia.
Qed.

(** ** Lowercasing *)

Lemma lower_sources_ok : forallb lowerOk (sourcesOf lowerTable) = true.
Proof. vm_compute. reflexivity. Qed.

Lemma lower_strides : forallb (fun e => 0 <? strideOf e) lowerTable = true.
Proof. vm_compute. reflexivity. Qed.

Lemma simpleLower_cases (c : Z) : lowerOk c = true \/ simpleLower c = c.
Proof.
  destruct (mapByTable_cases lowerTable c lower_strides) as [H | H];
    [left | now right].
  pose proof lower_sources_ok as Hok. rewrite forallb_forall in Hok.
  now apply Hok.
Qed.

Lemma simpleLower_settled (c : Z) : settled (simpleLower c) = true.
Proof.
  destruct (simpleLower_cases c) as [H | H].
  - unfold lowerOk in H. cbv zeta in H.
    now rewrite !andb_true_iff in H.
  - rewrite H. unfold settled. rewrite H, Z.eqb_refl, andb_true_r.
    destruct (Z.eqb_spec c 0x3A3) as [->|_]; [discriminate H|].
    destruct (Z.eqb_spec c 0x130) as [->|_]; [discriminate H|].
    reflexivity.
Qed.

Lemma lowerPoint_settled (before : list Z) (c : Z) (after : list Z) :
  forallb settled (lowerPoint before c after) = true.
Proof.
  unfold lowerPoint.
  destruct (c =? 0x3A3); [now destruct (finalSigma before after)|].
  destruct (c =? 0x130); [reflexivity|].
  cbn [forallb]. now rewrite simpleLower_settled.
Qed.

Lemma lowerPoints_settled (before cps : list Z) :
  forallb settled (lowerPoints before cps) = true.
Proof.
  revert before. induction cps as [|c cps IH]; intros before; [reflexivity|].
  cbn [lowerPoints]. now rewrite forallb_app, lowerPoint_settled, IH.
Qed.

Lemma lowerPoints_fixed (before cps : list Z) :
  forallb settled cps = true -> lowerPoints before cps = cps.
Proof.
  revert before. induction cps as [|c cps IH]; intros before; [reflexivity|].
  cbn [forallb lowerPoints]. rewrite andb_true_iff. intros [Hc Hs].
  rewrite (IH _ Hs). unfold settled in Hc.
  rewrite !andb_true_iff, !negb_true_iff, Z.eqb_eq in Hc.
  destruct Hc as [[H1 H2] H3]. unfold lowerPoint. now rewrite H1, H2, H3.
Qed.

Lemma simpleLower_surrogate (c : Z) :
  isSurrogate (simpleLower c) = isSurrogate c.
Proof.
  destruct (simpleLower_cases c) as [H | ->]; [|reflexivity].
  unfold lowerOk in H. cbv zeta in H.
  rewrite !andb_true_iff, !negb_true_iff in H.
  destruct H as [[[_ Ht] Hc] _]. now rewrite Ht, Hc.
Qed.

Lemma simpleLower_plane (c : Z) :
  isSupplementary (simpleLower c) = isSupplementary c.
Proof.
  destruct (simpleLower_cases c) as [H | ->]; [|reflexivity].
  unfold lowerOk in H. cbv zeta in H.
  rewrite !andb_true_iff in H. destruct H as [_ H].
  now apply eqb_prop in H.
Qed.

Lemma simpleLower_folded (c : Z) :
  folded c = true -> folded (simpleLower c) = true.
Proof.
  destruct (simpleLower_cases c) as [H | ->]; [|trivial].
  unfold lowerOk in H. cbv zeta in H.
  rewrite !andb_true_iff in H. now destruct H as [[[[_ H] _] _] _].
Qed.

(** A surrogate is its own lowercase form; the forms of other code points
    hold no surrogate. *)
Lemma lowerPoint_surrogate (before : list Z) (c : Z) (after : list Z) :
  isSurrogate c = true -> lowerPoint before c after = [c].
Proof.
  intros H. pose proof (proj1 (surrogate_range c) H) as Hr.
  unfold lowerPoint.
  destruct (Z.eqb_spec c 0x3A3); [lia|]. destruct (Z.eqb_spec c 0x130); [lia|].
  destruct (simpleLower_cases c) as [Hok | ->]; [|reflexivity].
  unfold lowerOk in Hok. cbv zeta in Hok.
  rewrite !andb_true_iff, !negb_true_iff in Hok.
  destruct Hok as [[_ Hc] _]. congruence.
Qed.

Lemma lowerPoint_no_surrogate (before : list Z) (c : Z) (after : list Z) :
  isSurrogate c = false ->
  forallb (fun q => negb (isSurrogate q)) (lowerPoint before c after) = true.
Proof.
  intros H. unfold lowerPoint.
  destruct (c =? 0x3A3); [now destruct (finalSigma before after)|].
  destruct (c =? 0x130); [reflexivity|].
  cbn [forallb]. now rewrite simpleLower_surrogate, H.
Qed.

Lemma lowerPoint_nonempty (before : list Z) (c : Z) (after : list Z) :
  lowerPoint before c after <> [].
Proof.
  unfold lowerPoint.
  destruct (c =? 0x3A3); [discriminate|].
  destruct (c =? 0x130); discriminate.
Qed.

Lemma surrogate_high (c : Z) : isHighSurrogate c = true -> isSurrogate c = true.
Proof. rewrite highSurrogate_range, surrogate_range. lia. Qed.

Lemma surrogate_low (c : Z) : isLowSurrogate c = true -> isSurrogate c = true.
Proof. rewrite lowSurrogate_range, surrogate_range. lia. Qed.

(** Where the lowercase form of a list starts with a low surrogate, the
    list starts with that surrogate. *)
Lemma lowerPoints_head_low (before cps : list Z) (x : Z) (t : list Z) :
  lowerPoints before cps = x :: t -> isLowSurrogate x = true ->
  exists rest, cps = x :: rest.
Proof.
  destruct cps as [|c rest]; [discriminate|]. cbn [lowerPoints].
  intros H Hx. exists rest. f_equal.
  destruct (isSurrogate c) eqn:Ec.
  - rewrite (lowerPoint_surrogate _ _ _ Ec) in H. now injection H.
  - pose proof (lowerPoint_no_surrogate before c rest Ec) as Hn.
    destruct (lowerPoint before c rest) as [|y l] eqn:El;
      [now apply lowerPoint_nonempty in El|].
    injection H as -> _. cbn [forallb] in Hn.
    rewrite (surrogate_low _ Hx) in Hn. discriminate.
Qed.

Lemma wellPaired_app (out tail : list Z) :
  forallb (fun q => negb (isSurrogate q)) out = true ->
  wellPaired tail = true -> wellPaired (out ++ tail) = true.
Proof.
  intros Hout Htail. induction out as [|q out IH]; [exact Htail|].
  cbn [forallb] in Hout. apply andb_true_iff in Hout as [Hq Hout].
  cbn [app wellPaired]. rewrite (IH Hout), andb_true_r.
  destruct (out ++ tail); [reflexivity|].
  apply negb_true_iff, andb_false_iff. left.
  apply not_true_iff_false. intros Hh.
  rewrite (surrogate_high _ Hh) in Hq. discriminate.
Qed.

Lemma wellPaired_lowerPoints (before cps : list Z) :
  wellPaired cps = true -> wellPaired (lowerPoints before cps) = true.
Proof.
  revert before. induction cps as [|c rest IH]; intros before Hw; [reflexivity|].
  assert (Hrest : wellPaired rest = true).
  { cbn [wellPaired] in Hw. now apply andb_true_iff in Hw as [_ Hw]. }
  cbn [lowerPoints]. destruct (isSurrogate c) eqn:Ec.
  - rewrite (lowerPoint_surrogate _ _ _ Ec). cbn [app wellPaired].
    rewrite (IH _ Hrest), andb_true_r.
    destruct (lowerPoints (c :: before) rest) as [|x t] eqn:El; [reflexivity|].
    apply negb_true_iff, not_true_iff_false. intros Hp.
    apply andb_true_iff in Hp as [Hh Hl].
    destruct (lowerPoints_head_low _ _ _ _ El Hl) as [rest' ->].
    cbn [wellPaired] in Hw. apply andb_true_iff in Hw as [Hw _].
    rewrite Hh, Hl in Hw. discriminate.
  - apply wellPaired_app; [now apply lowerPoint_no_surrogate | now apply IH].
Qed.

Lemma codePoints_toLowerCase (s : jsstring) :
  codePoints (toLowerCase s) = lowerPoints [] (codePoints s).
Proof.
  unfold toLowerCase. apply codePoints_fromCodePoints.
  apply wellPaired_lowerPoints, wellPaired_codePoints.
Qed.

Lemma toLowerCase_idempotent (s : jsstring) :
  toLowerCase (toLowerCase s) = toLowerCase s.
Proof.
  unfold toLowerCase at 1. rewrite codePoints_toLowerCase.
  rewrite lowerPoints_fixed by apply lowerPoints_settled. reflexivity.
Qed.

(** *** The Arabic steps and the lowercasing *)

Lemma folded_high (c : Z) : 0xD800 <= c -> folded c = true.
Proof.
  intros H. unfold folded.
  destruct (Z.eqb_spec c 0x623); [lia|]. destruct (Z.eqb_spec c 0x625); [lia|].
  destruct (Z.eqb_spec c 0x622); [lia|]. destruct (Z.eqb_spec c 0x629); [lia|].
  destruct (Z.eqb_spec c 0x649); [lia|]. destruct (Z.leb_spec c 0x65F); [lia|].
  cbn. now rewrite andb_false_r.
Qed.

Lemma codePoints_folded (s : jsstring) :
  forallb folded s = true -> forallb folded (codePoints s) = true.
Proof.
  induction s as [| h | h l s E IH | h l s E IH] using codePoints_ind;
    try (intros H; exact H).
  - cbn [forallb codePoints]. rewrite E, !andb_true_iff.
    intros (_ & _ & Hs). cbn [forallb]. rewrite (IH Hs), andb_true_r.
    apply folded_high. pose proof (pair_supplementary h l E). lia.
  - rewrite codePoints_lone by exact E.
    change (forallb folded (h :: l :: s)) with (folded h && forallb folded (l :: s)).
    change (forallb folded (h :: codePoints (l :: s)))
      with (folded h && forallb folded (codePoints (l :: s))).
    intros H. apply andb_true_iff in H as [Hh Hs].
    now rewrite Hh, (IH Hs).
Qed.

Lemma lowerPoints_folded (before cps : list Z) :
  forallb folded cps = true -> forallb folded (lowerPoints before cps) = true.
Proof.
  revert before. induction cps as [|c cps IH]; intros before; [reflexivity|].
  cbn [forallb lowerPoints]. rewrite andb_true_iff. intros [Hc Hs].
  rewrite forallb_app, (IH _ Hs), andb_true_r. unfold lowerPoint.
  destruct (c =? 0x3A3); [now destruct (finalSigma before cps)|].
  destruct (c =? 0x130); [reflexivity|].
  cbn [forallb]. now rewrite (simpleLower_folded c Hc).
Qed.

Lemma fromCodePoints_folded (cps : list Z) :
  forallb folded cps = true -> forallb folded (fromCodePoints cps) = true.
Proof.
  unfold fromCodePoints. induction cps as [|q cps IH]; [reflexivity|].
  cbn [forallb flat_map]. rewrite andb_true_iff. intros [Hq Hs].
  rewrite forallb_app, (IH Hs), andb_true_r.
  destruct (isSupplementary q) eqn:Es.
  - destruct (codeUnits_supplementary q Es) as (h & l & -> & Ep & _).
    apply andb_true_iff in Ep as [Eh El].
    apply highSurrogate_range in Eh. apply lowSurrogate_range in El.
    cbn [forallb]. rewrite !folded_high by lia. reflexivity.
  - unfold codeUnits. rewrite Es. cbn [forallb]. now rewrite Hq.
Qed.

Lemma toLowerCase_folded (s : jsstring) :
  forallb folded s = true -> forallb folded (toLowerCase s) = true.
Proof.
  intros H. unfold toLowerCase.
  now apply fromCodePoints_folded, lowerPoints_folded, codePoints_folded.
Qed.

(** *** A space keeps the two sides of a string apart *)

Lemma casedLetterNext_app (x : Z) (p z : list Z) :
  isCaseIgnorable x = false -> isCased x = false ->
  casedLetterNext (p ++ x :: z) = casedLetterNext p.
Proof.
  intros Hi Hc. induction p as [|c p IH].
  - cbn [app casedLetterNext]. now rewrite Hi, Hc.
  - cbn [app casedLetterNext]. now rewrite IH.
Qed.

Lemma lowerPoints_before (b1 b2 cps : list Z) :
  (forall p, casedLetterNext (p ++ b1) = casedLetterNext (p ++ b2)) ->
  lowerPoints b1 cps = lowerPoints b2 cps.
Proof.
  revert b1 b2. induction cps as [|c cps IH]; intros b1 b2 H; [reflexivity|].
  cbn [lowerPoints]. f_equal.
  - unfold lowerPoint, finalSigma. pose proof (H []) as H0.
    cbn [app] in H0. now rewrite H0.
  - apply IH. intros p.
    change (c :: b1) with ([c] ++ b1). change (c :: b2) with ([c] ++ b2).
    rewrite !app_assoc. apply H.
Qed.

Lemma lowerPoints_app (x : Z) (before a b : list Z) :
  isCaseIgnorable x = false -> isCased x = false ->
  x <> 0x3A3 -> x <> 0x130 ->
  lowerPoints before (a ++ x :: b)
  = lowerPoints before a ++ simpleLower x :: lowerPoints [] b.
Proof.
  intros Hi Hc H1 H2. revert before.
  induction a as [|c a IH]; intros before.
  - cbn [app lowerPoints]. unfold lowerPoint.
    rewrite (proj2 (Z.eqb_neq _ _) H1), (proj2 (Z.eqb_neq _ _) H2).
    cbn [app]. f_equal. apply lowerPoints_before. intros p.
    rewrite app_nil_r. now apply casedLetterNext_app.
  - cbn [app lowerPoints]. rewrite IH, <- app_assoc. f_equal.
    unfold lowerPoint, finalSigma. now rewrite casedLetterNext_app.
Qed.

Lemma toLowerCase_space (a b : jsstring) :
  toLowerCase (a ++ 32 :: b) = toLowerCase a ++ 32 :: toLowerCase b.
Proof.
  unfold toLowerCase, fromCodePoints.
  rewrite codePoints_app by reflexivity.
  rewrite (lowerPoints_app 32) by (reflexivity || discriminate).
  rewrite flat_map_app. reflexivity.
Qed.

(** *** Strings without surrogates and special casing *)

Lemma toLowerCase_plain (s : jsstring) :
  forallb plainUnit s = true -> toLowerCase s = map simpleLower s.
Proof.
  intros H. unfold toLowerCase.
  rewrite codePoints_plain.
  2:{ rewrite forallb_forall in *. intros c Hc. specialize (H c Hc).
      unfold plainUnit in H. now rewrite !andb_true_iff in H. }
  generalize (@nil Z). unfold fromCodePoints.
  induction s as [|c s IH]; intros before; [reflexivity|].
  cbn [forallb] in H. apply andb_true_iff in H as [Hc Hs].
  cbn [lowerPoints map]. rewrite flat_map_app, (IH Hs).
  unfold plainUnit in Hc. rewrite !andb_true_iff, !negb_true_iff in Hc.
  destruct Hc as [[[_ Hp] H1] H2]. unfold lowerPoint. rewrite H1, H2.
  cbn [flat_map]. unfold codeUnits. rewrite simpleLower_plane, Hp.
  reflexivity.
Qed.

Lemma simpleLower_ascii (c : Z) :
  0 <= c < 128 -> simpleLower c = if inRange 65 90 c then c + 32 else c.
Proof.
  intros Hc.
  apply Z.eqb_eq.
  apply (forall_range
           (fun c => simpleLower c =? (if inRange 65 90 c then c + 32 else c))
           0 128); [vm_compute; reflexivity | lia].
Qed.

Lemma simpleLower_arabic (c : Z) : 0x600 <= c <= 0x6FF -> simpleLower c = c.
Proof.
  intros Hc. apply Z.eqb_eq.
  apply (forall_range (fun c => simpleLower c =? c) 0x600 256);
    [vm_compute; reflexivity | lia].
Qed.

Lemma toLowerCase_ascii (s : jsstring) :
  Forall (fun c => 0 <= c < 128) s ->
  toLowerCase s = map (fun c => if inRange 65 90 c then c + 32 else c) s.
Proof.
  intros H. rewrite toLowerCase_plain.
  - apply map_ext_in. intros c Hc. apply simpleLower_ascii.
    rewrite Forall_forall in H. now apply H.
  - apply forallb_forall. intros c Hc. rewrite Forall_forall in H.
    specialize (H c Hc). unfold plainUnit, isHighSurrogate, isSupplementary, inRange.
    destruct (Z.leb_spec 0xD800 c); [lia|]. destruct (Z.leb_spec 0x10000 c); [lia|].
    destruct (Z.eqb_spec c 0x3A3); [lia|]. destruct (Z.eqb_spec c 0x130); [lia|].
    reflexivity.
Qed.

Lemma toLowerCase_arabic (s : jsstring) :
  Forall (fun c => 0x600 <= c <= 0x6FF) s -> toLowerCase s = s.
Proof.
  intros H. rewrite toLowerCase_plain.
  - rewrite <- (map_id s) at 2. apply map_ext_in. intros c Hc.
    apply simpleLower_arabic. rewrite Forall_forall in H. now apply H.
  - apply forallb_forall. intros c Hc. rewrite Forall_forall in H.
    specialize (H c Hc). unfold plainUnit, isHighSurrogate, isSupplementary, inRange.
    destruct (Z.leb_spec 0xD800 c); [lia|]. destruct (Z.leb_spec 0x10000 c); [lia|].
    destruct (Z.eqb_spec c 0x3A3); [lia|]. destruct (Z.eqb_spec c 0x130); [lia|].
    reflexivity.
Qed.

(** Latin Extended-A, the final sigma, the capital I with dot above, a
    letter above U+FFFF and a lone surrogate. *)
Example toLowerCase_latin_extended :
  toLowerCase (js "Sūrat Āl ʿImrān") = js "sūrat āl ʿimrān".
Proof. vm_compute. reflexivity. Qed.

Example toLowerCase_final_sigma :
  toLowerCase [0x39F; 0x394; 0x39F; 0x3A3; 32; 0x3A3]
  = [0x3BF; 0x3B4; 0x3BF; 0x3C2; 32; 0x3C3].
Proof. vm_compute. reflexivity. Qed.

Example toLowerCase_dotted_I : toLowerCase [0x130] = [0x69; 0x307].
Proof. vm_compute. reflexivity. Qed.

Example toLowerCase_deseret :
  toLowerCase [0xD801; 0xDC00; 0xDC00] = [0xD801; 0xDC28; 0xDC00].
Proof. vm_compute. reflexivity. Qed.

(** ** C7 *)

(** C7.  For every input string, [normalizeArabic] is the composition, in
    this order, of the five steps of the specification: the hamza-bearing
    alef variants to bare alef, taa marbuta to haa, alef maksura to yaa, the
    diacritics U+064B to U+065F stripped, the result lowercased.  The last
    step is the lowercasing of Unicode: it turns the capital letters of
    Basic Latin into the small ones and leaves the rest of Basic Latin and
    the Arabic block as they are. *)
Theorem normalizeArabic_is_the_five_steps (text : jsstring) :
  normalizeArabic text
  = toLowerCase
      (spec_stripDiacritics
         (spec_alefMaksura (spec_taaMarbuta (spec_unifyAlef text))))
  /\ (forall s, Forall (fun c => 0 <= c < 128) s ->
                toLowerCase s
                = map (fun c => if (65 <=? c) && (c <=? 90) then c + 32 else c) s)
  /\ (forall s, Forall (fun c => 0x600 <= c <= 0x6FF) s -> toLowerCase s = s)
  /\ toLowerCase (js "SŪRAT ĀL ʿIMRĀN") = js "sūrat āl ʿimrān".
Proof.
  split; [apply normalizeArabic_unfold|].
  split; [exact toLowerCase_ascii|].
  split; [exact toLowerCase_arabic|].
  vm_compute. reflexivity.
Qed.

Lemma normalizeArabic_is_the_five_steps_witness :
  toLowerCase (js "Al-Baqarah") = js "al-baqarah".
Proof.
  rewrite (proj1 (proj2 (normalizeArabic_is_the_five_steps [])) (js "Al-Baqarah")).
  - reflexivity.
  - assert (H : forallb (fun c => (0 <=? c) && (c <? 128)) (js "Al-Baqarah")
                = true) by (vm_compute; reflexivity).
    apply Forall_forall. intros c Hc.
    rewrite forallb_forall in H. specialize (H c Hc).
    apply andb_true_iff in H as [H1 H2].
    apply Z.leb_le in H1. apply Z.ltb_lt in H2. lia.
Defined.

(** ** C6 *)

Ltac zcases :=
  repeat match goal with
    | |- context [?a =? ?b] => destruct (Z.eqb_spec a b)
    | |- context [?a <=? ?b] => destruct (Z.leb_spec a b)
    | H : context [?a =? ?b] |- _ => destruct (Z.eqb_spec a b)
    | H : context [?a <=? ?b] |- _ => destruct (Z.leb_spec a b)
    end;
  simpl in *; try reflexivity; try discriminate; try lia.

Lemma arabicSteps_cons (c : Z) (s : jsstring) :
  spec_arabicSteps (c :: s) = spec_arabicSteps [c] ++ spec_arabicSteps s.
Proof.
  unfold spec_arabicSteps, spec_stripDiacritics, spec_alefMaksura,
    spec_taaMarbuta, spec_unifyAlef.
  simpl. now destruct (negb _).
Qed.

(** What the Arabic steps produce is untouched by them. *)
Lemma arabicSteps_folded (s : jsstring) :
  forallb folded (spec_arabicSteps s) = true.
Proof.
  induction s as [|c s IH]; [reflexivity|].
  rewrite arabicSteps_cons, forallb_app, IH, andb_true_r.
  unfold spec_arabicSteps, spec_stripDiacritics, spec_alefMaksura,
    spec_taaMarbuta, spec_unifyAlef, folded.
  simpl. zcases.
Qed.

Lemma arabicSteps_fixed (s : jsstring) :
  forallb folded s = true -> spec_arabicSteps s = s.
Proof.
  induction s as [|c s IH]; [reflexivity|].
  simpl. rewrite andb_true_iff. intros [Hc Hs].
  rewrite arabicSteps_cons, (IH Hs).
  unfold spec_arabicSteps, spec_stripDiacritics, spec_alefMaksura,
    spec_taaMarbuta, spec_unifyAlef, folded in *.
  simpl. zcases.
Qed.

(** Idempotence needs two facts only about the lowercasing: it is
    idempotent itself, and it introduces none of the code units the Arabic
    steps rewrite.  Both hold of the Unicode case conversion, whose results
    are lowercase letters and (for U+0130) the combining dot U+0307. *)
Section CaseConversion.

Variable lower : jsstring -> jsstring.
Hypothesis lower_idempotent : forall s, lower (lower s) = lower s.
Hypothesis lower_folded :
  forall s, forallb folded s = true -> forallb folded (lower s) = true.

Lemma fold_then_lower_idempotent (x : jsstring) :
  lower (spec_arabicSteps (lower (spec_arabicSteps x)))
  = lower (spec_arabicSteps x).
Proof.
  rewrite (arabicSteps_fixed (lower (spec_arabicSteps x))).
  - apply lower_idempotent.
  - apply lower_folded, arabicSteps_folded.
Qed.

End CaseConversion.

(** C6.  [normalizeArabic] is idempotent, and it gives the hamza spelling
    and the bare-alef spelling of the name Ahmad the same form. *)
Theorem normalizeArabic_idempotent :
  (forall x, normalizeArabic (normalizeArabic x) = normalizeArabic x)
  /\ normalizeArabic (js "أحمد") = normalizeArabic (js "احمد").
Proof.
  split; [|reflexivity].
  intros x. rewrite !normalizeArabic_unfold.
  apply (fold_then_lower_idempotent toLowerCase
           toLowerCase_idempotent toLowerCase_folded).
Qed.

(** ** The title parser *)

Lemma findIndexFrom_spec {A} (P : A -> bool) (l : list A) (i : Z) :
  findIndexFrom P l i
  = match indexOfFirst P l with
    | Some k => i + Z.of_nat k
    | None => -1
    end.
Proof.
  revert i. induction l as [|x l IH]; intros i; simpl; [reflexivity|].
  destruct (P x); [lia|].
  rewrite IH. destruct (indexOfFirst P l); simpl; lia.
Qed.

Lemma findIndex_spec {A} (P : A -> bool) (l : list A) :
  findIndex P l
  = match indexOfFirst P l with
    | Some k => Z.of_nat k
    | None => -1
    end.
Proof.
  unfold findIndex. rewrite findIndexFrom_spec.
  now destruct (indexOfFirst P l).
Qed.

(** [indexOfFirst] is the position of the element [find] returns. *)
Lemma indexOfFirst_find {A} (P : A -> bool) (d : A) (l : list A) :
  match indexOfFirst P l with
  | Some k => find P l = Some (nth k l d) /\ (k < List.length l)%nat
  | None => find P l = None
  end.
Proof.
  induction l as [|x l IH]; simpl; [reflexivity|].
  destruct (P x); [split; [reflexivity | lia]|].
  destruct (indexOfFirst P l); simpl; [|assumption].
  destruct IH; split; [assumption | lia].
Qed.

Lemma find_holds {A} (P : A -> bool) (l : list A) (x : A) :
  find P l = Some x -> P x = true.
Proof. intros H. now apply find_some in H. Qed.

Lemma at_nat (parts : list jsstring) (k : nat) :
  at_ parts (Z.of_nat k) = nth k parts [].
Proof.
  unfold at_. destruct (Z.ltb_spec (Z.of_nat k) 0); [lia|].
  now rewrite Nat2Z.id.
Qed.

Lemma filterIndexFrom_spec {A} (keep : Z -> bool) (l : list A) (n : nat) :
  filterIndexFrom keep l (Z.of_nat n)
  = map snd
      (filter (fun ip => keep (Z.of_nat (fst ip)))
              (combine (seq n (List.length l)) l)).
Proof.
  revert n. induction l as [|x l IH]; intros n; simpl; [reflexivity|].
  replace (Z.of_nat n + 1) with (Z.of_nat (S n)) by lia.
  rewrite IH. now destruct (keep (Z.of_nat n)).
Qed.

Lemma differs_from_index (o : option nat) (i : nat) :
  negb (Z.of_nat i =? indexZ o) = negb (isIndex o i).
Proof.
  destruct o as [k|]; simpl.
  - destruct (Z.eqb_spec (Z.of_nat i) (Z.of_nat k)), (Nat.eqb_spec k i);
      try reflexivity; lia.
  - destruct (Z.eqb_spec (Z.of_nat i) (-1)); [lia | reflexivity].
Qed.

Lemma filterIndex_outside (a e : option nat) (parts : list jsstring) :
  filterIndex (fun i => negb (i =? indexZ a) && negb (i =? indexZ e)) parts
  = segmentsOutside a e parts.
Proof.
  unfold filterIndex, segmentsOutside.
  rewrite (filterIndexFrom_spec _ parts 0). f_equal.
  apply filter_ext. intros [i p]. simpl.
  now rewrite !differs_from_index.
Qed.

Lemma includes_nil (p : jsstring) : p <> [] -> includes p [] = false.
Proof. destruct p; [congruence | reflexivity]. Qed.

Lemma arabicMarker_nonempty (p : jsstring) :
  hasArabicMarker p = true -> isEmpty p = false.
Proof. destruct p; [discriminate | reflexivity]. Qed.

Lemma englishMarker_nonempty (p : jsstring) :
  hasEnglishMarker p = true -> isEmpty p = false.
Proof. destruct p; [discriminate | reflexivity]. Qed.

Lemma markerLabels_spec (parts : list jsstring) :
  markerLabels parts
  = mkLabels
      (match markedSegment parts with Some p => p | None => [] end)
      (trim (join (js " ")
               (segmentsOutside (indexOfFirst hasArabicMarker parts)
                                (indexOfFirst hasEnglishMarker parts) parts))).
Proof.
  unfold markerLabels, markedSegment.
  rewrite !findIndex_spec.
  change (match indexOfFirst hasArabicMarker parts with
          | Some k => Z.of_nat k | None => -1 end)
    with (indexZ (indexOfFirst hasArabicMarker parts)).
  change (match indexOfFirst hasEnglishMarker parts with
          | Some k => Z.of_nat k | None => -1 end)
    with (indexZ (indexOfFirst hasEnglishMarker parts)).
  rewrite filterIndex_outside. f_equal.
  pose proof (indexOfFirst_find hasArabicMarker [] parts) as HA.
  pose proof (indexOfFirst_find hasEnglishMarker [] parts) as HE.
  destruct (indexOfFirst hasArabicMarker parts) as [a|];
    destruct (indexOfFirst hasEnglishMarker parts) as [e|]; simpl indexZ.
  - destruct HA as [HA _]. rewrite HA.
    replace (Z.of_nat a =? -1) with false by (symmetry; apply Z.eqb_neq; lia).
    simpl negb. cbv iota. rewrite at_nat.
    now rewrite (arabicMarker_nonempty _ (find_holds _ _ _ HA)).
  - destruct HA as [HA _]. rewrite HA.
    replace (Z.of_nat a =? -1) with false by (symmetry; apply Z.eqb_neq; lia).
    simpl. rewrite at_nat. now rewrite andb_false_r.
  - destruct HE as [HE _]. rewrite HA, HE. simpl.
    replace (Z.of_nat e =? -1) with false by (symmetry; apply Z.eqb_neq; lia).
    simpl. now rewrite at_nat.
  - rewrite HA, HE. reflexivity.
Qed.

Lemma markedSegment_nonempty (parts : list jsstring) (p : jsstring) :
  markedSegment parts = Some p -> isEmpty p = false.
Proof.
  unfold markedSegment.
  destruct (find hasArabicMarker parts) as [q|] eqn:HA.
  - intros [= <-]. eapply arabicMarker_nonempty, find_holds, HA.
  - intros HE. eapply englishMarker_nonempty, find_holds, HE.
Qed.

(** With a marker found, the fallback leaves the labels alone. *)
Lemma rawLabels_marked (fullTitle p : jsstring) :
  markedSegment (splitTitle fullTitle) = Some p ->
  rawLabels fullTitle = markerLabels (splitTitle fullTitle)
  /\ surah (rawLabels fullTitle) = p.
Proof.
  intros H. unfold rawLabels, fallbackLabels.
  rewrite markerLabels_spec, H. simpl surah.
  rewrite (markedSegment_nonempty _ _ H). simpl. auto.
Qed.

(** Without a marker the fallback takes the first segment and joins the
    others, untrimmed. *)
Lemma rawLabels_unmarked (fullTitle p : jsstring) (rest : list jsstring) :
  splitTitle fullTitle = p :: rest ->
  markedSegment (p :: rest) = None ->
  rawLabels fullTitle = mkLabels p (join (js " ") rest).
Proof.
  intros Hs Hm. unfold rawLabels, fallbackLabels.
  rewrite Hs, markerLabels_spec, Hm. reflexivity.
Qed.

Lemma splitTitle_pieces (fullTitle : jsstring) :
  splitTitle fullTitle = map trim (split 124 (spec_barsForDashes fullTitle)).
Proof. unfold splitTitle. now rewrite replaceLiteral_bars. Qed.

(** ** C1 *)

(** C1, as the code has it.  The pieces of a title are what lies between
    the bars "|" once every " - " has become " | ": joined by bars they
    give that string back and none holds a bar; the segments are the
    pieces, each without the white space at its two ends.  When a segment
    contains the Arabic marker, the first such segment is the chapter label
    returned; otherwise, when the lowercase form of a segment contains
    "surah", the first such segment is; in both cases the reciter label
    before the sentinel substitution is the trimmed space-join, in the
    original order, of the segments whose index is neither the first
    Arabic-marker index nor the first English-marker index.  When no
    segment carries a marker, the first segment is the chapter label and
    the reciter label is the space-join of the other segments, not
    trimmed. *)
Theorem title_markers_decide_labels (fullTitle : jsstring) :
  let pieces := split 124 (spec_barsForDashes fullTitle) in
  let parts := map trim pieces in
  let joined :=
    trim (join (js " ")
            (segmentsOutside (indexOfFirst hasArabicMarker parts)
                             (indexOfFirst hasEnglishMarker parts) parts)) in
  (pieces <> []
   /\ join (js "|") pieces = spec_barsForDashes fullTitle
   /\ Forall (fun piece => ~ In 124 piece /\ spec_trimmed piece (trim piece))
             pieces
   /\ splitTitle fullTitle = parts)
  /\ match find hasArabicMarker parts with
     | Some p =>
         surah (parseTitle fullTitle) = p
         /\ reciter (rawLabels fullTitle) = joined
     | None =>
         match find hasEnglishMarker parts with
         | Some p =>
             surah (parseTitle fullTitle) = p
             /\ reciter (rawLabels fullTitle) = joined
         | None =>
             rawLabels fullTitle
             = mkLabels (hd [] parts) (join (js " ") (tl parts))
         end
     end.
Proof.
  intros pieces parts joined.
  assert (Hparts : splitTitle fullTitle = parts) by apply splitTitle_pieces.
  split.
  - split; [apply split_nonempty|]. split; [apply (split_join 124)|].
    split; [|exact Hparts].
    apply Forall_forall. intros piece Hin. split.
    + exact (proj1 (Forall_forall _ _) (split_free 124 _) piece Hin).
    + apply trim_trimmed.
  - assert (Hm : forall p, markedSegment parts = Some p ->
                   surah (parseTitle fullTitle) = p
                   /\ reciter (rawLabels fullTitle) = joined).
    { intros p Hp. rewrite <- Hparts in Hp.
      destruct (rawLabels_marked fullTitle p Hp) as [Hr Hs].
      split; [exact Hs|]. rewrite Hr, markerLabels_spec, Hparts. reflexivity. }
    assert (Hu : markedSegment parts = None ->
                 rawLabels fullTitle
                 = mkLabels (hd [] parts) (join (js " ") (tl parts))).
    { intros Hn. destruct parts as [|p rest] eqn:E.
      - apply map_eq_nil in E. now apply split_nonempty in E.
      - now apply rawLabels_unmarked. }
    unfold markedSegment in Hm, Hu.
    destruct (find hasArabicMarker parts) as [p|]; [now apply Hm|].
    destruct (find hasEnglishMarker parts) as [p|]; [now apply Hm|].
    now apply Hu.
Qed.

Lemma title_markers_decide_labels_witness :
  surah (parseTitle (js "Surah Yasin - Sheikh Ahmad - HQ")) = js "Surah Yasin"
  /\ reciter (rawLabels (js "Surah Yasin - Sheikh Ahmad - HQ"))
     = js "Sheikh Ahmad HQ".
Proof.
  pose proof (title_markers_decide_labels
                (js "Surah Yasin - Sheikh Ahmad - HQ")) as H.
  cbv zeta in H. destruct H as [_ H].
  assert (HA : find hasArabicMarker
                 (map trim (split 124 (spec_barsForDashes
                                         (js "Surah Yasin - Sheikh Ahmad - HQ"))))
               = None) by (vm_compute; reflexivity).
  assert (HE : find hasEnglishMarker
                 (map trim (split 124 (spec_barsForDashes
                                         (js "Surah Yasin - Sheikh Ahmad - HQ"))))
               = Some (js "Surah Yasin")) by (vm_compute; reflexivity).
  rewrite HA, HE in H. destruct H as [Hs Hr].
  split; [exact Hs|]. rewrite Hr. vm_compute. reflexivity.
Defined.

(** C1 as it is worded fails on a title without a marker: in "abc | def"
    no index is a marker index, so the trimmed space-join of the segments
    outside the marker indices is "abc def"; the code takes the first
    segment as the chapter label and leaves "def" as the reciter label. *)
Lemma unmarked_title_counterexample :
  let parts := splitTitle (js "abc | def") in
  parts = [js "abc"; js "def"]
  /\ indexOfFirst hasArabicMarker parts = None
  /\ indexOfFirst hasEnglishMarker parts = None
  /\ trim (join (js " ")
             (segmentsOutside (indexOfFirst hasArabicMarker parts)
                              (indexOfFirst hasEnglishMarker parts) parts))
     = js "abc def"
  /\ reciter (rawLabels (js "abc | def")) = js "def"
  /\ reciter (rawLabels (js "abc | def"))
     <> trim (join (js " ")
                (segmentsOutside (indexOfFirst hasArabicMarker parts)
                                 (indexOfFirst hasEnglishMarker parts) parts)).
Proof.
  vm_compute. repeat split. discriminate.
Qed.

Lemma replaceLiteral_absent (pat rep s : jsstring) :
  includes pat s = false -> replaceLiteral pat rep s O = s.
Proof.
  induction s as [|c s IH]; [reflexivity|].
  cbn [includes replaceLiteral]. intros H.
  apply orb_false_iff in H as [H1 H2].
  rewrite H1. f_equal. now apply IH.
Qed.

Lemma split_absent (sep : Z) (s : jsstring) :
  includes [sep] s = false -> split sep s = [s].
Proof.
  induction s as [|c s IH]; [reflexivity|].
  cbn [includes split startsWith]. intros H.
  apply orb_false_iff in H as [H1 H2].
  rewrite andb_true_r, Z.eqb_sym in H1. rewrite H1, (IH H2). reflexivity.
Qed.

Lemma splitTitle_single (fullTitle : jsstring) :
  includes (js "|") fullTitle = false ->
  includes (js " - ") fullTitle = false ->
  splitTitle fullTitle = [trim fullTitle].
Proof.
  intros Hbar Hdash. unfold splitTitle.
  rewrite (replaceLiteral_absent _ _ _ Hdash).
  now rewrite (split_absent 124 fullTitle Hbar).
Qed.

(** A single segment is the chapter label, marker or not, and leaves no
    reciter. *)
Lemma rawLabels_single (fullTitle p : jsstring) :
  splitTitle fullTitle = [p] -> rawLabels fullTitle = mkLabels p [].
Proof.
  intros Hs. unfold rawLabels. rewrite Hs.
  unfold markerLabels, fallbackLabels, findIndex, filterIndex.
  cbn [findIndexFrom filterIndexFrom].
  destruct (hasArabicMarker p) eqn:HA; destruct (hasEnglishMarker p) eqn:HE;
    cbn; destruct p; reflexivity || discriminate.
Qed.

(** ** C9 *)

(** C9.  A title with no "|" and no " - " splits into one segment; the
    parser returns that segment, trimmed, as the chapter label and the
    sentinel as the reciter.  So it is for the title that is the Arabic
    "unknown reciter" literal. *)
Theorem single_segment_title :
  (forall fullTitle,
      includes (js "|") fullTitle = false ->
      includes (js " - ") fullTitle = false ->
      splitTitle fullTitle = [trim fullTitle]
      /\ parseTitle fullTitle = mkLabels (trim fullTitle) (js "تلاوات عامة"))
  /\ reciter (parseTitle (js "القارئ غير معروف")) = js "تلاوات عامة".
Proof.
  split; [|reflexivity].
  intros fullTitle Hbar Hdash.
  pose proof (splitTitle_single fullTitle Hbar Hdash) as Hs.
  split; [exact Hs|].
  unfold parseTitle. now rewrite (rawLabels_single _ _ Hs).
Qed.

Lemma single_segment_title_witness :
  splitTitle (js "  Surah Yasin ") = [js "Surah Yasin"]
  /\ parseTitle (js "  Surah Yasin ")
     = mkLabels (js "Surah Yasin") (js "تلاوات عامة").
Proof.
  apply (proj1 single_segment_title (js "  Surah Yasin "));
    reflexivity.
Defined.

(** ** C10 *)

(** C10.  The title "abc | | " has the segments "abc", "" and "", none with
    a chapter marker; the fallback joins the two empty segments into the
    one-space string, which is not the empty string and not an "unknown"
    literal, so the parser returns that whitespace-only reciter and not the
    sentinel. *)
Theorem whitespace_reciter_survives :
  let fullTitle := js "abc | | " in
  splitTitle fullTitle = [js "abc"; []; []]
  /\ markedSegment (splitTitle fullTitle) = None
  /\ reciter (rawLabels fullTitle) = join (js " ") (slice1 (splitTitle fullTitle))
  /\ reciter (rawLabels fullTitle) = js " "
  /\ forallb isTrimmable (reciter (rawLabels fullTitle)) = true
  /\ sentinelReciter (js " ") = js " "
  /\ parseTitle fullTitle = mkLabels (js "abc") (js " ")
  /\ reciter (parseTitle fullTitle) <> js "تلاوات عامة".
Proof.
  cbv zeta. repeat split; try reflexivity.
  vm_compute. discriminate.
Qed.

(** ** The feed extractor *)

Section ExtractorProperties.

Variable randomId : nat -> jsstring.

(** The loop pushes the records of the items that have an audio URL, in
    feed order, after what [items] already holds. *)
Lemma loop_pushes_items_with_url (channelImage : jsstring)
    (contents : list jsstring) (items : list Episode.t) (calls : nat) :
  fst (fold_left (loopBody randomId channelImage) contents (items, calls))
  = items ++ filter hasUrl (candidatesFrom randomId channelImage calls contents).
Proof.
  revert items calls.
  induction contents as [|content rest IH]; intros items calls.
  - simpl. now rewrite app_nil_r.
  - cbn [fold_left candidatesFrom filter].
    unfold loopBody at 2.
    change (hasUrl (candidateOf randomId channelImage calls content))
      with (negb (isEmpty (enclosureUrl content))).
    destruct (negb (isEmpty (enclosureUrl content))).
    + rewrite IH, <- app_assoc. reflexivity.
    + now rewrite IH.
Qed.

Lemma extractEpisodes_filter (xmlText : jsstring) :
  extractEpisodes randomId xmlText
  = filter hasUrl (candidateEpisodes randomId xmlText).
Proof.
  unfold extractEpisodes, candidateEpisodes.
  now rewrite loop_pushes_items_with_url.
Qed.

Lemma candidates_urls (channelImage : jsstring) (contents : list jsstring)
    (calls : nat) :
  map Episode.url (candidatesFrom randomId channelImage calls contents)
  = map enclosureUrl contents.
Proof.
  revert calls. induction contents as [|c rest IH]; intros calls;
    [reflexivity|].
  cbn [candidatesFrom map]. now rewrite IH.
Qed.

Lemma candidates_labels (channelImage : jsstring) (contents : list jsstring)
    (calls : nat) :
  Forall (fun e => Episode.reciter e = reciter (parseTitle (Episode.title e))
                   /\ Episode.surah e = surah (parseTitle (Episode.title e)))
         (candidatesFrom randomId channelImage calls contents).
Proof.
  revert calls. induction contents as [|c rest IH]; intros calls;
    constructor; [split; reflexivity | apply IH].
Qed.

Lemma Forall_filter_keeps {A} (P : A -> Prop) (f : A -> bool) (l : list A) :
  Forall P l -> Forall P (filter f l).
Proof.
  intros H. apply Forall_forall. intros x Hx.
  apply filter_In in Hx as [Hx _]. revert x Hx. now apply Forall_forall.
Qed.

Variable fetch : jsstring -> completion Response.

(** The function returns normally: the empty array, or what the loop
    extracts from the text of a successful response. *)
Lemma getPodcastEpisodes_returns :
  getPodcastEpisodes randomId fetch = Normal []
  \/ exists res xmlText,
      fetch RSS_URL = Normal res /\ ok res = true
      /\ text res = Normal xmlText
      /\ getPodcastEpisodes randomId fetch
         = Normal (extractEpisodes randomId xmlText).
Proof.
  unfold getPodcastEpisodes.
  destruct (fetch RSS_URL) as [res|e] eqn:Hf; [|now left].
  cbn [bind]. destruct (ok res) eqn:Hok; [|now left].
  cbn [negb bind]. destruct (text res) as [xmlText|e] eqn:Ht; [|now left].
  right. exists res, xmlText. auto.
Qed.

End ExtractorProperties.

Lemma execAll_no_match (r : regex) (s : jsstring) :
  search r s = None -> forall skip, execAll r s skip = [].
Proof.
  induction s as [|c s IH]; intros H skip; [reflexivity|].
  cbn [search] in H. cbn [execAll].
  destruct (matchAt r [] (c :: s)); [discriminate|].
  destruct skip; now apply IH.
Qed.

Lemma sentinelReciter_known (r : jsstring) :
  sentinelReciter r <> []
  /\ sentinelReciter r <> UNKNOWN_ARABIC
  /\ sentinelReciter r <> UNKNOWN_ENGLISH.
Proof.
  unfold sentinelReciter.
  destruct (isEmpty r) eqn:He; cbn [orb].
  { repeat split; vm_compute; discriminate. }
  destruct (eqb_str r UNKNOWN_ARABIC) eqn:Ha; cbn [orb].
  { repeat split; vm_compute; discriminate. }
  destruct (eqb_str r UNKNOWN_ENGLISH) eqn:Hu.
  { repeat split; vm_compute; discriminate. }
  repeat split.
  - intros ->. discriminate.
  - now apply eqb_str_false.
  - now apply eqb_str_false.
Qed.

(** ** C3 *)

(** C3.  The episodes extracted from a feed text are the records of its
    item blocks, in feed order, with exactly those removed whose enclosure
    URL is empty (no enclosure, or an empty one); the URL is the only thing
    the admission looks at, the records kept are those the items yield
    whatever is dropped around them, and every episode the function returns
    has a non-empty URL. *)
Theorem admission_by_audio_url (randomId : nat -> jsstring)
    (fetch : jsstring -> completion Response) (xmlText : jsstring) :
  extractEpisodes randomId xmlText
  = filter (fun e => negb (isEmpty (Episode.url e)))
           (candidateEpisodes randomId xmlText)
  /\ map Episode.url (candidateEpisodes randomId xmlText)
     = map enclosureUrl (execAll itemRegex xmlText O)
  /\ map Episode.url (extractEpisodes randomId xmlText)
     = filter (fun u => negb (isEmpty u))
              (map enclosureUrl (execAll itemRegex xmlText O))
  /\ Forall (fun e => Episode.url e <> []) (extractEpisodes randomId xmlText)
  /\ exists eps,
      getPodcastEpisodes randomId fetch = Normal eps
      /\ Forall (fun e => Episode.url e <> []) eps.
Proof.
  assert (Hurl : forall x, Forall (fun e => Episode.url e <> [])
                             (extractEpisodes randomId x)).
  { intros x. rewrite extractEpisodes_filter. apply Forall_forall.
    intros e He. apply filter_In in He as [_ He]. unfold hasUrl in He.
    intros Hn. rewrite Hn in He. discriminate. }
  split; [apply extractEpisodes_filter|].
  split; [apply candidates_urls|].
  split.
  { rewrite extractEpisodes_filter. unfold candidateEpisodes.
    rewrite <- candidates_urls
      with (randomId := randomId)
           (channelImage := orDefault (group1 imageRegex xmlText) [])
           (calls := O).
    generalize (candidatesFrom randomId (orDefault (group1 imageRegex xmlText) [])
                  O (execAll itemRegex xmlText O)).
    intros l. induction l as [|e l IH]; [reflexivity|].
    cbn [filter map]. unfold hasUrl at 1.
    destruct (negb (isEmpty (Episode.url e))); cbn [map]; now rewrite IH. }
  split; [apply Hurl|].
  destruct (getPodcastEpisodes_returns randomId fetch)
    as [H | (res & x & _ & _ & _ & H)]; rewrite H; eexists; split;
    try reflexivity; [constructor | apply Hurl].
Qed.

(** ** C4 *)

(** C4.  The parser replaces a reciter label that is empty or one of the
    two "unknown" literals by the sentinel and keeps any other; every
    episode the extractor returns carries the parsed reciter of its title,
    which is neither empty nor an "unknown" literal. *)
Theorem reciter_never_unknown (randomId : nat -> jsstring)
    (fetch : jsstring -> completion Response) :
  (forall fullTitle,
      let label := reciter (rawLabels fullTitle) in
      reciter (parseTitle fullTitle)
      = if isEmpty label || eqb_str label (js "القارئ غير معروف")
           || eqb_str label (js "Unknown")
        then js "تلاوات عامة" else label)
  /\ exists eps,
      getPodcastEpisodes randomId fetch = Normal eps
      /\ Forall (fun e =>
                   Episode.reciter e = reciter (parseTitle (Episode.title e))
                   /\ Episode.reciter e <> []
                   /\ Episode.reciter e <> js "القارئ غير معروف"
                   /\ Episode.reciter e <> js "Unknown") eps.
Proof.
  split; [reflexivity|].
  destruct (getPodcastEpisodes_returns randomId fetch)
    as [H | (res & x & _ & _ & _ & H)]; rewrite H; eexists; split;
    try reflexivity; [constructor|].
  rewrite extractEpisodes_filter. apply Forall_filter_keeps.
  unfold candidateEpisodes.
  eapply Forall_impl; [|apply candidates_labels].
  intros e [Hr _]. split; [exact Hr|].
  rewrite Hr. generalize (Episode.title e). intros t.
  change (reciter (parseTitle t)) with (sentinelReciter (reciter (rawLabels t))).
  generalize (reciter (rawLabels t)). intros r.
  exact (sentinelReciter_known r).
Qed.

(** ** C5 *)

(** C5.  Whatever [fetch] does, the function returns normally.  When the
    fetch is rejected, when the response is not a success, when its text
    cannot be read, and when the item pattern matches nowhere in the text,
    it returns the empty array; otherwise what the loop extracted. *)
Theorem extraction_never_throws (randomId : nat -> jsstring)
    (fetch : jsstring -> completion Response) :
  (exists eps, getPodcastEpisodes randomId fetch = Normal eps)
  /\ match fetch RSS_URL with
     | Throw _ => getPodcastEpisodes randomId fetch = Normal []
     | Normal res =>
         if ok res then
           match text res with
           | Throw _ => getPodcastEpisodes randomId fetch = Normal []
           | Normal xmlText =>
               getPodcastEpisodes randomId fetch
               = Normal (extractEpisodes randomId xmlText)
               /\ match search itemRegex xmlText with
                  | None => getPodcastEpisodes randomId fetch = Normal []
                  | Some _ => True
                  end
           end
         else getPodcastEpisodes randomId fetch = Normal []
     end.
Proof.
  split.
  { destruct (getPodcastEpisodes_returns randomId fetch)
      as [H | (res & x & _ & _ & _ & H)]; rewrite H; eexists; reflexivity. }
  unfold getPodcastEpisodes.
  destruct (fetch RSS_URL) as [res|e]; [|reflexivity].
  cbn [bind]. destruct (ok res); [|reflexivity].
  cbn [negb bind]. destruct (text res) as [xmlText|e]; [|reflexivity].
  cbn [bind tryCatch]. split; [reflexivity|].
  destruct (search itemRegex xmlText) eqn:Hs; [exact I|].
  unfold extractEpisodes. now rewrite (execAll_no_match _ _ Hs).
Qed.

(** ** The store *)

Lemma deref_alloc_new (h : store) (a : list Episode.t) :
  deref (h ++ [a]) (List.length h) = a.
Proof. unfold deref. now rewrite nth_middle. Qed.

Lemma deref_alloc_other (h : store) (a : list Episode.t) (r : ref) :
  r <> List.length h -> deref (h ++ [a]) r = deref h r.
Proof.
  intros Hr. unfold deref.
  destruct (Nat.lt_ge_cases r (List.length h)) as [Hlt|Hge].
  - now apply app_nth1.
  - rewrite !nth_overflow; [reflexivity | lia |].
    rewrite length_app. simpl. lia.
Qed.

Lemma length_assign (h : store) (r : ref) (a : list Episode.t) :
  List.length (assign h r a) = List.length h.
Proof.
  revert r. induction h as [|b h IH]; intros r; [reflexivity|].
  destruct r; simpl; [reflexivity | now rewrite IH].
Qed.

Lemma deref_assign_same (h : store) (r : ref) (a : list Episode.t) :
  (r < List.length h)%nat -> deref (assign h r a) r = a.
Proof.
  revert r. induction h as [|b h IH]; intros r Hr; simpl in Hr; [lia|].
  destruct r; [reflexivity|]. simpl. apply IH. lia.
Qed.

Lemma deref_assign_other (h : store) (r r' : ref) (a : list Episode.t) :
  r <> r' -> deref (assign h r a) r' = deref h r'.
Proof.
  revert r r'. induction h as [|b h IH]; intros r r' Hr; [reflexivity|].
  destruct r, r'; try reflexivity; [lia|].
  simpl. apply IH. lia.
Qed.

(** ** Sorting *)

Lemma insertSorted_perm {A} (cmp : A -> A -> Z) (x : A) (l : list A) :
  Permutation (insertSorted cmp x l) (x :: l).
Proof.
  induction l as [|y l IH]; simpl; [reflexivity|].
  destruct (cmp x y <=? 0); [reflexivity|].
  rewrite IH. apply perm_swap.
Qed.

Lemma stableSort_perm {A} (cmp : A -> A -> Z) (l : list A) :
  Permutation (stableSort cmp l) l.
Proof.
  induction l as [|x l IH]; simpl; [reflexivity|].
  fold (stableSort cmp l). rewrite insertSorted_perm. now constructor.
Qed.

(** ** The episode filter *)

Lemma arabicSteps_app (a b : jsstring) :
  spec_arabicSteps (a ++ b) = spec_arabicSteps a ++ spec_arabicSteps b.
Proof.
  unfold spec_arabicSteps, spec_stripDiacritics, spec_alefMaksura,
    spec_taaMarbuta, spec_unifyAlef.
  now rewrite !map_app, filter_app.
Qed.

Lemma arabicSteps_space (a b : jsstring) :
  spec_arabicSteps (a ++ 32 :: b)
  = spec_arabicSteps a ++ 32 :: spec_arabicSteps b.
Proof. now rewrite arabicSteps_app. Qed.

(** Normalization goes through a space: U+0020 is no half of a surrogate
    pair, is kept by every step and ends the context of a final sigma. *)
Lemma normalizeArabic_space (a b : jsstring) :
  normalizeArabic (a ++ js " " ++ b)
  = normalizeArabic a ++ js " " ++ normalizeArabic b.
Proof.
  change (js " ") with [32]. cbn [app].
  rewrite !normalizeArabic_unfold, arabicSteps_space.
  apply toLowerCase_space.
Qed.

(** The string the callback builds is the normalization of surah, a space
    and reciter taken together. *)
Lemma matchesQuery_spec (terms : list jsstring) (e : Episode.t) :
  matchesQuery terms e = spec_everyTermOccurs terms e.
Proof.
  unfold matchesQuery, spec_everyTermOccurs.
  now rewrite normalizeArabic_space.
Qed.

Lemma queryTermsOf_spec (q : jsstring) : queryTermsOf q = spec_spaceTerms q.
Proof.
  unfold queryTermsOf, spec_spaceTerms. apply filter_ext.
  intros [|c t]; reflexivity.
Qed.

Lemma filter_twice {A} (f g : A -> bool) (l : list A) :
  filter g (filter f l) = filter (fun x => f x && g x) l.
Proof.
  induction l as [|x l IH]; [reflexivity|].
  simpl. destruct (f x); simpl; [destruct (g x)|]; now rewrite IH.
Qed.

Section FilterProperties.

Variable getSurahOrder : jsstring -> Z.

(** With a query, the result is a new array: the sorted selection. *)
Lemma filteredEpisodes_query (h : store) (episodes : ref)
    (selectedReciter surahSearch : jsstring) :
  surahSearch <> [] ->
  let hr := filteredEpisodes getSurahOrder h episodes selectedReciter
              surahSearch in
  deref (fst hr) (snd hr)
  = stableSort (bySurahOrder getSurahOrder)
      (filter (keptBy selectedReciter surahSearch) (deref h episodes))
  /\ (List.length h <= snd hr)%nat.
Proof.
  intros Hq. destruct surahSearch as [|c q]; [congruence|].
  unfold filteredEpisodes, arrayFilter, arraySort, alloc, keptBy,
    spec_reciterSelected.
  cbn [isEmpty negb].
  destruct (eqb_str selectedReciter ALL) eqn:Hsel; cbn [negb fst snd].
  - rewrite deref_assign_same by (rewrite length_app; simpl; lia).
    rewrite deref_alloc_new. split; [|lia]. f_equal.
    apply filter_ext. intros e.
    now rewrite queryTermsOf_spec, matchesQuery_spec.
  - rewrite deref_assign_same by (rewrite !length_app; simpl; lia).
    rewrite deref_alloc_new, deref_alloc_new, filter_twice.
    split; [|rewrite length_app; simpl; lia]. f_equal.
    apply filter_ext. intros e.
    now rewrite queryTermsOf_spec, matchesQuery_spec.
Qed.

End FilterProperties.

(** ** C2 *)

(** C2, as the code has it.  For a non-empty query, the result of
    [filteredEpisodes] is a new array holding, sorted by chapter rank,
    exactly the episodes of the input that pass the reciter selection and
    for which every term of the query occurs as a substring of the
    normalization of surah, a space and reciter.  The terms are the
    non-empty pieces of the normalized query between space characters
    (U+0020); no other whitespace separates terms. *)
Theorem episode_filter_space_terms (getSurahOrder : jsstring -> Z)
    (h : store) (episodes : ref) (selectedReciter surahSearch : jsstring) :
  surahSearch <> [] ->
  let hr := filteredEpisodes getSurahOrder h episodes selectedReciter
              surahSearch in
  let kept := filter (keptBy selectedReciter surahSearch) (deref h episodes) in
  queryTermsOf surahSearch = spec_spaceTerms surahSearch
  /\ deref (fst hr) (snd hr) = stableSort (bySurahOrder getSurahOrder) kept
  /\ Permutation (deref (fst hr) (snd hr)) kept
  /\ forall e,
      In e (deref (fst hr) (snd hr))
      <-> In e (deref h episodes)
          /\ (selectedReciter = js "All" \/ Episode.reciter e = selectedReciter)
          /\ forall term,
               In term (spec_spaceTerms surahSearch) ->
               includes term
                 (normalizeArabic
                    (Episode.surah e ++ js " " ++ Episode.reciter e)) = true.
Proof.
  intros Hq hr kept.
  destruct (filteredEpisodes_query getSurahOrder h episodes selectedReciter
              surahSearch Hq) as [Hd _].
  fold hr in Hd. fold kept in Hd.
  split; [apply queryTermsOf_spec|].
  split; [exact Hd|].
  assert (Hp : Permutation (deref (fst hr) (snd hr)) kept)
    by (rewrite Hd; apply stableSort_perm).
  split; [exact Hp|].
  intros e. split.
  - intros He. apply (Permutation_in _ Hp) in He.
    apply filter_In in He as [He Hk]. unfold keptBy in Hk.
    apply andb_true_iff in Hk as [Hs Ht]. split; [exact He|]. split.
    + unfold spec_reciterSelected in Hs. apply orb_true_iff in Hs as [Hs|Hs];
        apply eqb_str_spec in Hs; auto.
    + unfold spec_everyTermOccurs in Ht. rewrite forallb_forall in Ht.
      exact Ht.
  - intros (He & Hs & Ht). apply (Permutation_in _ (Permutation_sym Hp)).
    apply filter_In. split; [exact He|]. unfold keptBy.
    apply andb_true_iff. split.
    + unfold spec_reciterSelected. apply orb_true_iff.
      destruct Hs as [Hs|Hs]; [left | right]; now apply eqb_str_spec.
    + unfold spec_everyTermOccurs. rewrite forallb_forall. exact Ht.
Qed.

(** The query "بقرة" under "All" keeps the one episode whose normalized
    surah and reciter contain "بقره". *)
Lemma episode_filter_space_terms_witness :
  let hr := filteredEpisodes sampleOrder [[fatiha; baqarah; yasin]] O
              (js "All") (js "بقرة") in
  spec_spaceTerms (js "بقرة") = [js "بقره"]
  /\ deref (fst hr) (snd hr) = [baqarah].
Proof.
  cbv zeta.
  destruct (episode_filter_space_terms sampleOrder [[fatiha; baqarah; yasin]]
              O (js "All") (js "بقرة")) as (Ht & Hd & _).
  - discriminate.
  - rewrite <- Ht. split; [reflexivity|]. rewrite Hd. reflexivity.
Defined.

(** C2 as it is worded fails: with a tab between two words of the query,
    both words occur in the normalized "surah reciter" string of the
    episode, which splitting on whitespace would therefore keep; the code
    has the single term "yasin<TAB>ahmad" and drops the episode. *)
Lemma whitespace_terms_counterexample :
  let query := js "yasin" ++ [9] ++ js "ahmad" in
  let hr := filteredEpisodes sampleOrder [[yasin]] O (js "All") query in
  query <> []
  /\ spec_whitespaceTerms query = [js "yasin"; js "ahmad"]
  /\ spec_everyTermOccurs (spec_whitespaceTerms query) yasin = true
  /\ queryTermsOf query = [query]
  /\ deref (fst hr) (snd hr) = [].
Proof.
  cbv zeta. repeat split; try reflexivity. discriminate.
Qed.

(** A query in capital letters of Latin Extended-A finds the episode
    spelled with the small ones. *)
Example latin_extended_query :
  let hr := filteredEpisodes sampleOrder [[yasin; imran]] O (js "All")
              (js "ĀL ʿIMRĀN") in
  queryTermsOf (js "ĀL ʿIMRĀN") = [js "āl"; js "ʿimrān"]
  /\ deref (fst hr) (snd hr) = [imran].
Proof. vm_compute. split; reflexivity. Qed.

(** ** C8 *)

Section Frame.

Variable getSurahOrder : jsstring -> Z.

(** With a reciter selected or a query typed, the sort works on a new
    array and the array of the state keeps its contents. *)
Lemma filteredEpisodes_frame (h : store) (episodes : ref)
    (selectedReciter surahSearch : jsstring) :
  (episodes < List.length h)%nat ->
  selectedReciter <> ALL \/ surahSearch <> [] ->
  deref (fst (filteredEpisodes getSurahOrder h episodes selectedReciter
                surahSearch)) episodes
  = deref h episodes.
Proof.
  intros Hr Hsq.
  unfold filteredEpisodes, arrayFilter, arraySort, alloc.
  destruct (eqb_str selectedReciter ALL) eqn:Hsel; cbn [negb];
    destruct surahSearch as [|c q]; cbn [isEmpty negb fst snd].
  - apply eqb_str_spec in Hsel. destruct Hsq; congruence.
  - rewrite deref_assign_other by lia. apply deref_alloc_other. lia.
  - rewrite deref_assign_other by lia. apply deref_alloc_other. lia.
  - rewrite deref_assign_other by (rewrite length_app; simpl; lia).
    rewrite deref_alloc_other by (rewrite length_app; simpl; lia).
    apply deref_alloc_other. lia.
Qed.

(** Under "All" and the empty query, [result] is [episodes] itself and
    the sort rewrites the array of the state. *)
Lemma filteredEpisodes_unfiltered (h : store) (episodes : ref) :
  (episodes < List.length h)%nat ->
  let hr := filteredEpisodes getSurahOrder h episodes ALL [] in
  snd hr = episodes
  /\ deref (fst hr) episodes
     = stableSort (bySurahOrder getSurahOrder) (deref h episodes).
Proof.
  intros Hr. unfold filteredEpisodes, arraySort.
  change (eqb_str ALL ALL) with true. cbn [negb isEmpty fst snd].
  split; [reflexivity | now apply deref_assign_same].
Qed.

End Frame.

(** [reciters] is a function of the contents of [episodes] alone, and its
    result lists each reciter once. *)
Example reciters_sample :
  reciters [baqarah; fatiha; baqarah] []
  = [mkReciter (js "الشيخ محمد") []; mkReciter (js "الشيخ أحمد") []]
  /\ reciters [baqarah; fatiha; baqarah] (js "احمد")
     = [mkReciter (js "الشيخ أحمد") []].
Proof. split; reflexivity. Qed.

(** C8, where the code departs from it.  With "All" selected and no query,
    [filteredEpisodes] returns the very array it was given and has sorted it
    in place: two episodes held in feed order, the second of which ranks
    before the first, are left in the state in the opposite order. *)
Theorem filteredEpisodes_sorts_state_in_place (getSurahOrder : jsstring -> Z)
    (e1 e2 : Episode.t) :
  getSurahOrder (Episode.surah e2) < getSurahOrder (Episode.surah e1) ->
  let h := [[e1; e2]] in
  let hr := filteredEpisodes getSurahOrder h O (js "All") [] in
  snd hr = O
  /\ deref h O = [e1; e2]
  /\ deref (fst hr) O = [e2; e1]
  /\ deref (fst hr) O <> deref h O.
Proof.
  intros Hlt h hr.
  assert (Hd : deref (fst hr) O = [e2; e1]).
  { unfold hr, filteredEpisodes, arraySort.
    change (eqb_str (js "All") ALL) with true. cbn [negb isEmpty fst snd].
    unfold h, deref, stableSort, bySurahOrder. cbn.
    destruct (Z.leb_spec
                (getSurahOrder (Episode.surah e1)
                 - getSurahOrder (Episode.surah e2)) 0); [lia | reflexivity]. }
  split; [reflexivity|]. split; [reflexivity|]. split; [exact Hd|].
  rewrite Hd. unfold h, deref. cbn. intros [= H1 H2].
  rewrite H1 in Hlt. lia.
Qed.

Lemma filteredEpisodes_sorts_state_in_place_witness :
  let hr := filteredEpisodes sampleOrder [[baqarah; fatiha]] O (js "All") [] in
  snd hr = O
  /\ deref [[baqarah; fatiha]] O = [baqarah; fatiha]
  /\ deref (fst hr) O = [fatiha; baqarah]
  /\ deref (fst hr) O <> deref [[baqarah; fatiha]] O.
Proof.
  apply (filteredEpisodes_sorts_state_in_place sampleOrder baqarah fatiha).
  vm_compute. reflexivity.
Defined.

(** * Further properties of the code *)

(** ** The sort of [filteredEpisodes] *)

Section SortByKey.

Context {A : Type}.
Variable key : A -> Z.

Let byKey (a b : A) : Z := key a - key b.

Lemma insertSorted_head (x : A) (l : list A) (y : A) :
  key y <= key x ->
  HdRel (fun a b => key a <= key b) y l ->
  HdRel (fun a b => key a <= key b) y (insertSorted byKey x l).
Proof.
  intros Hyx Hl. destruct l as [|z l]; simpl.
  - now constructor.
  - destruct (byKey x z <=? 0); constructor; [exact Hyx|].
    now inversion Hl.
Qed.

Lemma insertSorted_sorted (x : A) (l : list A) :
  Sorted (fun a b => key a <= key b) l ->
  Sorted (fun a b => key a <= key b) (insertSorted byKey x l).
Proof.
  induction l as [|y l IH]; intros Hs; simpl.
  - repeat constructor.
  - destruct (Z.leb_spec (byKey x y) 0) as [Hle|Hgt]; unfold byKey in *.
    + constructor; [exact Hs|]. constructor. lia.
    + inversion Hs as [|? ? Hs' Hhd]; subst.
      constructor; [now apply IH|].
      apply insertSorted_head; [lia | exact Hhd].
Qed.

Lemma stableSort_sorted (l : list A) :
  Sorted (fun a b => key a <= key b) (stableSort byKey l).
Proof.
  induction l as [|x l IH]; simpl; [constructor|].
  now apply insertSorted_sorted.
Qed.

Lemma insertSorted_stable (k : Z) (x : A) (l : list A) :
  filter (fun a => key a =? k) (insertSorted byKey x l)
  = filter (fun a => key a =? k) (x :: l).
Proof.
  induction l as [|y l IH]; [reflexivity|].
  cbn [insertSorted].
  destruct (Z.leb_spec (byKey x y) 0) as [Hle|Hgt]; [reflexivity|].
  unfold byKey in Hgt. cbn [filter] in *. rewrite IH.
  destruct (Z.eqb_spec (key x) k), (Z.eqb_spec (key y) k);
    try reflexivity; lia.
Qed.

Lemma stableSort_stable (k : Z) (l : list A) :
  filter (fun a => key a =? k) (stableSort byKey l)
  = filter (fun a => key a =? k) l.
Proof.
  induction l as [|x l IH]; [reflexivity|].
  cbn [stableSort fold_right]. fold (stableSort byKey l).
  rewrite insertSorted_stable. cbn [filter]. now rewrite IH.
Qed.

End SortByKey.

Lemma assign_overflow (h : store) (r : ref) (a : list Episode.t) :
  (List.length h <= r)%nat -> assign h r a = h.
Proof.
  revert r. induction h as [|b h IH]; intros r Hr; [reflexivity|].
  destruct r; simpl in *; [lia|]. f_equal. apply IH. lia.
Qed.

Lemma deref_overflow (h : store) (r : ref) :
  (List.length h <= r)%nat -> deref h r = [].
Proof. intros Hr. unfold deref. now apply nth_overflow. Qed.

Lemma filter_all {A} (l : list A) : filter (fun _ => true) l = l.
Proof. induction l as [|x l IH]; simpl; [reflexivity | now rewrite IH]. Qed.

Section FilteredContents.

Variable getSurahOrder : jsstring -> Z.

(** The array returned holds the selection, stably sorted by rank,
    whatever the selection and the query are. *)
Lemma filteredEpisodes_contents (h : store) (episodes : ref)
    (selectedReciter surahSearch : jsstring) :
  let hr := filteredEpisodes getSurahOrder h episodes selectedReciter
              surahSearch in
  deref (fst hr) (snd hr)
  = stableSort (bySurahOrder getSurahOrder)
      (filter (selectedBy selectedReciter surahSearch) (deref h episodes)).
Proof.
  destruct surahSearch as [|c q].
  - unfold filteredEpisodes, arrayFilter, arraySort, alloc, selectedBy,
      spec_reciterSelected.
    cbn [isEmpty negb orb].
    destruct (eqb_str selectedReciter ALL) eqn:Hsel; cbn [negb fst snd orb].
    + rewrite filter_all.
      destruct (Nat.lt_ge_cases episodes (List.length h)) as [Hlt|Hge].
      * now apply deref_assign_same.
      * rewrite (assign_overflow _ _ _ Hge), (deref_overflow _ _ Hge).
        reflexivity.
    + rewrite deref_assign_same by (rewrite length_app; simpl; lia).
      rewrite deref_alloc_new. f_equal. apply filter_ext. intros e.
      now rewrite andb_true_r.
  - assert (Hq : c :: q <> []) by discriminate.
    destruct (filteredEpisodes_query getSurahOrder h episodes selectedReciter
                (c :: q) Hq) as [Hd _].
    cbv zeta in *. rewrite Hd. reflexivity.
Qed.

End FilteredContents.

(** X1.  Whatever the selection and the query, the list [filteredEpisodes]
    returns is in canonical order: the ranks [getSurahOrder] gives to the
    surahs never decrease along it; and the sort is stable: the episodes of
    any one rank come in the order they had in the collection. *)
Theorem filteredEpisodes_canonical_order (getSurahOrder : jsstring -> Z)
    (h : store) (episodes : ref) (selectedReciter surahSearch : jsstring) :
  let hr := filteredEpisodes getSurahOrder h episodes selectedReciter
              surahSearch in
  let result := deref (fst hr) (snd hr) in
  Sorted (fun a b => rankOf getSurahOrder a <= rankOf getSurahOrder b) result
  /\ forall k,
      filter (fun e => rankOf getSurahOrder e =? k) result
      = filter (fun e => rankOf getSurahOrder e =? k)
          (filter (selectedBy selectedReciter surahSearch)
                  (deref h episodes)).
Proof.
  intros hr result. unfold result, hr.
  rewrite filteredEpisodes_contents. split.
  - apply (stableSort_sorted (rankOf getSurahOrder)).
  - intros k. apply (stableSort_stable (rankOf getSurahOrder)).
Qed.

(** X2.  With no query typed, the result under "All" is a rearrangement of
    the whole collection, and under a selected reciter it holds exactly the
    episodes of that reciter: none is lost and none is added. *)
Theorem filteredEpisodes_without_query (getSurahOrder : jsstring -> Z)
    (h : store) (episodes : ref) (selectedReciter : jsstring) :
  let hr := filteredEpisodes getSurahOrder h episodes selectedReciter [] in
  let result := deref (fst hr) (snd hr) in
  Permutation result
    (filter (fun e => eqb_str selectedReciter (js "All")
                      || eqb_str (Episode.reciter e) selectedReciter)
            (deref h episodes))
  /\ (eqb_str selectedReciter (js "All") = true ->
      Permutation result (deref h episodes))
  /\ (eqb_str selectedReciter (js "All") = false ->
      forall e, In e result
                <-> In e (deref h episodes)
                    /\ Episode.reciter e = selectedReciter).
Proof.
  intros hr result.
  assert (Hp : Permutation result
                 (filter (fun e => eqb_str selectedReciter (js "All")
                                   || eqb_str (Episode.reciter e) selectedReciter)
                         (deref h episodes))).
  { unfold result, hr. rewrite filteredEpisodes_contents.
    rewrite stableSort_perm.
    erewrite filter_ext; [reflexivity|].
    intros e. unfold selectedBy, spec_reciterSelected. cbn [isEmpty orb].
    apply andb_true_r. }
  split; [exact Hp|]. split.
  - intros Hall. rewrite Hp. rewrite Hall. cbn [orb]. now rewrite filter_all.
  - intros Hsel e. rewrite Hsel in Hp. cbn [orb] in Hp. split.
    + intros He. apply (Permutation_in _ Hp) in He.
      apply filter_In in He as [He Hr]. now apply eqb_str_spec in Hr.
    + intros [He Hr]. apply (Permutation_in _ (Permutation_sym Hp)).
      apply filter_In. split; [exact He | now apply eqb_str_spec].
Qed.

Lemma filteredEpisodes_without_query_witness :
  Permutation
    (deref (fst (filteredEpisodes sampleOrder [[baqarah; fatiha; yasin]] O
                   (js "All") []))
           (snd (filteredEpisodes sampleOrder [[baqarah; fatiha; yasin]] O
                   (js "All") [])))
    (deref [[baqarah; fatiha; yasin]] O).
Proof.
  apply (proj1 (proj2 (filteredEpisodes_without_query sampleOrder
                         [[baqarah; fatiha; yasin]] O (js "All")))).
  reflexivity.
Defined.

(** X3.  [filteredEpisodes] writes to no array that existed before the
    call, except that under "All" with no query it sorts the array it was
    given: every other array of the store keeps its contents, and so does
    the given one as soon as a reciter is selected or a query is typed. *)
Theorem filteredEpisodes_writes_only_its_result (getSurahOrder : jsstring -> Z)
    (h : store) (episodes r : ref) (selectedReciter surahSearch : jsstring) :
  (r < List.length h)%nat ->
  r <> episodes \/ selectedReciter <> js "All" \/ surahSearch <> [] ->
  deref (fst (filteredEpisodes getSurahOrder h episodes selectedReciter
                surahSearch)) r
  = deref h r.
Proof.
  intros Hr Hcase.
  unfold filteredEpisodes, arrayFilter, arraySort, alloc.
  destruct (eqb_str selectedReciter ALL) eqn:Hsel; cbn [negb];
    destruct surahSearch as [|c q]; cbn [isEmpty negb fst snd].
  - apply eqb_str_spec in Hsel. unfold ALL in Hsel.
    destruct Hcase as [Hne | [Hne | Hne]]; try congruence.
    apply deref_assign_other. congruence.
  - rewrite deref_assign_other by lia. apply deref_alloc_other. lia.
  - rewrite deref_assign_other by lia. apply deref_alloc_other. lia.
  - rewrite deref_assign_other by (rewrite length_app; simpl; lia).
    rewrite deref_alloc_other by (rewrite length_app; simpl; lia).
    apply deref_alloc_other. lia.
Qed.

Lemma filteredEpisodes_writes_only_its_result_witness :
  deref (fst (filteredEpisodes sampleOrder [[baqarah; fatiha]] O
                (js "All") (js "بقرة"))) O
  = deref [[baqarah; fatiha]] O.
Proof.
  apply (filteredEpisodes_writes_only_its_result sampleOrder
           [[baqarah; fatiha]] O O (js "All") (js "بقرة")).
  - simpl. lia.
  - right. right. discriminate.
Defined.

(** ** Pagination *)

Lemma slice0_firstn {A} (l : list A) (n : Z) :
  0 <= n -> slice0 l n = firstn (Z.to_nat n) l.
Proof.
  intros Hn. unfold slice0.
  destruct (Z.ltb_spec n 0); [lia|].
  destruct (Z.le_gt_cases n (Z.of_nat (List.length l))) as [Hle|Hgt].
  - now rewrite Z.min_l.
  - rewrite Z.min_r by lia. rewrite Nat2Z.id.
    rewrite firstn_all. symmetry. apply firstn_all2. lia.
Qed.

(** X4.  For a count that is not negative, the episodes shown are the
    first [visibleCount] of the filtered list, all of it when it is
    shorter; the "load more" button is rendered exactly when some episode
    is hidden, the number it shows is then the number of hidden episodes,
    and after one click the first [visibleCount + 10] are shown, or all. *)
Theorem pagination_shows_a_prefix (filtered : list Episode.t) (visibleCount : Z) :
  0 <= visibleCount ->
  let shown := visibleEpisodes filtered visibleCount in
  let hidden := (List.length filtered - List.length shown)%nat in
  shown = firstn (Z.to_nat visibleCount) filtered
  /\ Z.of_nat (List.length shown)
     = Z.min visibleCount (Z.of_nat (List.length filtered))
  /\ (showsLoadMore filtered visibleCount = true <-> (0 < hidden)%nat)
  /\ (showsLoadMore filtered visibleCount = true ->
      remainingCount filtered visibleCount = Z.of_nat hidden)
  /\ Z.of_nat (List.length
                 (visibleEpisodes filtered (handleLoadMore visibleCount)))
     = Z.min (visibleCount + 10) (Z.of_nat (List.length filtered)).
Proof.
  intros Hn shown hidden.
  assert (Hs : shown = firstn (Z.to_nat visibleCount) filtered)
    by (apply slice0_firstn; exact Hn).
  assert (Hl : Z.of_nat (List.length shown)
               = Z.min visibleCount (Z.of_nat (List.length filtered))).
  { rewrite Hs, length_firstn. lia. }
  assert (Hl' : Z.of_nat (List.length
                   (visibleEpisodes filtered (handleLoadMore visibleCount)))
                = Z.min (visibleCount + 10) (Z.of_nat (List.length filtered))).
  { unfold visibleEpisodes, handleLoadMore, ITEMS_PER_PAGE.
    rewrite slice0_firstn by lia. rewrite length_firstn. lia. }
  split; [exact Hs|]. split; [exact Hl|].
  unfold showsLoadMore, remainingCount, hidden.
  destruct (Z.ltb_spec visibleCount (Z.of_nat (List.length filtered)));
    (split; [split; intros Hx | split; [intros Hx | exact Hl']]);
    try reflexivity; try discriminate; try lia.
Qed.

Lemma pagination_shows_a_prefix_witness :
  visibleEpisodes [baqarah; fatiha; yasin] 2 = [baqarah; fatiha]
  /\ showsLoadMore [baqarah; fatiha; yasin] 2 = true
  /\ remainingCount [baqarah; fatiha; yasin] 2 = 1.
Proof.
  destruct (pagination_shows_a_prefix [baqarah; fatiha; yasin] 2)
    as (Hs & _ & Hb & Hr & _); [lia|].
  cbv zeta in *. split; [exact Hs|].
  assert (Hshow : showsLoadMore [baqarah; fatiha; yasin] 2 = true)
    by reflexivity.
  split; [exact Hshow | exact (Hr Hshow)].
Defined.

(** ** Playback handlers *)

Lemma indexOfFirst_none {A} (P : A -> bool) (l : list A) :
  (forall x, In x l -> P x = false) -> indexOfFirst P l = None.
Proof.
  induction l as [|x l IH]; intros H; [reflexivity|].
  simpl. rewrite (H x (or_introl eq_refl)).
  rewrite IH; [reflexivity|]. intros y Hy. apply H. now right.
Qed.

Lemma indexOfFirst_at {A} (P : A -> bool) (l : list A) (i : nat) (x : A) :
  nth_error l i = Some x -> P x = true ->
  (forall j y, (j < i)%nat -> nth_error l j = Some y -> P y = false) ->
  indexOfFirst P l = Some i.
Proof.
  revert i. induction l as [|z l IH]; intros i Hi Hx Hbefore.
  - destruct i; discriminate.
  - destruct i as [|i]; simpl in *.
    + injection Hi as ->. now rewrite Hx.
    + rewrite (Hbefore O z) by (lia || reflexivity).
      rewrite (IH i Hi Hx); [reflexivity|].
      intros j y Hj Hy. apply (Hbefore (S j) y); [lia | exact Hy].
Qed.

Lemma indexOfFirst_bound {A} (P : A -> bool) (l : list A) (k : nat) :
  indexOfFirst P l = Some k -> (k < List.length l)%nat.
Proof.
  revert k. induction l as [|x l IH]; intros k H; [discriminate|].
  simpl in *. destruct (P x); [injection H as <-; lia|].
  destruct (indexOfFirst P l) as [k'|]; [|discriminate].
  injection H as <-. specialize (IH k' eq_refl). lia.
Qed.

Lemma elemAt_nat {A} (l : list A) (i : nat) :
  elemAt l (Z.of_nat i) = nth_error l i.
Proof.
  unfold elemAt. destruct (Z.ltb_spec (Z.of_nat i) 0); [lia|].
  now rewrite Nat2Z.id.
Qed.

Lemma nth_error_in_range {A} (l : list A) (i : nat) :
  (i < List.length l)%nat -> exists x, nth_error l i = Some x.
Proof.
  intros H. destruct (nth_error l i) eqn:E; [eauto|].
  apply nth_error_None in E. lia.
Qed.

(** With distinct ids, the episode at position [i] is where the search for
    its id stops. *)
Lemma findIndex_of_id (l : list Episode.t) (i : nat) (e : Episode.t) :
  NoDup (map Episode.id l) ->
  nth_error l i = Some e ->
  findIndex (fun x => eqb_str (Episode.id e) (Episode.id x)) l = Z.of_nat i.
Proof.
  intros Hnd Hi. rewrite findIndex_spec.
  rewrite (indexOfFirst_at _ l i e Hi); [reflexivity | now apply eqb_str_spec |].
  intros j y Hj Hy. apply eqb_str_false. intros Heq.
  assert (Hi' : nth_error (map Episode.id l) i = Some (Episode.id e))
    by (now apply map_nth_error).
  assert (Hj' : nth_error (map Episode.id l) j = Some (Episode.id e))
    by (rewrite Heq; now apply map_nth_error).
  assert (j = i); [|lia].
  eapply (proj1 (NoDup_nth_error _) Hnd).
  - apply nth_error_Some. now rewrite Hj'.
  - now rewrite Hi', Hj'.
Qed.

Section PlayerProperties.

Variable number : Type.
Variable zero : number.

Lemma findIndex_current (filtered : list Episode.t) (p : Player number)
    (c : jsstring) :
  currentId p = Some c ->
  findIndex (fun e => isCurrent p (Episode.id e)) filtered
  = findIndex (fun e => eqb_str c (Episode.id e)) filtered.
Proof.
  intros H. unfold findIndex. generalize 0.
  induction filtered as [|e l IH]; intros i; [reflexivity|].
  cbn [findIndexFrom]. unfold isCurrent at 1. rewrite H.
  destruct (eqb_str c (Episode.id e)); [reflexivity | apply IH].
Qed.

End PlayerProperties.

(** X5.  [handleNext] and [handlePrev] never throw: whenever they read
    [filteredEpisodes[currentIndex + 1]] or [filteredEpisodes[currentIndex -
    1]] the index is inside the list, whatever the list and the state. *)
Theorem skip_handlers_never_throw (number : Type) (zero : number)
    (filtered : list Episode.t) (p : Player number) :
  (exists p', handleNext zero filtered p = Normal p')
  /\ (exists p', handlePrev zero filtered p = Normal p').
Proof.
  unfold handleNext, handlePrev.
  destruct (negb (truthy (currentId p))); [split; eexists; reflexivity|].
  rewrite findIndex_spec.
  destruct (indexOfFirst (fun e => isCurrent p (Episode.id e)) filtered)
    as [k|] eqn:Hk.
  - pose proof (indexOfFirst_bound _ _ _ Hk) as Hlt. split.
    + destruct (Z.ltb_spec (Z.of_nat k) (Z.of_nat (List.length filtered) - 1));
        [|eexists; reflexivity].
      replace (Z.of_nat k + 1) with (Z.of_nat (S k)) by lia.
      rewrite elemAt_nat.
      destruct (nth_error_in_range filtered (S k)) as [x ->]; [lia|].
      eexists; reflexivity.
    + destruct (Z.ltb_spec 0 (Z.of_nat k)); [|eexists; reflexivity].
      replace (Z.of_nat k - 1) with (Z.of_nat (Nat.pred k)) by lia.
      rewrite elemAt_nat.
      destruct (nth_error_in_range filtered (Nat.pred k)) as [x ->]; [lia|].
      eexists; reflexivity.
  - split.
    + destruct (Z.ltb_spec (-1) (Z.of_nat (List.length filtered) - 1));
        [|eexists; reflexivity].
      change (-1 + 1) with (Z.of_nat O). rewrite elemAt_nat.
      destruct (nth_error_in_range filtered O) as [x ->]; [lia|].
      eexists; reflexivity.
    + eexists; reflexivity.
Qed.

Lemma distinct_ids (l : list Episode.t) (i j : nat) (e e' : Episode.t) :
  NoDup (map Episode.id l) ->
  nth_error l i = Some e -> nth_error l j = Some e' -> i <> j ->
  Episode.id e <> Episode.id e'.
Proof.
  intros Hnd Hi Hj Hij Heq. apply Hij.
  assert (Hi' : nth_error (map Episode.id l) i = Some (Episode.id e))
    by (now apply map_nth_error).
  assert (Hj' : nth_error (map Episode.id l) j = Some (Episode.id e))
    by (rewrite Heq; now apply map_nth_error).
  eapply (proj1 (NoDup_nth_error _) Hnd).
  - apply nth_error_Some. now rewrite Hi'.
  - now rewrite Hi', Hj'.
Qed.

Lemma truthy_some (c : jsstring) : c <> [] -> truthy (Some c) = true.
Proof. destruct c; [congruence | reflexivity]. Qed.

(** X6.  When the ids of the list are distinct and not empty, "next" from
    the episode at position [i] starts the episode at [i + 1], and "previous"
    from there starts the episode at [i] again, from its beginning and
    playing. *)
Theorem next_then_prev_returns (number : Type) (zero : number)
    (filtered : list Episode.t) (p : Player number) (i : nat)
    (e e' : Episode.t) :
  NoDup (map Episode.id filtered) ->
  nth_error filtered i = Some e ->
  nth_error filtered (S i) = Some e' ->
  currentId p = Some (Episode.id e) ->
  Episode.id e <> [] -> Episode.id e' <> [] ->
  exists p1,
    handleNext zero filtered p = Normal p1
    /\ p1 = mkPlayer number (Some (Episode.id e')) true true zero None
    /\ handlePrev zero filtered p1
       = Normal (mkPlayer number (Some (Episode.id e)) true true zero None).
Proof.
  intros Hnd Hi Hi' Hc He He'.
  assert (Hlen : (S i < List.length filtered)%nat)
    by (apply nth_error_Some; now rewrite Hi').
  assert (Hne : Episode.id e <> Episode.id e')
    by (apply (distinct_ids filtered i (S i)); auto).
  exists (mkPlayer number (Some (Episode.id e')) true true zero None).
  split; [|split; [reflexivity|]].
  - unfold handleNext. rewrite Hc, (truthy_some _ He). cbn [negb].
    rewrite (findIndex_current number filtered p _ Hc).
    rewrite (findIndex_of_id filtered i e Hnd Hi).
    destruct (Z.ltb_spec (Z.of_nat i) (Z.of_nat (List.length filtered) - 1));
      [|lia].
    replace (Z.of_nat i + 1) with (Z.of_nat (S i)) by lia.
    rewrite elemAt_nat, Hi'. cbn [idOf bind].
    unfold handlePlayPause, isCurrent. rewrite Hc.
    now rewrite (proj2 (eqb_str_false _ _) Hne).
  - unfold handlePrev. cbn [currentId]. rewrite (truthy_some _ He').
    cbn [negb].
    rewrite (findIndex_current number filtered
               (mkPlayer number (Some (Episode.id e')) true true zero None)
               (Episode.id e') eq_refl).
    rewrite (findIndex_of_id filtered (S i) e' Hnd Hi').
    destruct (Z.ltb_spec 0 (Z.of_nat (S i))); [|lia].
    replace (Z.of_nat (S i) - 1) with (Z.of_nat i) by lia.
    rewrite elemAt_nat, Hi. cbn [idOf bind].
    unfold handlePlayPause, isCurrent. cbn [currentId].
    assert (Hne' : Episode.id e' <> Episode.id e) by congruence.
    now rewrite (proj2 (eqb_str_false _ _) Hne').
Qed.

Lemma next_then_prev_returns_witness :
  exists p1,
    handleNext 0 [fatiha; baqarah; yasin]
      (mkPlayer Z (Some (js "guid-1")) false false 42 None) = Normal p1
    /\ p1 = mkPlayer Z (Some (js "guid-2")) true true 0 None
    /\ handlePrev 0 [fatiha; baqarah; yasin] p1
       = Normal (mkPlayer Z (Some (js "guid-1")) true true 0 None).
Proof.
  apply (next_then_prev_returns Z 0 [fatiha; baqarah; yasin]
           (mkPlayer Z (Some (js "guid-1")) false false 42 None)
           O fatiha baqarah).
  - repeat constructor; vm_compute; intuition discriminate.
  - reflexivity.
  - reflexivity.
  - reflexivity.
  - discriminate.
  - discriminate.
Defined.

(** X7.  At the ends of the list the skip handlers leave the state as it
    is: "next" when the current episode is the last of the list, "previous"
    when it is the first. *)
Theorem skipping_stops_at_the_ends (number : Type) (zero : number)
    (p : Player number) (e : Episode.t) :
  currentId p = Some (Episode.id e) ->
  (forall before,
      (forall x, In x before -> Episode.id x <> Episode.id e) ->
      handleNext zero (before ++ [e]) p = Normal p)
  /\ (forall after, handlePrev zero (e :: after) p = Normal p).
Proof.
  intros Hc. split.
  - intros before Hb. unfold handleNext.
    destruct (negb (truthy (currentId p))); [reflexivity|].
    rewrite (findIndex_current number _ p _ Hc), findIndex_spec.
    rewrite (indexOfFirst_at _ (before ++ [e]) (List.length before) e).
    + rewrite length_app. cbn [List.length].
      destruct (Z.ltb_spec (Z.of_nat (List.length before))
                  (Z.of_nat (List.length before + 1) - 1)); [lia|reflexivity].
    + rewrite nth_error_app2 by lia. now rewrite Nat.sub_diag.
    + now apply eqb_str_spec.
    + intros j y Hj Hy. rewrite nth_error_app1 in Hy by exact Hj.
      apply nth_error_In in Hy. apply eqb_str_false.
      intros Heq. now apply (Hb y Hy).
  - intros after. unfold handlePrev.
    destruct (negb (truthy (currentId p))); [reflexivity|].
    rewrite (findIndex_current number _ p _ Hc).
    unfold findIndex. cbn [findIndexFrom].
    now rewrite (proj2 (eqb_str_spec _ _) eq_refl).
Qed.

Lemma skipping_stops_at_the_ends_witness :
  handleNext 0 ([fatiha; baqarah] ++ [yasin])
    (mkPlayer Z (Some (js "guid-36")) true false 7 None)
  = Normal (mkPlayer Z (Some (js "guid-36")) true false 7 None).
Proof.
  apply (proj1 (skipping_stops_at_the_ends Z 0
                  (mkPlayer Z (Some (js "guid-36")) true false 7 None)
                  yasin eq_refl)).
  intros x [<- | [<- | []]]; discriminate.
Defined.

(** X8.  When the current episode is not in the filtered list (another
    reciter was selected, or a query hides it), "next" starts the first
    episode of the list and "previous" does nothing. *)
Theorem skipping_from_a_hidden_episode (number : Type) (zero : number)
    (p : Player number) (c : jsstring) (first : Episode.t)
    (others : list Episode.t) :
  currentId p = Some c -> c <> [] ->
  (forall x, In x (first :: others) -> Episode.id x <> c) ->
  handleNext zero (first :: others) p
  = Normal (mkPlayer number (Some (Episode.id first)) true true zero None)
  /\ handlePrev zero (first :: others) p = Normal p.
Proof.
  intros Hc Hne Hhidden.
  assert (Hidx : findIndex (fun e => isCurrent p (Episode.id e)) (first :: others)
                 = -1).
  { rewrite (findIndex_current number _ p _ Hc), findIndex_spec.
    rewrite indexOfFirst_none; [reflexivity|].
    intros x Hx. apply eqb_str_false. intros Heq.
    now apply (Hhidden x Hx). }
  unfold handleNext, handlePrev. rewrite Hidx, Hc, (truthy_some _ Hne).
  cbn [negb]. split; [|reflexivity].
  destruct (Z.ltb_spec (-1) (Z.of_nat (List.length (first :: others)) - 1));
    [|cbn [List.length] in *; lia].
  change (elemAt (first :: others) (-1 + 1)) with (Some first).
  cbn [idOf bind]. unfold handlePlayPause, isCurrent. rewrite Hc.
  assert (Hf : c <> Episode.id first).
  { intros Heq. apply (Hhidden first (or_introl eq_refl)). now symmetry. }
  now rewrite (proj2 (eqb_str_false _ _) Hf).
Qed.

Lemma skipping_from_a_hidden_episode_witness :
  handleNext 0 [fatiha; baqarah]
    (mkPlayer Z (Some (js "guid-36")) true false 7 None)
  = Normal (mkPlayer Z (Some (js "guid-1")) true true 0 None)
  /\ handlePrev 0 [fatiha; baqarah]
       (mkPlayer Z (Some (js "guid-36")) true false 7 None)
     = Normal (mkPlayer Z (Some (js "guid-36")) true false 7 None).
Proof.
  apply (skipping_from_a_hidden_episode Z 0
           (mkPlayer Z (Some (js "guid-36")) true false 7 None)
           (js "guid-36") fatiha [baqarah] eq_refl).
  - discriminate.
  - intros x [<- | [<- | []]]; discriminate.
Defined.

(** ** Restoring the selected reciter *)

Lemma reciterExists_spec (episodes : list Episode.t) (r : jsstring) :
  reciterExists episodes r = true
  <-> exists e, In e episodes /\ Episode.reciter e = r.
Proof.
  unfold reciterExists. rewrite existsb_exists.
  split; intros (e & He & Hr); exists e; split; auto;
    now apply eqb_str_spec.
Qed.

Lemma restoreFromStorage_spec (episodes : list Episode.t)
    (savedReciter : option jsstring) (selectedReciter : jsstring) :
  let r := restoreFromStorage episodes savedReciter selectedReciter in
  r = selectedReciter
  \/ (savedReciter = Some r /\ r <> [] /\ reciterExists episodes r = true).
Proof.
  unfold restoreFromStorage.
  destruct savedReciter as [s|]; cbn [truthy]; [|now left].
  destruct s as [|c s]; cbn [isEmpty negb]; [now left|].
  destruct (reciterExists episodes (c :: s)) eqn:E; [right|now left].
  repeat split; [discriminate | exact E].
Qed.

(** X9.  The reciter the component restores when the episodes arrive is
    the selection it already had, or a non-empty name taken from the URL or
    the storage that some episode carries; a name in the URL that an episode
    carries wins over the storage; and a restored reciter never empties the
    list: with no query, [filteredEpisodes] under it is not empty. *)
Theorem restored_reciter_has_episodes (getSurahOrder : jsstring -> Z)
    (h : store) (ref_ : ref)
    (urlReciter savedReciter : option jsstring) (selectedReciter : jsstring) :
  let episodes := deref h ref_ in
  let r := restoreSelectedReciter episodes urlReciter savedReciter
             selectedReciter in
  (r = selectedReciter
   \/ ((urlReciter = Some r \/ savedReciter = Some r) /\ r <> []
       /\ exists e, In e episodes /\ Episode.reciter e = r))
  /\ (forall u, urlReciter = Some u -> u <> [] ->
                reciterExists episodes u = true -> r = u)
  /\ (r <> selectedReciter ->
      let hr := filteredEpisodes getSurahOrder h ref_ r [] in
      deref (fst hr) (snd hr) <> []).
Proof.
  intros episodes r.
  assert (H1 : r = selectedReciter
               \/ ((urlReciter = Some r \/ savedReciter = Some r) /\ r <> []
                   /\ exists e, In e episodes /\ Episode.reciter e = r)).
  { unfold r, restoreSelectedReciter.
    pose proof (restoreFromStorage_spec episodes savedReciter selectedReciter)
      as Hs. cbv zeta in Hs.
    assert (Hfall :
              restoreFromStorage episodes savedReciter selectedReciter
              = selectedReciter
              \/ ((urlReciter = Some (restoreFromStorage episodes savedReciter
                                        selectedReciter)
                   \/ savedReciter = Some (restoreFromStorage episodes
                                             savedReciter selectedReciter))
                  /\ restoreFromStorage episodes savedReciter selectedReciter
                     <> []
                  /\ exists e, In e episodes
                               /\ Episode.reciter e
                                  = restoreFromStorage episodes savedReciter
                                      selectedReciter)).
    { destruct Hs as [Hs | (Hs1 & Hs2 & Hs3)]; [now left | right].
      split; [now right|]. split; [exact Hs2|].
      now apply reciterExists_spec. }
    destruct urlReciter as [u|]; cbn [truthy]; [|exact Hfall].
    destruct u as [|c u]; cbn [isEmpty negb]; [exact Hfall|].
    destruct (reciterExists episodes (c :: u)) eqn:E; [|exact Hfall].
    right. split; [now left|]. split; [discriminate|].
    now apply reciterExists_spec. }
  split; [exact H1|]. split.
  - intros u -> Hu Hex. unfold r, restoreSelectedReciter.
    rewrite (truthy_some _ Hu). now rewrite Hex.
  - intros Hne hr.
    destruct H1 as [H1 | (_ & _ & e & He & Hr)]; [contradiction|].
    assert (Hin : In e (deref (fst hr) (snd hr))).
    { unfold hr. rewrite filteredEpisodes_contents.
      apply (Permutation_in _ (Permutation_sym (stableSort_perm _ _))).
      apply filter_In. split; [exact He|].
      unfold selectedBy, spec_reciterSelected. cbn [isEmpty orb].
      rewrite andb_true_r. apply orb_true_iff. right.
      now apply eqb_str_spec. }
    intros Hnil. rewrite Hnil in Hin. exact Hin.
Qed.

Lemma restored_reciter_has_episodes_witness :
  restoreSelectedReciter (deref [[baqarah; fatiha; yasin]] O)
    (Some (js "Sheikh Ahmad")) (Some (js "الشيخ محمد")) (js "All")
  = js "Sheikh Ahmad".
Proof.
  apply (proj1 (proj2 (restored_reciter_has_episodes sampleOrder
                         [[baqarah; fatiha; yasin]] O
                         (Some (js "Sheikh Ahmad")) (Some (js "الشيخ محمد"))
                         (js "All")))
           (js "Sheikh Ahmad") eq_refl).
  - discriminate.
  - reflexivity.
Defined.

(** ** The list of reciters *)

Lemma mapSet_absent (m : jsMap) (k v : jsstring) :
  mapHas m k = false -> mapSet m k v = m ++ [(k, v)].
Proof.
  induction m as [|[k' v'] m IH]; [reflexivity|].
  cbn [mapHas existsb fst mapSet app]. intros H.
  apply orb_false_iff in H as [H1 H2].
  rewrite H1. f_equal. now apply IH.
Qed.

Lemma mapHas_app (m : jsMap) (a b k : jsstring) :
  mapHas (m ++ [(a, b)]) k = mapHas m k || eqb_str a k.
Proof.
  unfold mapHas. rewrite existsb_app. cbn [existsb fst].
  now rewrite orb_false_r.
Qed.

Lemma mapHas_keys (m : jsMap) (k : jsstring) :
  mapHas m k = existsb (fun s => eqb_str s k) (map fst m).
Proof.
  unfold mapHas. induction m as [|kv m IH]; [reflexivity|].
  cbn [existsb map]. now rewrite IH.
Qed.

Lemma seenReciters_cons (e : Episode.t) (eps : list Episode.t) (m : jsMap) :
  seenReciters (e :: eps) m
  = seenReciters eps
      (if mapHas m (Episode.reciter e) then m
       else m ++ [(Episode.reciter e, Episode.image e)]).
Proof.
  unfold seenReciters. cbn [fold_left]. f_equal.
  destruct (mapHas m (Episode.reciter e)) eqn:E; cbn [negb]; [reflexivity|].
  now apply mapSet_absent.
Qed.

Lemma seenReciters_names (eps : list Episode.t) (m : jsMap) :
  map fst (seenReciters eps m)
  = map fst m ++ firstSeen (map fst m) (map Episode.reciter eps).
Proof.
  revert m. induction eps as [|e eps IH]; intros m.
  - cbn. now rewrite app_nil_r.
  - rewrite seenReciters_cons, IH. cbn [map firstSeen].
    rewrite <- mapHas_keys.
    destruct (mapHas m (Episode.reciter e)); [reflexivity|].
    rewrite map_app. cbn [map fst]. now rewrite <- app_assoc.
Qed.

Lemma not_seen (seen : list jsstring) (x : jsstring) :
  existsb (fun s => eqb_str s x) seen = false <-> ~ In x seen.
Proof.
  split.
  - intros H Hin. apply (proj2 (not_true_iff_false _) H).
    apply existsb_exists. exists x. split; [exact Hin | now apply eqb_str_spec].
  - intros H. apply not_true_iff_false. intros Hex.
    apply existsb_exists in Hex as (s & Hs & Heq).
    apply eqb_str_spec in Heq. now subst.
Qed.

Lemma firstSeen_NoDup (seen l : list jsstring) :
  NoDup seen -> NoDup (seen ++ firstSeen seen l).
Proof.
  revert seen. induction l as [|x l IH]; intros seen Hnd.
  - cbn. now rewrite app_nil_r.
  - cbn [firstSeen].
    destruct (existsb (fun s => eqb_str s x) seen) eqn:E; [now apply IH|].
    change (x :: firstSeen (seen ++ [x]) l)
      with ([x] ++ firstSeen (seen ++ [x]) l).
    rewrite app_assoc. apply IH.
    apply NoDup_app; [exact Hnd | repeat constructor; intros [] |].
    intros a Ha [<- | []]. now apply (proj1 (not_seen seen x) E).
Qed.

Lemma firstSeen_In (seen l : list jsstring) (k : jsstring) :
  In k (seen ++ firstSeen seen l) <-> In k seen \/ In k l.
Proof.
  revert seen. induction l as [|x l IH]; intros seen.
  - cbn. rewrite app_nil_r. tauto.
  - cbn [firstSeen].
    destruct (existsb (fun s => eqb_str s x) seen) eqn:E.
    + rewrite IH. cbn [In].
      apply existsb_exists in E as (s & Hs & Heq).
      apply eqb_str_spec in Heq. subst s.
      split; [tauto|]. intros [H | [<- | H]]; auto.
    + change (x :: firstSeen (seen ++ [x]) l)
        with ([x] ++ firstSeen (seen ++ [x]) l).
      rewrite app_assoc, IH, in_app_iff. cbn [In]. tauto.
Qed.

Lemma seenReciters_images (eps : list Episode.t) (m : jsMap) (k v : jsstring) :
  In (k, v) (seenReciters eps m) ->
  In (k, v) m
  \/ (mapHas m k = false
      /\ exists e, find (fun e => eqb_str (Episode.reciter e) k) eps = Some e
                   /\ v = Episode.image e).
Proof.
  revert m. induction eps as [|e eps IH]; intros m Hin; [now left|].
  rewrite seenReciters_cons in Hin. apply IH in Hin. cbn [find].
  destruct (mapHas m (Episode.reciter e)) eqn:Hm.
  - destruct Hin as [Hin | (Hk & e' & Hf & Hv)]; [now left | right].
    split; [exact Hk|]. exists e'. split; [|exact Hv].
    destruct (eqb_str (Episode.reciter e) k) eqn:Heq; [|exact Hf].
    apply eqb_str_spec in Heq. subst k. congruence.
  - destruct Hin as [Hin | (Hk & e' & Hf & Hv)].
    + apply in_app_iff in Hin as [Hin | [Heq | []]]; [now left | right].
      injection Heq as <- <-. split; [exact Hm|]. exists e.
      now rewrite (proj2 (eqb_str_spec _ _) eq_refl).
    + rewrite mapHas_app in Hk. apply orb_false_iff in Hk as [Hk1 Hk2].
      right. split; [exact Hk1|]. exists e'. now rewrite Hk2.
Qed.

Lemma reciters_all (eps : list Episode.t) :
  reciters eps [] = map (fun kv => mkReciter (fst kv) (snd kv))
                        (seenReciters eps []).
Proof. reflexivity. Qed.

Lemma reciters_names (eps : list Episode.t) :
  map name (reciters eps []) = firstSeen [] (map Episode.reciter eps).
Proof.
  rewrite reciters_all, map_map. cbn [name].
  change (map (fun x : jsstring * jsstring => fst x) (seenReciters eps []))
    with (map fst (seenReciters eps [])).
  now rewrite seenReciters_names.
Qed.

(** X10.  With no search, [reciters] lists every reciter of the
    collection once, in the order in which the reciters first occur, each
    with the image of the first episode that carries the name. *)
Theorem reciters_lists_each_reciter_once (episodes : list Episode.t) :
  let all := reciters episodes [] in
  map name all = firstSeen [] (map Episode.reciter episodes)
  /\ NoDup (map name all)
  /\ (forall n, In n (map name all)
                <-> exists e, In e episodes /\ Episode.reciter e = n)
  /\ (forall r, In r all ->
        exists e,
          find (fun e => eqb_str (Episode.reciter e) (name r)) episodes = Some e
          /\ image r = Episode.image e).
Proof.
  intros all. unfold all.
  split; [apply reciters_names|]. split; [|split].
  - rewrite reciters_names.
    apply (firstSeen_NoDup [] (map Episode.reciter episodes)). constructor.
  - intros n. rewrite reciters_names.
    rewrite <- (app_nil_l (firstSeen [] _)), firstSeen_In, in_map_iff.
    cbn [In]. split.
    + intros [[] | (e & He & Hin)]. exists e. auto.
    + intros (e & Hin & He). right. exists e. auto.
  - intros r Hr. rewrite reciters_all in Hr.
    apply in_map_iff in Hr as ([k v] & <- & Hin). cbn [fst snd name image].
    apply seenReciters_images in Hin as [[] | (_ & e & Hf & Hv)].
    exists e. auto.
Qed.

Lemma reciters_lists_each_reciter_once_witness :
  exists e,
    find (fun e => eqb_str (Episode.reciter e) (js "الشيخ محمد"))
         [fatiha; baqarah; yasin; baqarah] = Some e
    /\ [] = Episode.image e.
Proof.
  apply (proj2 (proj2 (proj2 (reciters_lists_each_reciter_once
                                [fatiha; baqarah; yasin; baqarah])))
           (mkReciter (js "الشيخ محمد") [])).
  vm_compute. auto.
Defined.

(** ** The reciter search *)

Lemma escapeClass_syntax (c : Z) : escapeClass c = isSyntaxCharacter c.
Proof.
  unfold escapeClass, isSyntaxCharacter, inClass.
  change (js ".*+?^${}()|[]\")
    with [46; 42; 43; 63; 94; 36; 123; 125; 40; 41; 124; 91; 93; 92].
  cbn [existsb].
  repeat match goal with
         | |- context [?a =? ?b] =>
             lazymatch b with
             | c => fail
             | _ => destruct (Z.eqb_spec a b) as [->|?]; [reflexivity|]
             end
         end.
  repeat match goal with
         | |- context [?a =? c] =>
             destruct (Z.eqb_spec a c) as [?|?]; [congruence|]
         end.
  reflexivity.
Qed.

(** Escaping is complete: the escaped string is in the fragment of literal
    patterns and its parse is the string. *)
Lemma literalPattern_escape (s : jsstring) :
  literalPattern (escapeRegExp s) = Some s.
Proof.
  induction s as [|c s IH]; [reflexivity|].
  unfold escapeRegExp in *. cbn [flat_map].
  destruct (escapeClass c) eqn:Hc.
  - cbn [app literalPattern]. change (92 =? 92) with true. cbn iota.
    rewrite <- escapeClass_syntax, Hc, IH. reflexivity.
  - cbn [app literalPattern]. destruct (Z.eqb_spec c 92) as [->|Hne].
    + discriminate Hc.
    + rewrite <- escapeClass_syntax, Hc, IH. reflexivity.
Qed.

Lemma test_LitI (p s : jsstring) : test [LitI p] s = spec_includesI p s.
Proof.
  unfold test. induction s as [|c s IH].
  - cbn. now destruct (startsWithI p []).
  - cbn [search matchAt spec_includesI].
    destruct (startsWithI p (c :: s)); [reflexivity|]. exact IH.
Qed.

Lemma createSearchRegex_test (q s : jsstring) :
  test (createSearchRegex q) s = spec_includesI (normalizeArabic q) s.
Proof.
  unfold createSearchRegex, RegExpI.
  now rewrite literalPattern_escape, test_LitI.
Qed.

Lemma startsWith_startsWithI (p s : jsstring) :
  startsWith p s = true -> startsWithI p s = true.
Proof.
  revert s. induction p as [|a p IH]; intros s; [reflexivity|].
  destruct s as [|b s]; [discriminate|]. cbn [startsWith startsWithI].
  rewrite !andb_true_iff. intros [Hab Hp]. apply Z.eqb_eq in Hab. subst b.
  split; [apply Z.eqb_refl | now apply IH].
Qed.

Lemma includes_includesI (p s : jsstring) :
  includes p s = true -> spec_includesI p s = true.
Proof.
  induction s as [|c s IH]; cbn [includes spec_includesI];
    rewrite !orb_true_iff; intros [H | H]; try discriminate.
  - left. now apply startsWith_startsWithI.
  - left. now apply startsWith_startsWithI.
  - right. now apply IH.
Qed.

Lemma reciters_search (eps : list Episode.t) (q : jsstring) :
  reciters eps q = filter (spec_reciterListed q) (reciters eps []).
Proof.
  destruct q as [|c q].
  - unfold spec_reciterListed. cbn [isEmpty orb]. now rewrite filter_all.
  - unfold reciters at 1. cbn [isEmpty negb].
    apply filter_ext. intros r. unfold spec_reciterListed.
    cbn [isEmpty orb]. now rewrite createSearchRegex_test.
Qed.

Lemma listed_reciter_occurs (eps : list Episode.t) (q : jsstring) (r : Reciter) :
  In r (reciters eps q) ->
  exists e, In e eps /\ Episode.reciter e = name r.
Proof.
  rewrite reciters_search. intros H. apply filter_In in H as [H _].
  rewrite reciters_all in H.
  apply in_map_iff in H as ([k v] & <- & Hin). cbn [fst snd name].
  apply seenReciters_images in Hin as [[] | (_ & e & Hf & _)].
  apply find_some in Hf as [He Hk]. apply eqb_str_spec in Hk. eauto.
Qed.

Lemma NoDup_map_filter {A B} (f : A -> B) (g : A -> bool) (l : list A) :
  NoDup (map f l) -> NoDup (map f (filter g l)).
Proof.
  induction l as [|x l IH]; intros H; [constructor|].
  cbn [map] in H. inversion H as [|? ? Hx Hl]; subst.
  cbn [filter]. destruct (g x); [|now apply IH].
  cbn [map]. constructor; [|now apply IH].
  intros Hin. apply Hx. apply in_map_iff in Hin as (y & Hy & Hin).
  apply filter_In in Hin as [Hin _]. apply in_map_iff. eauto.
Qed.

Lemma reciters_NoDup (eps : list Episode.t) (q : jsstring) :
  NoDup (map name (reciters eps q)).
Proof.
  rewrite reciters_search. apply NoDup_map_filter.
  rewrite reciters_names.
  apply (firstSeen_NoDup [] (map Episode.reciter eps)). constructor.
Qed.

(** X11.  Under a search, [reciters] lists those reciters of the full list
    that pass the test, in the same order and still without duplicates; a
    reciter whose normalized name contains the normalized query passes, so
    the search is blind to hamza forms, taa marbuta, alef maksura,
    diacritics and Latin case. *)
Theorem reciter_search_selects_from_the_list (episodes : list Episode.t)
    (reciterSearch : jsstring) :
  let listed := reciters episodes reciterSearch in
  listed = filter (spec_reciterListed reciterSearch) (reciters episodes [])
  /\ NoDup (map name listed)
  /\ (forall r,
        In r (reciters episodes []) ->
        includes (normalizeArabic reciterSearch) (normalizeArabic (name r))
        = true ->
        In r listed).
Proof.
  intros listed. unfold listed.
  split; [apply reciters_search|]. split; [apply reciters_NoDup|].
  intros r Hr Hinc. rewrite reciters_search. apply filter_In.
  split; [exact Hr|]. unfold spec_reciterListed.
  rewrite (includes_includesI _ _ Hinc). now rewrite orb_true_r.
Qed.

Lemma reciter_search_selects_from_the_list_witness :
  In (mkReciter (js "الشيخ أحمد") [])
     (reciters [baqarah; fatiha; yasin] (js "احمد"))
  /\ In (mkReciter (js "Āmir al-Muhalhal") [])
        (reciters [yasin; imran] (js "āmir")).
Proof.
  split.
  - apply (proj2 (proj2 (reciter_search_selects_from_the_list
                           [baqarah; fatiha; yasin] (js "احمد")))).
    + vm_compute. auto.
    + vm_compute. reflexivity.
  - apply (proj2 (proj2 (reciter_search_selects_from_the_list
                           [yasin; imran] (js "āmir")))).
    + vm_compute. auto.
    + vm_compute. reflexivity.
Defined.

(** X12.  The escaping of [createSearchRegex] is complete: the escaped
    string is a pattern of pattern characters and identity escapes only,
    whatever syntax characters the normalized query holds, and the code
    units it matches are those of the normalized query; so the regex tests
    true on a string exactly when the normalized query occurs in it, case
    ignored.  Without the escaping the pattern of the query "a.b" is no
    literal. *)
Theorem createSearchRegex_is_literal (query s : jsstring) :
  literalPattern (escapeRegExp (normalizeArabic query))
  = Some (normalizeArabic query)
  /\ createSearchRegex query = [LitI (normalizeArabic query)]
  /\ test (createSearchRegex query) s
     = spec_includesI (normalizeArabic query) s
  /\ literalPattern (js "a.b") = None
  /\ escapeRegExp (js "a.b") = js "a\.b"
  /\ test (createSearchRegex (js "a.b")) (js "axb") = false.
Proof.
  split; [apply literalPattern_escape|]. split; [|split].
  - unfold createSearchRegex, RegExpI. now rewrite literalPattern_escape.
  - apply createSearchRegex_test.
  - repeat split; vm_compute; reflexivity.
Qed.

Lemma startsWith_app (p v : jsstring) : startsWith p (p ++ v) = true.
Proof.
  induction p as [|a p IH]; [reflexivity|].
  cbn [app startsWith]. now rewrite Z.eqb_refl, IH.
Qed.

Lemma startsWith_elim (p s : jsstring) :
  startsWith p s = true -> exists v, s = p ++ v.
Proof.
  revert s. induction p as [|a p IH]; intros s H; [now exists s|].
  destruct s as [|b s]; [discriminate|]. cbn [startsWith] in H.
  apply andb_true_iff in H as [Hab Hp]. apply Z.eqb_eq in Hab. subst b.
  destruct (IH s Hp) as [v ->]. now exists v.
Qed.

Lemma includes_intro (p u v : jsstring) : includes p (u ++ p ++ v) = true.
Proof.
  induction u as [|c u IH].
  - cbn [app]. destruct (p ++ v) eqn:E; cbn [includes]; rewrite <- E;
      now rewrite startsWith_app.
  - cbn [app includes]. rewrite IH. apply orb_true_r.
Qed.

Lemma includes_elim (p s : jsstring) :
  includes p s = true -> exists u v, s = u ++ p ++ v.
Proof.
  induction s as [|c s IH]; cbn [includes]; rewrite orb_true_iff;
    intros [H | H]; try discriminate.
  - apply startsWith_elim in H as [v Hv]. now exists [], v.
  - apply startsWith_elim in H as [v Hv]. now exists [], v.
  - destruct (IH H) as (u & v & ->). now exists (c :: u), v.
Qed.

(** ** The second test of the reciter search *)

Lemma diacritic_ignorable (c : Z) :
  0x64B <= c <= 0x65F -> isCaseIgnorable c = true.
Proof.
  intros Hc. apply (forall_range isCaseIgnorable 0x64B 21);
    [vm_compute; reflexivity | lia].
Qed.

(** What the Arabic steps do to one code unit: a diacritic goes, five
    letters become three others, and nothing else changes. *)
Lemma arabicSteps_unit_cases (c : Z) :
  (0x600 <= c <= 0x6FF /\ isCaseIgnorable c = true /\ spec_arabicSteps [c] = [])
  \/ (0x600 <= c <= 0x6FF
      /\ exists c', 0x600 <= c' <= 0x6FF /\ spec_arabicSteps [c] = [c']
                    /\ caseless c = true /\ caseless c' = true)
  \/ (folded c = true /\ spec_arabicSteps [c] = [c]).
Proof.
  unfold spec_arabicSteps, spec_stripDiacritics, spec_alefMaksura,
    spec_taaMarbuta, spec_unifyAlef, folded.
  cbn [map].
  destruct (Z.eqb_spec c 0x623) as [->|?];
    [right; left; split; [lia|]; exists 0x627; vm_compute; intuition congruence|].
  destruct (Z.eqb_spec c 0x625) as [->|?];
    [right; left; split; [lia|]; exists 0x627; vm_compute; intuition congruence|].
  destruct (Z.eqb_spec c 0x622) as [->|?];
    [right; left; split; [lia|]; exists 0x627; vm_compute; intuition congruence|].
  cbn [orb].
  destruct (Z.eqb_spec c 0x629) as [->|?];
    [right; left; split; [lia|]; exists 0x647; vm_compute; intuition congruence|].
  destruct (Z.eqb_spec c 0x649) as [->|?];
    [right; left; split; [lia|]; exists 0x64A; vm_compute; intuition congruence|].
  cbn [filter negb andb].
  destruct (Z.leb_spec 0x64B c); destruct (Z.leb_spec c 0x65F); cbn [andb negb];
    try (right; right; split; reflexivity).
  left. split; [lia|]. split; [apply diacritic_ignorable; lia | reflexivity].
Qed.

Lemma casedLetterNext_arabicSteps (l : list Z) :
  casedLetterNext (spec_arabicSteps l) = casedLetterNext l.
Proof.
  induction l as [|c l IH]; [reflexivity|].
  rewrite arabicSteps_cons.
  destruct (arabicSteps_unit_cases c)
    as [(_ & Hi & ->) | [(_ & c' & _ & -> & Hc & Hc') | (_ & ->)]];
    cbn [app casedLetterNext].
  - now rewrite Hi.
  - unfold caseless in Hc, Hc'.
    apply andb_true_iff in Hc as [Hi Hd]. apply andb_true_iff in Hc' as [Hi' Hd'].
    apply negb_true_iff in Hi, Hd, Hi', Hd'.
    now rewrite Hi, Hd, Hi', Hd'.
  - now rewrite IH.
Qed.

Lemma lowerPoint_arabic (before : list Z) (c : Z) (after : list Z) :
  0x600 <= c <= 0x6FF -> lowerPoint before c after = [c].
Proof.
  intros Hc. unfold lowerPoint.
  destruct (Z.eqb_spec c 0x3A3); [lia|]. destruct (Z.eqb_spec c 0x130); [lia|].
  now rewrite simpleLower_arabic.
Qed.

Lemma lowerPoint_folded (before : list Z) (c : Z) (after : list Z) :
  folded c = true -> forallb folded (lowerPoint before c after) = true.
Proof.
  intros Hc. unfold lowerPoint.
  destruct (c =? 0x3A3); [now destruct (finalSigma before after)|].
  destruct (c =? 0x130); [reflexivity|].
  cbn [forallb]. now rewrite (simpleLower_folded c Hc).
Qed.

Lemma lowerPoint_arabicSteps (before : list Z) (c : Z) (after : list Z) :
  lowerPoint (spec_arabicSteps before) c (spec_arabicSteps after)
  = lowerPoint before c after.
Proof.
  unfold lowerPoint, finalSigma. now rewrite !casedLetterNext_arabicSteps.
Qed.

(** On code points the two commute: the steps rewrite letters without
    case, and what they strip is ignored by the context of a sigma. *)
Lemma arabicSteps_lowerPoints (before cps : list Z) :
  spec_arabicSteps (lowerPoints before cps)
  = lowerPoints (spec_arabicSteps before) (spec_arabicSteps cps).
Proof.
  revert before. induction cps as [|c cps IH]; intros before; [reflexivity|].
  cbn [lowerPoints]. rewrite arabicSteps_app, IH.
  rewrite (arabicSteps_cons c cps), (arabicSteps_cons c before).
  destruct (arabicSteps_unit_cases c)
    as [(Hr & _ & Hc) | [(Hr & c' & Hr' & Hc & _) | (Hf & Hc)]].
  - rewrite (lowerPoint_arabic _ _ _ Hr), Hc. reflexivity.
  - rewrite (lowerPoint_arabic _ _ _ Hr), Hc. cbn [app lowerPoints].
    now rewrite (lowerPoint_arabic _ _ _ Hr').
  - rewrite Hc. cbn [app lowerPoints].
    rewrite lowerPoint_arabicSteps.
    now rewrite (arabicSteps_fixed _ (lowerPoint_folded before c cps Hf)).
Qed.

(** *** Strings without surrogates *)

Lemma fromCodePoints_bmp (cps : list Z) :
  forallb (fun c => negb (isSupplementary c)) cps = true ->
  fromCodePoints cps = cps.
Proof.
  unfold fromCodePoints. induction cps as [|c cps IH]; [reflexivity|].
  cbn [forallb flat_map]. rewrite andb_true_iff. intros [Hc Hs].
  apply negb_true_iff in Hc.
  replace (codeUnits c) with [c] by (unfold codeUnits; now rewrite Hc).
  cbn [app]. f_equal. exact (IH Hs).
Qed.

Lemma lowerPoints_bmp (before cps : list Z) :
  forallb (fun c => negb (isSupplementary c)) cps = true ->
  forallb (fun c => negb (isSupplementary c)) (lowerPoints before cps) = true.
Proof.
  revert before. induction cps as [|c cps IH]; intros before; [reflexivity|].
  cbn [forallb lowerPoints]. rewrite andb_true_iff. intros [Hc Hs].
  rewrite forallb_app, (IH _ Hs), andb_true_r. unfold lowerPoint.
  destruct (c =? 0x3A3); [now destruct (finalSigma before cps)|].
  destruct (c =? 0x130); [reflexivity|].
  cbn [forallb]. now rewrite simpleLower_plane, Hc.
Qed.

Lemma scalarUnit_parts (s : jsstring) :
  forallb scalarUnit s = true ->
  forallb (fun c => negb (isHighSurrogate c)) s = true
  /\ forallb (fun c => negb (isSupplementary c)) s = true.
Proof.
  induction s as [|c s IH]; [auto|].
  cbn [forallb]. rewrite !andb_true_iff. intros [Hc Hs].
  destruct (IH Hs) as [H1 H2]. rewrite H1, H2.
  unfold scalarUnit in Hc. apply andb_true_iff in Hc as [Hc1 Hc2].
  rewrite Hc2. split; [|auto]. split; [|reflexivity].
  apply negb_true_iff in Hc1. apply negb_true_iff.
  destruct (isHighSurrogate c) eqn:E; [|reflexivity].
  now rewrite (surrogate_high c E) in Hc1.
Qed.

Lemma toLowerCase_scalar (s : jsstring) :
  forallb scalarUnit s = true -> toLowerCase s = lowerPoints [] s.
Proof.
  intros H. destruct (scalarUnit_parts s H) as [Hh Hp].
  unfold toLowerCase. rewrite (codePoints_plain s Hh).
  now apply fromCodePoints_bmp, lowerPoints_bmp.
Qed.

Lemma arabicSteps_scalar (s : jsstring) :
  forallb scalarUnit s = true -> forallb scalarUnit (spec_arabicSteps s) = true.
Proof.
  induction s as [|c s IH]; [reflexivity|].
  cbn [forallb]. rewrite andb_true_iff. intros [Hc Hs].
  rewrite arabicSteps_cons, forallb_app, (IH Hs), andb_true_r.
  destruct (arabicSteps_unit_cases c)
    as [(_ & _ & ->) | [(_ & c' & Hr' & -> & _) | (_ & ->)]].
  - reflexivity.
  - cbn [forallb]. rewrite andb_true_r.
    unfold scalarUnit, isSurrogate, isSupplementary, inRange.
    destruct (Z.leb_spec 0xD800 c'); [lia|].
    destruct (Z.leb_spec 0x10000 c'); [lia|]. reflexivity.
  - cbn [forallb]. now rewrite Hc.
Qed.

(** Lowercasing first and normalizing after is normalizing. *)
Lemma arabicSteps_toLowerCase (s : jsstring) :
  forallb scalarUnit s = true ->
  spec_arabicSteps (toLowerCase s) = normalizeArabic s.
Proof.
  intros H. rewrite normalizeArabic_unfold, (toLowerCase_scalar s H),
    (toLowerCase_scalar _ (arabicSteps_scalar s H)).
  apply arabicSteps_lowerPoints.
Qed.

Lemma includes_arabicSteps (p s : jsstring) :
  includes p s = true ->
  includes (spec_arabicSteps p) (spec_arabicSteps s) = true.
Proof.
  intros H. apply includes_elim in H as (u & v & ->).
  rewrite !arabicSteps_app. apply includes_intro.
Qed.

Lemma lowercase_test_redundant (q n : jsstring) :
  forallb scalarUnit q = true -> forallb scalarUnit n = true ->
  includes (toLowerCase q) (toLowerCase n) = true ->
  test (createSearchRegex q) (normalizeArabic n) = true.
Proof.
  intros Hq Hn H. rewrite createSearchRegex_test. apply includes_includesI.
  rewrite <- (arabicSteps_toLowerCase q Hq), <- (arabicSteps_toLowerCase n Hn).
  now apply includes_arabicSteps.
Qed.

(** X13.  For a query and reciter names without surrogate code units, the
    second test of the reciter search, on the lowercased name and query,
    never adds a reciter: a name whose lowercase form contains the
    lowercased query is already matched by the regex on the normalized
    name, so the list under a search is the full list filtered by the regex
    test alone. *)
Theorem reciter_search_is_the_regex_test (episodes : list Episode.t)
    (reciterSearch : jsstring) :
  forallb scalarUnit reciterSearch = true ->
  Forall (fun e => forallb scalarUnit (Episode.reciter e) = true) episodes ->
  reciters episodes reciterSearch
  = filter (fun r => isEmpty reciterSearch
                     || test (createSearchRegex reciterSearch)
                          (normalizeArabic (name r)))
           (reciters episodes []).
Proof.
  intros Hq Heps. rewrite reciters_search. apply filter_ext_in. intros r Hr.
  unfold spec_reciterListed. rewrite <- createSearchRegex_test.
  destruct (isEmpty reciterSearch); [reflexivity|]. cbn [orb].
  destruct (includes (toLowerCase reciterSearch) (toLowerCase (name r))) eqn:E;
    [|apply orb_false_r].
  assert (Hn : forallb scalarUnit (name r) = true).
  { destruct (listed_reciter_occurs episodes [] r Hr) as (e & He & <-).
    exact (proj1 (Forall_forall _ _) Heps e He). }
  now rewrite (lowercase_test_redundant _ _ Hq Hn E).
Qed.

Lemma reciter_search_is_the_regex_test_witness :
  reciters [yasin; imran] (js "ĀMIR")
  = filter (fun r => isEmpty (js "ĀMIR")
                     || test (createSearchRegex (js "ĀMIR"))
                          (normalizeArabic (name r)))
           (reciters [yasin; imran] []).
Proof.
  apply (reciter_search_is_the_regex_test [yasin; imran] (js "ĀMIR")).
  - vm_compute. reflexivity.
  - apply Forall_forall. intros e He.
    assert (H : forallb (fun e => forallb scalarUnit (Episode.reciter e))
                  [yasin; imran] = true) by (vm_compute; reflexivity).
    rewrite forallb_forall in H. exact (H e He).
Defined.

(** With lone surrogates the second test can add a reciter: the
    normalizer strips the diacritic between the two halves, the pair they
    then form is one letter to the lowercasing, and the low half the query
    asks for is gone. *)
Example reciter_search_lone_surrogates :
  let ep := Episode.mk [] [] [0xD801; 0x64B; 0xDC00] [] [] [] [] in
  reciters [ep] [0xDC00] = [mkReciter [0xD801; 0x64B; 0xDC00] []]
  /\ test (createSearchRegex [0xDC00]) (normalizeArabic [0xD801; 0x64B; 0xDC00])
     = false.
Proof. vm_compute. split; reflexivity. Qed.

(** ** Regular expressions of the form [a(cls*?)b] *)

Section Sandwich.

Variable cls : Z -> bool.
Variables a b : jsstring.

Lemma matchAt_sandwich (cap s : jsstring) :
  matchAt [Lit a; Star true cls; Lit b] cap s
  = if startsWith a s then lazyUntil cls b [] (skipn (List.length a) s)
    else None.
Proof.
  cbn [matchAt]. destruct (startsWith a s); [|reflexivity].
  generalize (skipn (List.length a) s). generalize (@nil Z).
  intros taken t. revert taken.
  induction t as [|c t IH]; intros taken.
  - cbn. now destruct (startsWith b []).
  - cbn [lazyUntil]. destruct (startsWith b (c :: t)) eqn:E; [reflexivity|].
    destruct (cls c); [|reflexivity]. apply IH.
Qed.

Lemma skipn_startsWith (p s : jsstring) :
  startsWith p s = true -> s = p ++ skipn (List.length p) s.
Proof.
  revert s. induction p as [|x p IH]; intros s H; [reflexivity|].
  destruct s as [|y s]; [discriminate|]. cbn [startsWith] in H.
  apply andb_true_iff in H as [Hxy Hp]. apply Z.eqb_eq in Hxy. subst y.
  cbn [List.length skipn app]. f_equal. now apply IH.
Qed.

(** What the lazy star returns: the text read, all of the class, followed
    by [b]; and [b] does not start anywhere inside the text read. *)
Lemma lazyUntil_sound (taken t g rest : jsstring) :
  lazyUntil cls b taken t = Some (g, rest) ->
  exists g',
    g = rev taken ++ g' /\ t = g' ++ b ++ rest
    /\ forallb cls g' = true
    /\ forall u v, g' = u ++ v -> v <> [] ->
                   startsWith b (v ++ b ++ rest) = false.
Proof.
  revert taken. induction t as [|c t IH]; intros taken H.
  - cbn [lazyUntil] in H. destruct (startsWith b []) eqn:E; [|discriminate].
    injection H as <- <-. exists []. rewrite app_nil_r.
    repeat split; try reflexivity.
    + now apply skipn_startsWith.
    + intros u v Huv Hv. destruct u, v; try discriminate. congruence.
  - cbn [lazyUntil] in H. destruct (startsWith b (c :: t)) eqn:E.
    + injection H as <- <-. exists []. rewrite app_nil_r.
      repeat split; try reflexivity.
      * now apply skipn_startsWith.
      * intros u v Huv Hv. destruct u, v; try discriminate. congruence.
    + destruct (cls c) eqn:Hc; [|discriminate].
      apply IH in H as (g' & Hg & Ht & Hcls & Hmin).
      exists (c :: g'). cbn [rev] in Hg. rewrite <- app_assoc in Hg.
      repeat split.
      * exact Hg.
      * cbn [app]. now rewrite Ht.
      * cbn [forallb]. now rewrite Hc, Hcls.
      * intros u v Huv Hv. destruct u as [|x u].
        -- cbn [app] in Huv. subst v. cbn [app]. now rewrite <- Ht.
        -- cbn [app] in Huv. injection Huv as _ Huv. now apply (Hmin u v).
Qed.

Lemma search_sound (s g rest : jsstring) :
  search [Lit a; Star true cls; Lit b] s = Some (g, rest) ->
  exists pre,
    s = pre ++ a ++ g ++ b ++ rest
    /\ forallb cls g = true
    /\ (b <> [] -> includes b g = false).
Proof.
  assert (Hat : forall t, matchAt [Lit a; Star true cls; Lit b] [] t
                          = Some (g, rest) ->
                  t = a ++ g ++ b ++ rest /\ forallb cls g = true
                  /\ (b <> [] -> includes b g = false)).
  { intros t H. rewrite matchAt_sandwich in H.
    destruct (startsWith a t) eqn:Ea; [|discriminate].
    apply lazyUntil_sound in H as (g' & Hg & Ht & Hcls & Hmin).
    cbn [rev app] in Hg. subst g'. split; [|split; [exact Hcls|]].
    - rewrite (skipn_startsWith a t Ea) at 1. now rewrite Ht.
    - intros Hb. apply not_true_iff_false. intros Hinc.
      apply includes_elim in Hinc as (u & v & Huv).
      assert (Hv : b ++ v <> []) by (destruct b; [congruence | discriminate]).
      specialize (Hmin u (b ++ v) Huv Hv).
      rewrite <- app_assoc, startsWith_app in Hmin. discriminate. }
  induction s as [|c s IH]; cbn [search]; intros H.
  - destruct (matchAt _ [] []) eqn:E; [|discriminate].
    injection H as ->. apply Hat in E as (E & ? & ?). exists []. auto.
  - destruct (matchAt _ [] (c :: s)) eqn:E.
    + injection H as ->. apply Hat in E as (E & ? & ?). exists []. auto.
    + apply IH in H as (pre & -> & ? & ?). exists (c :: pre). auto.
Qed.

Lemma search_absent (s : jsstring) :
  includes a s = false -> search [Lit a; Star true cls; Lit b] s = None.
Proof.
  induction s as [|c s IH]; cbn [includes search]; intros H;
    apply orb_false_iff in H as [H1 H2]; rewrite matchAt_sandwich, H1.
  - reflexivity.
  - now apply IH.
Qed.

Lemma execAll_sound (s : jsstring) (skip : nat) (g : jsstring) :
  In g (execAll [Lit a; Star true cls; Lit b] s skip) ->
  includes (a ++ g ++ b) s = true
  /\ forallb cls g = true
  /\ (b <> [] -> includes b g = false).
Proof.
  revert skip. induction s as [|c s IH]; intros skip H; [contradiction|].
  cbn [execAll] in H. destruct skip as [|k].
  - destruct (matchAt _ [] (c :: s)) as [[cap rest]|] eqn:E.
    + destruct H as [<- | H].
      * assert (Hs : search [Lit a; Star true cls; Lit b] (c :: s)
                     = Some (cap, rest)) by (cbn [search]; now rewrite E).
        apply search_sound in Hs as (pre & Hs & Hc & Hb).
        split; [|split; assumption]. rewrite Hs.
        replace (pre ++ a ++ cap ++ b ++ rest)
          with (pre ++ (a ++ cap ++ b) ++ rest)
          by (now rewrite <- !app_assoc).
        apply includes_intro.
      * apply IH in H as (Hi & ? & ?). split; [|split; assumption].
        cbn [includes]. rewrite Hi. apply orb_true_r.
    + apply IH in H as (Hi & ? & ?). split; [|split; assumption].
      cbn [includes]. rewrite Hi. apply orb_true_r.
  - apply IH in H as (Hi & ? & ?). split; [|split; assumption].
    cbn [includes]. rewrite Hi. apply orb_true_r.
Qed.

End Sandwich.

Lemma includes_trans (p c s : jsstring) :
  includes p c = true -> includes c s = true -> includes p s = true.
Proof.
  intros Hp Hc.
  apply includes_elim in Hp as (u2 & v2 & ->).
  apply includes_elim in Hc as (u1 & v1 & ->).
  replace (u1 ++ (u2 ++ p ++ v2) ++ v1) with ((u1 ++ u2) ++ p ++ (v2 ++ v1))
    by (now rewrite <- !app_assoc).
  apply includes_intro.
Qed.

Lemma includes_unit (x : Z) (s : jsstring) :
  includes [x] s = false -> ~ In x s.
Proof.
  induction s as [|c s IH]; [auto|].
  cbn [includes startsWith]. rewrite andb_true_r. intros H.
  apply orb_false_iff in H as [H1 H2]. apply Z.eqb_neq in H1.
  intros [Heq | Hin]; [congruence | now apply IH].
Qed.

Lemma candidatesFrom_In (randomId : nat -> jsstring) (channelImage : jsstring)
    (contents : list jsstring) (calls : nat) (e : Episode.t) :
  In e (candidatesFrom randomId channelImage calls contents) ->
  exists n content,
    In content contents /\ e = candidateOf randomId channelImage n content.
Proof.
  revert calls. induction contents as [|c rest IH]; intros calls H;
    [contradiction|].
  cbn [candidatesFrom] in H. destruct H as [<- | H].
  - exists calls, c. split; [now left | reflexivity].
  - apply IH in H as (n & content & Hin & He).
    exists n, content. split; [now right | exact He].
Qed.

(** X14.  Every item block the loop visits is the text between an
    "<item>" and the first "</item>" after it: it occurs in the feed between
    the two tags and holds no "</item>" itself. *)
Theorem item_blocks_are_delimited (xmlText content : jsstring) :
  In content (execAll itemRegex xmlText O) ->
  includes (js "<item>" ++ content ++ js "</item>") xmlText = true
  /\ includes (js "</item>") content = false.
Proof.
  intros H. unfold itemRegex in H.
  apply execAll_sound in H as (Hi & _ & Hb).
  split; [exact Hi|]. apply Hb. discriminate.
Qed.

Lemma item_blocks_are_delimited_witness :
  includes (js "<item>" ++ js "a" ++ js "</item>")
           (js "<item>a</item><item>b</item>") = true
  /\ includes (js "</item>") (js "a") = false.
Proof.
  apply (item_blocks_are_delimited (js "<item>a</item><item>b</item>") (js "a")).
  vm_compute. auto.
Defined.

(** X15.  The audio URL of every episode extracted is text the feed holds
    between the opening of an enclosure url attribute and the next double
    quote, inside an item block: it is not empty, it has no double quote and
    no line terminator in it, and the feed contains it with the attribute
    around it. *)
Theorem extracted_url_is_the_quoted_text (randomId : nat -> jsstring)
    (xmlText : jsstring) :
  Forall
    (fun e =>
       Episode.url e <> []
       /\ ~ In 34 (Episode.url e)
       /\ forallb (fun c => negb (isLineTerminator c)) (Episode.url e) = true
       /\ includes (js "<enclosure url=" ++ quote ++ Episode.url e ++ quote)
                   xmlText = true)
    (extractEpisodes randomId xmlText).
Proof.
  rewrite extractEpisodes_filter. apply Forall_forall. intros e He.
  apply filter_In in He as [He Hurl].
  unfold candidateEpisodes in He.
  apply candidatesFrom_In in He as (n & content & Hc & ->).
  unfold hasUrl in Hurl. cbn [Episode.url candidateOf] in *.
  unfold enclosureUrl, group1 in *.
  unfold itemRegex in Hc. apply execAll_sound in Hc as (Hitem & _ & _).
  unfold enclosureRegex in *.
  destruct (search _ content) as [[u rest]|] eqn:Hs; cbn [option_map fst orDefault] in *;
    [|discriminate].
  apply search_sound in Hs as (pre & Hcontent & Hdot & Hq).
  split; [destruct u; [discriminate | discriminate]|].
  split; [apply includes_unit, Hq; discriminate|].
  split; [exact Hdot|].
  apply (includes_trans _ content).
  - rewrite Hcontent.
    replace (pre ++ (js "<enclosure url=" ++ quote) ++ u ++ quote ++ rest)
      with (pre ++ (js "<enclosure url=" ++ quote ++ u ++ quote) ++ rest)
      by (now rewrite <- !app_assoc).
    apply includes_intro.
  - apply (includes_trans _ (js "<item>" ++ content ++ js "</item>"));
      [apply (includes_intro content (js "<item>") (js "</item>")) | exact Hitem].
Qed.

(** ** More on the title parser *)

Lemma splitTitle_nonempty (fullTitle : jsstring) : splitTitle fullTitle <> [].
Proof.
  unfold splitTitle. intros H. apply map_eq_nil in H.
  now apply split_nonempty in H.
Qed.

Lemma markedSegment_none (parts : list jsstring) :
  markedSegment parts = None <-> existsb hasMarker parts = false.
Proof.
  unfold markedSegment, hasMarker. split.
  - intros H. destruct (find hasArabicMarker parts) eqn:HA; [discriminate|].
    apply not_true_iff_false. intros Hex.
    apply existsb_exists in Hex as (p & Hp & Hm).
    apply orb_true_iff in Hm as [Hm | Hm].
    + now rewrite (find_none _ _ HA p Hp) in Hm.
    + now rewrite (find_none _ _ H p Hp) in Hm.
  - intros H.
    assert (Hall : forall p, In p parts ->
                     hasArabicMarker p = false /\ hasEnglishMarker p = false).
    { intros p Hp. apply orb_false_iff.
      apply not_true_iff_false. intros Hm.
      apply (proj2 (not_true_iff_false _) H).
      apply existsb_exists. eauto. }
    destruct (find hasArabicMarker parts) as [p|] eqn:HA.
    + apply find_some in HA as [Hp Hm].
      destruct (Hall p Hp) as [Hm' _]. congruence.
    + destruct (find hasEnglishMarker parts) as [p|] eqn:HE; [|reflexivity].
      apply find_some in HE as [Hp Hm].
      destruct (Hall p Hp) as [_ Hm']. congruence.
Qed.

Lemma markedSegment_In (parts : list jsstring) (p : jsstring) :
  markedSegment parts = Some p -> In p parts /\ hasMarker p = true.
Proof.
  unfold markedSegment, hasMarker.
  destruct (find hasArabicMarker parts) as [q|] eqn:HA.
  - intros [= <-]. apply find_some in HA as [Hp Hm].
    split; [exact Hp | now rewrite Hm].
  - intros HE. apply find_some in HE as [Hp Hm].
    split; [exact Hp | rewrite Hm; apply orb_true_r].
Qed.

(** X16.  The chapter label the parser returns is never made up: the
    title always has at least one segment, and the label is one of the
    trimmed segments, one that carries a marker whenever a segment does. *)
Theorem chapter_label_is_a_segment (fullTitle : jsstring) :
  let parts := splitTitle fullTitle in
  parts <> []
  /\ In (surah (parseTitle fullTitle)) parts
  /\ (existsb hasMarker parts = true ->
      hasMarker (surah (parseTitle fullTitle)) = true).
Proof.
  intros parts.
  pose proof (splitTitle_nonempty fullTitle) as Hne. fold parts in Hne.
  split; [exact Hne|].
  change (surah (parseTitle fullTitle)) with (surah (rawLabels fullTitle)).
  destruct (markedSegment parts) as [p|] eqn:Hm.
  - destruct (rawLabels_marked fullTitle p Hm) as [_ ->].
    apply markedSegment_In in Hm as [Hp Hmk]. auto.
  - destruct parts as [|p rest] eqn:Hparts; [congruence|].
    rewrite (rawLabels_unmarked fullTitle p rest Hparts Hm). cbn [surah].
    split; [now left|]. apply markedSegment_none in Hm. congruence.
Qed.

Lemma chapter_label_is_a_segment_witness :
  hasMarker (surah (parseTitle (js "Mishary | Surah Yasin | سورة يس"))) = true.
Proof.
  apply (proj2 (proj2 (chapter_label_is_a_segment
                         (js "Mishary | Surah Yasin | سورة يس")))).
  reflexivity.
Defined.

(** X17.  When no segment carries a marker, the parser falls back on the
    position: the first segment is the chapter label and the others, joined
    by single spaces and not trimmed again, make the reciter label that the
    sentinel test then sees. *)
Theorem unmarked_title_falls_back (fullTitle : jsstring) :
  existsb hasMarker (splitTitle fullTitle) = false ->
  parseTitle fullTitle
  = mkLabels (hd [] (splitTitle fullTitle))
             (sentinelReciter (join (js " ") (tl (splitTitle fullTitle)))).
Proof.
  intros H. apply markedSegment_none in H.
  destruct (splitTitle fullTitle) as [|p rest] eqn:Hparts.
  - now apply splitTitle_nonempty in Hparts.
  - unfold parseTitle.
    now rewrite (rawLabels_unmarked fullTitle p rest Hparts H).
Qed.

Lemma unmarked_title_falls_back_witness :
  parseTitle (js "Al-Fatiha - Mishary Rashid - HQ")
  = mkLabels (js "Al-Fatiha") (js "Mishary Rashid HQ").
Proof.
  rewrite (unmarked_title_falls_back (js "Al-Fatiha - Mishary Rashid - HQ"));
    reflexivity.
Defined.

(** X18.  When a segment carries a marker, the reciter the parser returns
    has no whitespace around it: it is the sentinel, or the trimmed join of
    the other segments, which is not empty and neither begins nor ends with
    a whitespace code unit. *)
Theorem marked_title_reciter_is_trimmed (fullTitle : jsstring) :
  existsb hasMarker (splitTitle fullTitle) = true ->
  let r := reciter (parseTitle fullTitle) in
  r <> []
  /\ (forall c rest, r = c :: rest -> isTrimmable c = false)
  /\ (forall c front, r = front ++ [c] -> isTrimmable c = false).
Proof.
  intros H r.
  assert (Hr : r = sentinelReciter
                     (trim (join (js " ")
                              (segmentsOutside
                                 (indexOfFirst hasArabicMarker (splitTitle fullTitle))
                                 (indexOfFirst hasEnglishMarker (splitTitle fullTitle))
                                 (splitTitle fullTitle))))).
  { destruct (markedSegment (splitTitle fullTitle)) as [p|] eqn:Hm.
    - destruct (rawLabels_marked fullTitle p Hm) as [Hraw _].
      unfold r, parseTitle, sentinelLabels. cbn [reciter].
      now rewrite Hraw, markerLabels_spec.
    - apply markedSegment_none in Hm. congruence. }
  rewrite Hr. generalize (segmentsOutside
                            (indexOfFirst hasArabicMarker (splitTitle fullTitle))
                            (indexOfFirst hasEnglishMarker (splitTitle fullTitle))
                            (splitTitle fullTitle)).
  intros segs. unfold sentinelReciter.
  destruct (isEmpty (trim (join (js " ") segs))
            || eqb_str (trim (join (js " ") segs)) UNKNOWN_ARABIC
            || eqb_str (trim (join (js " ") segs)) UNKNOWN_ENGLISH) eqn:E.
  - split; [discriminate|]. split.
    + intros c rest Hc. vm_compute in Hc. injection Hc as <- _. reflexivity.
    + intros c front Hc. apply (f_equal (@rev Z)) in Hc.
      rewrite rev_app_distr in Hc. vm_compute in Hc.
      injection Hc as <- _. reflexivity.
  - apply orb_false_iff in E as [E _]. apply orb_false_iff in E as [E _].
    split; [intros Hn; rewrite Hn in E; discriminate|]. split.
    + intros c rest. apply trim_head.
    + intros c front. apply trim_last.
Qed.

Lemma marked_title_reciter_is_trimmed_witness :
  reciter (parseTitle (js "سورة البقرة |   الشيخ محمد  ")) <> [].
Proof.
  apply (marked_title_reciter_is_trimmed (js "سورة البقرة |   الشيخ محمد  ")).
  reflexivity.
Defined.

(** ** Identifiers *)

Lemma candidatesFrom_guids (r1 r2 : nat -> jsstring) (channelImage : jsstring)
    (contents : list jsstring) (n1 n2 : nat) :
  Forall (fun c => group1 guidRegex c <> None) contents ->
  candidatesFrom r1 channelImage n1 contents
  = candidatesFrom r2 channelImage n2 contents.
Proof.
  intros H. revert n1 n2.
  induction H as [|c rest Hc _ IH]; intros n1 n2; [reflexivity|].
  cbn [candidatesFrom]. unfold candidateOf.
  destruct (group1 guidRegex c) as [g|]; [|congruence].
  cbn [orDefault]. f_equal. apply IH.
Qed.

(** X19.  [Math.random] decides nothing when every item block has a
    guid: the episodes extracted are then the same whatever the random
    numbers are, each with its guid as id. *)
Theorem guids_make_extraction_deterministic (r1 r2 : nat -> jsstring)
    (xmlText : jsstring) :
  Forall (fun c => group1 guidRegex c <> None) (execAll itemRegex xmlText O) ->
  extractEpisodes r1 xmlText = extractEpisodes r2 xmlText.
Proof.
  intros H. rewrite !extractEpisodes_filter. unfold candidateEpisodes.
  now rewrite (candidatesFrom_guids r1 r2 _ _ O O H).
Qed.

Lemma guids_make_extraction_deterministic_witness :
  extractEpisodes (fun _ => js "0.25") sampleFeed
  = extractEpisodes (fun _ => js "0.75") sampleFeed.
Proof.
  apply (guids_make_extraction_deterministic
           (fun _ => js "0.25") (fun _ => js "0.75") sampleFeed).
  assert (H : forallb (fun c => match group1 guidRegex c with
                                | Some _ => true
                                | None => false
                                end)
                (execAll itemRegex sampleFeed O) = true)
    by (vm_compute; reflexivity).
  apply Forall_forall. intros c Hc.
  rewrite forallb_forall in H. specialize (H c Hc).
  destruct (group1 guidRegex c); [discriminate | discriminate H].
Defined.

Example extract_sampleFeed :
  map (fun e => (Episode.id e, Episode.surah e, Episode.reciter e,
                 Episode.url e, Episode.image e, Episode.duration e))
      (extractEpisodes (fun _ => js "0.25") sampleFeed)
  = [(js "guid-2", js "سورة البقرة", js "الشيخ محمد",
      js "https://example.org/2.mp3", js "https://example.org/c.png",
      js "00:00");
     (js "guid-37", js "Surah Yasin", js "Sheikh Ahmad",
      js "https://example.org/36.mp3", js "https://example.org/c.png",
      js "20:00")].
Proof. vm_compute. reflexivity. Qed.

(** ** Queries *)

Lemma spaceTerms_nil : spec_spaceTerms [] = [].
Proof. reflexivity. Qed.

Lemma selectedBy_terms (sel q : jsstring) (e : Episode.t) :
  selectedBy sel q e
  = spec_reciterSelected sel e
    && spec_everyTermOccurs (spec_spaceTerms q) e.
Proof.
  unfold selectedBy. destruct q as [|c q]; [|reflexivity].
  now rewrite spaceTerms_nil.
Qed.

(** X20.  The episode search sees the query through its normalization
    only: two queries with the same normalized form, such as two spellings
    of a name, give the same list in the same order. *)
Theorem equal_normalization_equal_results (getSurahOrder : jsstring -> Z)
    (h : store) (episodes : ref) (selectedReciter q1 q2 : jsstring) :
  normalizeArabic q1 = normalizeArabic q2 ->
  let hr1 := filteredEpisodes getSurahOrder h episodes selectedReciter q1 in
  let hr2 := filteredEpisodes getSurahOrder h episodes selectedReciter q2 in
  deref (fst hr1) (snd hr1) = deref (fst hr2) (snd hr2).
Proof.
  intros Hn hr1 hr2. unfold hr1, hr2.
  rewrite !filteredEpisodes_contents. f_equal.
  apply filter_ext. intros e. rewrite !selectedBy_terms.
  unfold spec_spaceTerms. now rewrite Hn.
Qed.

Lemma equal_normalization_equal_results_witness :
  deref (fst (filteredEpisodes sampleOrder [[baqarah; fatiha; yasin]] O
                (js "All") (js "أَحْمَد")))
        (snd (filteredEpisodes sampleOrder [[baqarah; fatiha; yasin]] O
                (js "All") (js "أَحْمَد")))
  = deref (fst (filteredEpisodes sampleOrder [[baqarah; fatiha; yasin]] O
                  (js "All") (js "احمد")))
          (snd (filteredEpisodes sampleOrder [[baqarah; fatiha; yasin]] O
                  (js "All") (js "احمد")))
  /\ deref (fst (filteredEpisodes sampleOrder [[baqarah; fatiha; yasin]] O
                   (js "All") (js "ĀL ʿIMRĀN")))
           (snd (filteredEpisodes sampleOrder [[baqarah; fatiha; yasin]] O
                   (js "All") (js "ĀL ʿIMRĀN")))
     = deref (fst (filteredEpisodes sampleOrder [[baqarah; fatiha; yasin]] O
                     (js "All") (js "āl ʿimrān")))
             (snd (filteredEpisodes sampleOrder [[baqarah; fatiha; yasin]] O
                     (js "All") (js "āl ʿimrān"))).
Proof.
  split.
  - apply (equal_normalization_equal_results sampleOrder
             [[baqarah; fatiha; yasin]] O (js "All") (js "أَحْمَد") (js "احمد")).
    vm_compute. reflexivity.
  - apply (equal_normalization_equal_results sampleOrder
             [[baqarah; fatiha; yasin]] O (js "All") (js "ĀL ʿIMRĀN")
             (js "āl ʿimrān")).
    vm_compute. reflexivity.
Defined.

Lemma split_app (sep : Z) (a b : jsstring) :
  split sep (a ++ sep :: b)
  = split sep a ++ split sep b.
Proof.
  induction a as [|c a IH].
  - cbn [app split]. now rewrite Z.eqb_refl.
  - cbn [app split]. rewrite IH. destruct (c =? sep); [reflexivity|].
    destruct (split sep a) eqn:E; [now apply split_nonempty in E|].
    reflexivity.
Qed.

Lemma spaceTerms_app (q1 q2 : jsstring) :
  spec_spaceTerms (q1 ++ js " " ++ q2)
  = spec_spaceTerms q1 ++ spec_spaceTerms q2.
Proof.
  unfold spec_spaceTerms. rewrite normalizeArabic_space.
  change (js " ") with [32]. cbn [app].
  now rewrite split_app, filter_app.
Qed.

(** X21.  Terms narrow the search: the episodes selected by two queries
    joined with a space are exactly those that each of the two queries
    selects, in the same canonical order. *)
Theorem joined_queries_intersect (getSurahOrder : jsstring -> Z)
    (h : store) (episodes : ref) (selectedReciter q1 q2 : jsstring) :
  let hr := filteredEpisodes getSurahOrder h episodes selectedReciter
              (q1 ++ js " " ++ q2) in
  deref (fst hr) (snd hr)
  = stableSort (bySurahOrder getSurahOrder)
      (filter (fun e => selectedBy selectedReciter q1 e
                        && selectedBy selectedReciter q2 e)
              (deref h episodes)).
Proof.
  intros hr. unfold hr. rewrite filteredEpisodes_contents. f_equal.
  apply filter_ext. intros e. rewrite !selectedBy_terms, spaceTerms_app.
  unfold spec_everyTermOccurs. rewrite forallb_app.
  destruct (spec_reciterSelected selectedReciter e); [reflexivity|].
  reflexivity.
Qed.

(** ** From the list of reciters to the list of episodes *)

(** X22.  Selecting a reciter from the list never shows an empty page:
    for every reciter that [reciters] lists, under any search,
    [filteredEpisodes] with that name selected and no query returns at least
    one episode, and, unless the name is "All", only episodes of that
    reciter. *)
Theorem listed_reciter_has_episodes (getSurahOrder : jsstring -> Z)
    (h : store) (ref_ : ref) (reciterSearch : jsstring) (r : Reciter) :
  In r (reciters (deref h ref_) reciterSearch) ->
  let hr := filteredEpisodes getSurahOrder h ref_ (name r) [] in
  deref (fst hr) (snd hr) <> []
  /\ (name r <> js "All" ->
      forall e, In e (deref (fst hr) (snd hr)) -> Episode.reciter e = name r).
Proof.
  intros Hr hr.
  destruct (listed_reciter_occurs _ _ _ Hr) as (e & He & Hn).
  assert (Hp : Permutation (deref (fst hr) (snd hr))
                 (filter (selectedBy (name r) []) (deref h ref_))).
  { unfold hr. rewrite filteredEpisodes_contents. apply stableSort_perm. }
  split.
  - assert (Hin : In e (deref (fst hr) (snd hr))).
    { apply (Permutation_in _ (Permutation_sym Hp)). apply filter_In.
      split; [exact He|]. unfold selectedBy, spec_reciterSelected.
      cbn [isEmpty orb]. rewrite andb_true_r. apply orb_true_iff. right.
      now apply eqb_str_spec. }
    intros Hnil. rewrite Hnil in Hin. exact Hin.
  - intros Hall x Hx. apply (Permutation_in _ Hp) in Hx.
    apply filter_In in Hx as [_ Hx]. unfold selectedBy, spec_reciterSelected in Hx.
    cbn [isEmpty orb] in Hx. rewrite andb_true_r in Hx.
    apply orb_true_iff in Hx as [Hx | Hx]; apply eqb_str_spec in Hx;
      [unfold ALL in Hx; contradiction | exact Hx].
Qed.

Lemma listed_reciter_has_episodes_witness :
  deref (fst (filteredEpisodes sampleOrder [[baqarah; fatiha; yasin]] O
                (js "Sheikh Ahmad") []))
        (snd (filteredEpisodes sampleOrder [[baqarah; fatiha; yasin]] O
                (js "Sheikh Ahmad") []))
  <> [].
Proof.
  apply (listed_reciter_has_episodes sampleOrder [[baqarah; fatiha; yasin]] O
           (js "ahmad") (mkReciter (js "Sheikh Ahmad") [])).
  vm_compute. auto.
Defined.
